(** * Voice-call hook ([src/app/hooks/useVoiceCall.ts]): call-session state machine

    A shallow embedding of the [useVoiceCall] React hook.  The hook keeps one
    [CallState] in React state, a handful of [useRef] cells (peer connection,
    capture stream, ICE queue, ...) and registers handlers on the chat socket.
    Every handler is an [async] function: it runs until its next [await],
    and the rest of its body runs when the awaited promise settles.  The
    embedding follows that shape:

    - the React state and the refs are the fields of [World];
    - a handler is a function [World -> World * option Cont]: the new world and,
      when the handler stopped at an [await], the continuation left pending;
    - [resume] runs a pending continuation with the outcome of its promise;
    - calls that leave the hook (REST client, socket emits, WebRTC and media
      calls) are recorded in the world's [log], newest first.

    An [await] on the result of one of the hook's own [async] helpers
    ([getLocalStream], [flushIceCandidateQueue]) resumes in the same turn of
    the event loop in which the helper returns; the two are one step here.

    After the hook come, each in a module of its own, the retry logic of the
    REST client, the message list and the chat list of [ChatApp], and the
    parts of [ChatWindow], [MessageBubble], [CallHistoryEntry] and
    [VoiceCallComponent] that decide what is shown. *)

From Stdlib Require Import String List Bool Arith Lia ZArith Permutation Sorted DecimalString.
Import ListNotations.
Local Open Scope string_scope.
Local Open Scope list_scope.

(** ** Data model *)

(** [CallState.status] *)
Inductive Status := idle | ringing | answered | connected | ended.

(** A [MediaStreamTrack], known by its id. *)
Definition Track := nat.

Record MediaStream := mkStream {
  streamId : nat;
  getTracks : list Track
}.

(** [RTCConfiguration] of [chatSocket.ts]: the urls of its [iceServers]. *)
Record RTCConfiguration := mkConfig {
  iceServers : list string
}.

Definition RTCSessionDescriptionInit := string.

Record RTCIceCandidateInit := mkCandidate {
  candidate : string;
  sdpMLineIndex : option nat
}.

(** [interface CallState] *)
Record CallState := mkCallState {
  callId : option string;
  callerId : option string;
  receiverId : option string;
  status : Status;
  remoteStream : option MediaStream;
  localStream : option MediaStream
}.

(** The value of [useState<CallState>(...)] at mount, written again by
    [cleanupWebRTCResources]. *)
Definition initialCallState : CallState :=
  mkCallState None None None idle None None.

(** An [RTCPeerConnection] object: a fresh id per [new], the configuration it
    was built with, and the tracks of its senders. *)
Record RTCPeerConnection := mkPc {
  pcId : nat;
  pcConfig : RTCConfiguration;
  getSenders : list Track
}.

(** [pc.connectionState] *)
Inductive RTCPeerConnectionState :=
  cs_new | cs_connecting | cs_connected | cs_disconnected | cs_failed | cs_closed.

(** The two call sites of [addIceCandidate]: the queue flush (line 489) and the
    direct application in [handleICECandidate] (line 627). *)
Inductive IceOrigin := FromQueue | Direct.

(** Calls that leave the hook. *)
Inductive Effect :=
| ApiInitiate (receiver : string)
| ApiAnswer (cid : string)
| ApiReject (cid : string)
| ApiEnd (cid : string)
| EmitWebRTCOffer (cid : string) (offer : RTCSessionDescriptionInit) (target : string)
| EmitWebRTCAnswer (cid : string) (answer : RTCSessionDescriptionInit) (target : string)
| EmitICECandidate (cid : string) (c : RTCIceCandidateInit) (target : string)
| GetUserMedia
| PcNew (pc : nat) (cfg : RTCConfiguration)
| PcClose (pc : nat)
| PcAddTrack (pc : nat) (t : Track)
| PcCreateOffer (pc : nat)
| PcCreateAnswer (pc : nat)
| PcSetLocalDescription (pc : nat) (d : RTCSessionDescriptionInit)
| PcSetRemoteDescription (pc : nat) (d : RTCSessionDescriptionInit)
| PcAddIceCandidate (pc : nat) (o : IceOrigin) (c : RTCIceCandidateInit)
| TrackStop (t : Track).

(** The hook's mutable cells.
    [callState] is the React state with every queued [setCallState] applied
    (functional updaters run in order on the latest value, so applying them at
    once gives the value React commits); [callStateRef] is the copy the
    [useEffect] of line 40 makes after a commit, see [render].
    [liveTracks] are the capture tracks the browser still keeps open. *)
Record World := mkWorld {
  callState : CallState;
  callStateRef : CallState;
  pcRef : option RTCPeerConnection;
  localStreamRef : option MediaStream;
  isCallerRef : bool;
  rtcConfigRef : option RTCConfiguration;
  iceCandidateQueueRef : list RTCIceCandidateInit;
  remoteDescriptionSetRef : bool;
  nextPcId : nat;
  liveTracks : list Track;
  log : list Effect
}.

(** [ChatSocket]: its emit methods do nothing unless [socket.connected]. *)
Record ChatSocket := mkSocket {
  socketConnected : bool
}.

(** The hook's arguments, and the [callState] the socket-listener effect closed
    over when it last ran (its dependency list has no [callState], so
    [handleWebRTCOffer] reads that snapshot at line 516). *)
Record Env := mkEnv {
  token : option string;
  socket : option ChatSocket;
  closureCallState : CallState
}.

(** ** Field updates *)

Definition with_callId v (c : CallState) :=
  mkCallState v (callerId c) (receiverId c) (status c) (remoteStream c) (localStream c).
Definition with_callerId v (c : CallState) :=
  mkCallState (callId c) v (receiverId c) (status c) (remoteStream c) (localStream c).
Definition with_receiverId v (c : CallState) :=
  mkCallState (callId c) (callerId c) v (status c) (remoteStream c) (localStream c).
Definition with_status v (c : CallState) :=
  mkCallState (callId c) (callerId c) (receiverId c) v (remoteStream c) (localStream c).
Definition with_remoteStream v (c : CallState) :=
  mkCallState (callId c) (callerId c) (receiverId c) (status c) v (localStream c).
Definition with_localStream v (c : CallState) :=
  mkCallState (callId c) (callerId c) (receiverId c) (status c) (remoteStream c) v.

(** [setCallState(updater)] *)
Definition setCallState (f : CallState -> CallState) (w : World) : World :=
  mkWorld (f (callState w)) (callStateRef w) (pcRef w) (localStreamRef w)
    (isCallerRef w) (rtcConfigRef w) (iceCandidateQueueRef w)
    (remoteDescriptionSetRef w) (nextPcId w) (liveTracks w) (log w).
Definition set_callStateRef v (w : World) : World :=
  mkWorld (callState w) v (pcRef w) (localStreamRef w)
    (isCallerRef w) (rtcConfigRef w) (iceCandidateQueueRef w)
    (remoteDescriptionSetRef w) (nextPcId w) (liveTracks w) (log w).
Definition set_pcRef v (w : World) : World :=
  mkWorld (callState w) (callStateRef w) v (localStreamRef w)
    (isCallerRef w) (rtcConfigRef w) (iceCandidateQueueRef w)
    (remoteDescriptionSetRef w) (nextPcId w) (liveTracks w) (log w).
Definition set_localStreamRef v (w : World) : World :=
  mkWorld (callState w) (callStateRef w) (pcRef w) v
    (isCallerRef w) (rtcConfigRef w) (iceCandidateQueueRef w)
    (remoteDescriptionSetRef w) (nextPcId w) (liveTracks w) (log w).
Definition set_isCallerRef v (w : World) : World :=
  mkWorld (callState w) (callStateRef w) (pcRef w) (localStreamRef w)
    v (rtcConfigRef w) (iceCandidateQueueRef w)
    (remoteDescriptionSetRef w) (nextPcId w) (liveTracks w) (log w).
Definition set_rtcConfigRef v (w : World) : World :=
  mkWorld (callState w) (callStateRef w) (pcRef w) (localStreamRef w)
    (isCallerRef w) v (iceCandidateQueueRef w)
    (remoteDescriptionSetRef w) (nextPcId w) (liveTracks w) (log w).
Definition set_iceCandidateQueueRef v (w : World) : World :=
  mkWorld (callState w) (callStateRef w) (pcRef w) (localStreamRef w)
    (isCallerRef w) (rtcConfigRef w) v
    (remoteDescriptionSetRef w) (nextPcId w) (liveTracks w) (log w).
Definition set_remoteDescriptionSetRef v (w : World) : World :=
  mkWorld (callState w) (callStateRef w) (pcRef w) (localStreamRef w)
    (isCallerRef w) (rtcConfigRef w) (iceCandidateQueueRef w)
    v (nextPcId w) (liveTracks w) (log w).
Definition set_nextPcId v (w : World) : World :=
  mkWorld (callState w) (callStateRef w) (pcRef w) (localStreamRef w)
    (isCallerRef w) (rtcConfigRef w) (iceCandidateQueueRef w)
    (remoteDescriptionSetRef w) v (liveTracks w) (log w).
Definition set_liveTracks v (w : World) : World :=
  mkWorld (callState w) (callStateRef w) (pcRef w) (localStreamRef w)
    (isCallerRef w) (rtcConfigRef w) (iceCandidateQueueRef w)
    (remoteDescriptionSetRef w) (nextPcId w) v (log w).

(** Record a call that leaves the hook. *)
Definition emit (e : Effect) (w : World) : World :=
  mkWorld (callState w) (callStateRef w) (pcRef w) (localStreamRef w)
    (isCallerRef w) (rtcConfigRef w) (iceCandidateQueueRef w)
    (remoteDescriptionSetRef w) (nextPcId w) (liveTracks w) (e :: log w).

(** The calls made so far, oldest first. *)
Definition history (w : World) : list Effect := rev (log w).

(** A [ChatSocket] emit method: sends only when the socket is connected
    ([chatSocket.ts], lines 471-493). *)
Definition socket_emit (sk : ChatSocket) (e : Effect) (w : World) : World :=
  if socketConnected sk then emit e w else w.

(** JavaScript truthiness of a [string | null]: [null] and the empty string
    are falsy. *)
Definition truthy (o : option string) : bool :=
  match o with
  | Some s => negb (String.eqb s "")
  | None => false
  end.

(** [a || b] on [string | null] values. *)
Definition js_or (a b : option string) : option string :=
  if truthy a then a else b.

(** [a === b] on [string | null] values. *)
Definition opt_string_eqb (a b : option string) : bool :=
  match a, b with
  | Some x, Some y => String.eqb x y
  | None, None => true
  | _, _ => false
  end.

(** The public STUN entry used when no server configuration is known. *)
Definition defaultRTCConfig : RTCConfiguration :=
  mkConfig ["stun:stun.l.google.com:19302"].

(** ** PeerLink and MediaSource helpers *)

(** [pcRef.current.addTrack(track, stream)] *)
Definition pc_addTrack (t : Track) (w : World) : World :=
  match pcRef w with
  | Some pc =>
      emit (PcAddTrack (pcId pc) t)
        (set_pcRef (Some (mkPc (pcId pc) (pcConfig pc) (getSenders pc ++ [t]))) w)
  | None => w
  end.

(** [senders.some(sender => sender.track === track)] *)
Definition alreadyAdded (senders : list Track) (t : Track) : bool :=
  existsb (Nat.eqb t) senders.

(** The loop of lines 181-192: the senders are read again for every track. *)
Definition attach_missing_track (w : World) (t : Track) : World :=
  match pcRef w with
  | Some pc => if alreadyAdded (getSenders pc) t then w else pc_addTrack t w
  | None => w
  end.

(** The loop of lines 311-317: the senders are read once, before the loop. *)
Definition attach_unless_in (senders : list Track) (w : World) (t : Track) : World :=
  if alreadyAdded senders t then w else pc_addTrack t w.

(** [initPeerConnection(rtcConfig)], lines 45-156: close the previous
    connection, reset the ICE queue and the remote-description flag, build a
    new connection and attach the stored capture tracks. *)
Definition initPeerConnection (rtcConfig : RTCConfiguration) (w : World) : World :=
  let w1 := match pcRef w with
            | Some old => emit (PcClose (pcId old)) w
            | None => w
            end in
  let w2 := set_remoteDescriptionSetRef false (set_iceCandidateQueueRef [] w1) in
  let pc := mkPc (nextPcId w2) rtcConfig [] in
  let w3 := set_pcRef (Some pc)
              (emit (PcNew (pcId pc) rtcConfig) (set_nextPcId (S (nextPcId w2)) w2)) in
  match localStreamRef w3 with
  | Some s => fold_left (fun acc t => pc_addTrack t acc) (getTracks s) w3
  | None => w3
  end.

(** [getLocalStream], the part after [getUserMedia] resolved with [stream]
    (lines 171-197).  The tracks of a granted stream are live. *)
Definition getLocalStream_granted (stream : MediaStream) (w : World) : World :=
  let w1 := set_liveTracks (liveTracks w ++ getTracks stream) w in
  let w2 := set_localStreamRef (Some stream) w1 in
  let w3 := setCallState (with_localStream (Some stream)) w2 in
  match pcRef w3 with
  | Some _ => fold_left attach_missing_track (getTracks stream) w3
  | None => w3
  end.

(** [track.stop()] *)
Definition stop_track (w : World) (t : Track) : World :=
  emit (TrackStop t) (set_liveTracks (remove Nat.eq_dec t (liveTracks w)) w).

(** Lines 208-216: close the peer connection. *)
Definition close_transport (w : World) : World :=
  match pcRef w with
  | Some pc => set_pcRef None (emit (PcClose (pcId pc)) w)
  | None => w
  end.

(** Lines 218-228: stop the local stream's tracks and drop the stream. *)
Definition stop_capture (w : World) : World :=
  match localStreamRef w with
  | Some s => set_localStreamRef None (fold_left stop_track (getTracks s) w)
  | None => w
  end.

(** [cleanupWebRTCResources], lines 205-242. *)
Definition cleanupWebRTCResources (w : World) : World :=
  set_remoteDescriptionSetRef false
    (set_iceCandidateQueueRef []
      (set_rtcConfigRef None
        (setCallState (fun _ => initialCallState)
          (stop_capture (close_transport w))))).

(** ** Suspended handlers *)

(** What a settled promise delivers. *)
Inductive Value :=
| VUnit
| VCall (id : string)
| VStream (s : MediaStream)
| VSdp (d : RTCSessionDescriptionInit).

Inductive Result :=
| Resolved (v : Value)
| Rejected.

(** [data] of [call:webrtc-offer] and [call:webrtc-answer]. *)
Record OfferData := mkOffer {
  offer_callId : string;
  offer_sdp : RTCSessionDescriptionInit;
  offer_callerId : string
}.

Record AnswerData := mkAnswer {
  answer_callId : string;
  answer_sdp : RTCSessionDescriptionInit;
  answer_receiverId : string
}.

(** One constructor per [await] of the hook: the rest of the handler, with the
    locals it still needs. *)
Inductive Cont :=
| KInitiate_api (receiver : string)
| KInitiate_media (call_id receiver : string)
| KInitiate_createOffer (call_id receiver : string)
| KInitiate_setLocal (call_id receiver : string) (offer : RTCSessionDescriptionInit)
| KAnswer_media (cid : string)
| KAnswer_api (cid : string)
| KReject_api (cid : string)
| KEnd_api
| KOffer_media (d : OfferData)
| KOffer_setRemote (d : OfferData)
| KOffer_flush (d : OfferData)
| KOffer_createAnswer (d : OfferData)
| KOffer_setLocal (d : OfferData) (answer : RTCSessionDescriptionInit)
| KAnswerSdp_setRemote (d : AnswerData)
| KAnswerSdp_flush (d : AnswerData).

Definition Step : Type := World * option Cont.

Definition done (w : World) : Step := (w, None).
Definition await (k : Cont) (w : World) : Step := (w, Some k).

(** ** Local actions *)

(** [handleEndCall], lines 245-268, up to its [await endCall]. *)
Definition handleEndCall (env : Env) (w : World) : Step :=
  let cid := callId (callStateRef w) in
  match cid with
  | Some c =>
      if truthy cid && truthy (token env)
      then await KEnd_api (emit (ApiEnd c) w)
      else done (cleanupWebRTCResources w)
  | None => done (cleanupWebRTCResources w)
  end.

(** [initiateCallHandler], lines 276-337, up to [await initiateCall]. *)
Definition initiateCallHandler (env : Env) (receiver : string) (w : World) : Step :=
  match socket env with
  | Some _ =>
      if truthy (token env)
      then await (KInitiate_api receiver)
             (emit (ApiInitiate receiver) (set_isCallerRef true w))
      else done w
  | None => done w
  end.

(** [answerCallHandler], lines 340-377, up to [await getLocalStream()]. *)
Definition answerCallHandler (env : Env) (cid : string) (w : World) : Step :=
  match socket env with
  | Some _ =>
      if truthy (token env)
      then await (KAnswer_media cid) (emit GetUserMedia (set_isCallerRef false w))
      else done w
  | None => done w
  end.

(** [rejectCallHandler], lines 380-396, up to [await rejectCall]. *)
Definition rejectCallHandler (env : Env) (cid : string) (w : World) : Step :=
  if truthy (token env)
  then await (KReject_api cid) (emit (ApiReject cid) w)
  else done w.

(** ** Socket listeners (the [useEffect] of lines 399-655) *)

(** [handleCallIncoming], lines 403-418. *)
Definition handleCallIncoming (cid caller : string) (rtcConfig : option RTCConfiguration)
    (w : World) : World :=
  let w1 := setCallState (fun prev =>
              with_status ringing (with_callerId (Some caller) (with_callId (Some cid) prev))) w in
  match rtcConfig with
  | Some cfg => set_rtcConfigRef (Some cfg) w1
  | None => w1
  end.

(** [handleCallInitiated], lines 421-436. *)
Definition handleCallInitiated (cid receiver : string) (rtcConfig : option RTCConfiguration)
    (w : World) : World :=
  let w1 := setCallState (fun prev =>
              with_receiverId (Some receiver) (with_callId (Some cid) prev)) w in
  match rtcConfig with
  | Some cfg => initPeerConnection cfg (set_rtcConfigRef (Some cfg) w1)
  | None => w1
  end.

(** The guarded updater [prev.callId === data.callId ? {...prev, status} : prev]
    of lines 441-447, 544-549 and 585-590. *)
Definition status_if_current (cid : string) (s : Status) (prev : CallState) : CallState :=
  if opt_string_eqb (callId prev) (Some cid) then with_status s prev else prev.

(** [handleCallAnswered], lines 439-448. *)
Definition handleCallAnswered (cid : string) (w : World) : World :=
  setCallState (status_if_current cid answered) w.

(** [handleCallConnected], lines 451-454. *)
Definition handleCallConnected (cid : string) (w : World) : World :=
  setCallState (with_status connected) w.

(** [handleCallRejected], lines 457-460. *)
Definition handleCallRejected (cid : string) (w : World) : World :=
  setCallState (fun prev => with_callId None (with_status idle prev)) w.

(** [handleCallEnded], lines 463-479. *)
Definition handleCallEnded (cid endedBy : string) (w : World) : World :=
  if opt_string_eqb (callId (callStateRef w)) (Some cid)
  then cleanupWebRTCResources w
  else w.

(** The [while] loop of [flushIceCandidateQueue] (lines 485-495), from its
    test to the next [await]: [true] when it stopped at an
    [await addIceCandidate], [false] when the queue ran empty.  With
    [pcRef.current] null the call throws inside the [try], the error is
    logged and the loop goes on with the next candidate.  A candidate the
    [RTCIceCandidate] constructor or [addIceCandidate] refuses counts as a
    rejected promise: the [catch] only logs it. *)
Fixpoint flush_loop (q : list RTCIceCandidateInit) (w : World) : World * bool :=
  match q with
  | [] => (set_iceCandidateQueueRef [] w, false)
  | c :: rest =>
      match pcRef w with
      | Some pc =>
          (emit (PcAddIceCandidate (pcId pc) FromQueue c) (set_iceCandidateQueueRef rest w),
           true)
      | None => flush_loop rest w
      end
  end.

(** [flushIceCandidateQueue], lines 482-496, up to its first [await]. *)
Definition flushIceCandidateQueue (w : World) : World * bool :=
  match pcRef w with
  | Some _ =>
      if remoteDescriptionSetRef w then flush_loop (iceCandidateQueueRef w) w else (w, false)
  | None => (w, false)
  end.

(** The loop again after an awaited [addIceCandidate] settled. *)
Definition flush_resume (w : World) : World * bool :=
  flush_loop (iceCandidateQueueRef w) w.

(** [handleWebRTCOffer], lines 521-553: with a peer connection, apply the
    offer; [await setRemoteDescription]. *)
Definition offer_setRemote (d : OfferData) (w : World) : Step :=
  match pcRef w with
  | Some pc => await (KOffer_setRemote d) (emit (PcSetRemoteDescription (pcId pc) (offer_sdp d)) w)
  | None => done w
  end.

(** Lines 530-531: [await pcRef.current.createAnswer()]; a null
    [pcRef.current] throws into the handler's [catch]. *)
Definition offer_createAnswer (d : OfferData) (w : World) : Step :=
  match pcRef w with
  | Some pc => await (KOffer_createAnswer d) (emit (PcCreateAnswer (pcId pc)) w)
  | None => done w
  end.

(** [handleWebRTCOffer], lines 499-557, up to its first [await]. *)
Definition handleWebRTCOffer (env : Env) (d : OfferData) (w : World) : Step :=
  match pcRef w with
  | None =>
      let config := match rtcConfigRef w with Some cfg => cfg | None => defaultRTCConfig end in
      let w1 := initPeerConnection config w in
      match localStream (closureCallState env) with
      | None => await (KOffer_media d) (emit GetUserMedia w1)
      | Some _ => offer_setRemote d w1
      end
  | Some _ => offer_setRemote d w
  end.

(** [handleWebRTCAnswer], lines 560-600, up to [await setRemoteDescription]. *)
Definition handleWebRTCAnswer (d : AnswerData) (w : World) : Step :=
  if opt_string_eqb (callId (callStateRef w)) (Some (answer_callId d))
  then match pcRef w with
       | Some pc =>
           await (KAnswerSdp_setRemote d)
             (emit (PcSetRemoteDescription (pcId pc) (answer_sdp d)) w)
       | None => done w
       end
  else done w.

(** [handleICECandidate], lines 603-632.  Its only [await] is followed by a
    log line, so nothing is left pending. *)
Definition handleICECandidate (cid : string) (cand : option RTCIceCandidateInit)
    (sender : string) (w : World) : World :=
  match cand with
  | None => w
  | Some c =>
      match pcRef w with
      | None => w
      | Some pc =>
          if remoteDescriptionSetRef w
          then emit (PcAddIceCandidate (pcId pc) Direct c) w
          else set_iceCandidateQueueRef (iceCandidateQueueRef w ++ [c]) w
      end
  end.

(** [handleCallError], lines 635-638. *)
Definition handleCallError (message : string) (w : World) : World :=
  setCallState (with_status idle) w.

(** ** Peer-connection callbacks (set in [initPeerConnection]) *)

(** [pc.ontrack], lines 60-66. *)
Definition pc_ontrack (stream : option MediaStream) (w : World) : World :=
  setCallState (with_remoteStream stream) w.

(** [pc.onicecandidate], lines 69-86. *)
Definition pc_onicecandidate (env : Env) (cand : option RTCIceCandidateInit) (w : World) : World :=
  match cand, socket env with
  | Some c, Some sk =>
      let current := callStateRef w in
      let targetId := js_or (receiverId current) (callerId current) in
      match targetId, callId current with
      | Some target, Some cid =>
          if truthy targetId && truthy (callId current)
          then socket_emit sk (EmitICECandidate cid c target) w
          else w
      | _, _ => w
      end
  | _, _ => w
  end.

(** [pc.onconnectionstatechange], lines 131-144: [failed] runs
    [handleEndCallRef.current], which the effect of line 271 keeps equal to
    [handleEndCall]. *)
Definition pc_onconnectionstatechange (env : Env) (st : RTCPeerConnectionState) (w : World) : Step :=
  match st with
  | cs_failed => handleEndCall env w
  | _ => done w
  end.

(** ** Resuming after an [await] *)

(** The [catch] of [initiateCallHandler], lines 331-334. *)
Definition initiate_failed (w : World) : Step :=
  done (setCallState (with_status idle) w).

(** [initiateCallHandler], lines 309-318: attach the tracks the new connection
    does not send yet. *)
Definition ensure_tracks_attached (w : World) : World :=
  match pcRef w, localStreamRef w with
  | Some pc, Some s => fold_left (attach_unless_in (getSenders pc)) (getTracks s) w
  | _, _ => w
  end.

(** [initiateCallHandler], lines 321-330: [await pcRef.current.createOffer()]. *)
Definition initiate_createOffer (id receiver : string) (w : World) : Step :=
  match pcRef w with
  | Some pc => await (KInitiate_createOffer id receiver) (emit (PcCreateOffer (pcId pc)) w)
  | None => done w
  end.

(** After [flushIceCandidateQueue] gave control back inside
    [handleWebRTCOffer]: stay in the flush or go on to [createAnswer]. *)
Definition offer_after_flush (d : OfferData) (f : World * bool) : Step :=
  if snd f then await (KOffer_flush d) (fst f) else offer_createAnswer d (fst f).

Definition answer_after_flush (d : AnswerData) (f : World * bool) : Step :=
  if snd f then await (KAnswerSdp_flush d) (fst f) else done (fst f).

(** The rest of each handler, given the outcome [r] of the promise it waited
    for.  A rejected promise, or a value of the wrong kind, goes to the
    handler's [catch]. *)
Definition resume (env : Env) (k : Cont) (r : Result) (w : World) : Step :=
  match k with
  (* initiateCallHandler *)
  | KInitiate_api receiver =>
      match r with
      | Resolved (VCall id) =>
          let w1 := setCallState (fun prev =>
                      with_status ringing
                        (with_receiverId (Some receiver) (with_callId (Some id) prev))) w in
          await (KInitiate_media id receiver) (emit GetUserMedia w1)
      | _ => initiate_failed w
      end
  | KInitiate_media id receiver =>
      match r with
      | Resolved (VStream stream) =>
          initiate_createOffer id receiver
            (ensure_tracks_attached
              (initPeerConnection defaultRTCConfig (getLocalStream_granted stream w)))
      | _ => initiate_failed w
      end
  | KInitiate_createOffer id receiver =>
      match r with
      | Resolved (VSdp offer) =>
          match pcRef w with
          | Some pc =>
              await (KInitiate_setLocal id receiver offer)
                (emit (PcSetLocalDescription (pcId pc) offer) w)
          | None => initiate_failed w
          end
      | _ => initiate_failed w
      end
  | KInitiate_setLocal id receiver offer =>
      match r with
      | Resolved _ =>
          match socket env with
          | Some sk => done (socket_emit sk (EmitWebRTCOffer id offer receiver) w)
          | None => done w
          end
      | Rejected => initiate_failed w
      end
  (* answerCallHandler *)
  | KAnswer_media cid =>
      match r with
      | Resolved (VStream stream) =>
          let w1 := getLocalStream_granted stream w in
          let config := match rtcConfigRef w1 with
                        | Some cfg => cfg
                        | None => defaultRTCConfig
                        end in
          await (KAnswer_api cid) (emit (ApiAnswer cid) (initPeerConnection config w1))
      | _ => done w
      end
  | KAnswer_api cid =>
      match r with
      | Resolved _ =>
          done (setCallState (fun prev => with_status answered (with_callId (Some cid) prev)) w)
      | Rejected => done w
      end
  (* rejectCallHandler *)
  | KReject_api cid =>
      match r with
      | Resolved _ =>
          done (setCallState (fun prev => with_callId None (with_status idle prev)) w)
      | Rejected => done w
      end
  (* handleEndCall: the [finally] block *)
  | KEnd_api => done (cleanupWebRTCResources w)
  (* handleWebRTCOffer *)
  | KOffer_media d =>
      match r with
      | Resolved (VStream stream) => offer_setRemote d (getLocalStream_granted stream w)
      | _ => done w
      end
  | KOffer_setRemote d =>
      match r with
      | Resolved _ =>
          offer_after_flush d (flushIceCandidateQueue (set_remoteDescriptionSetRef true w))
      | Rejected => done w
      end
  | KOffer_flush d => offer_after_flush d (flush_resume w)
  | KOffer_createAnswer d =>
      match r with
      | Resolved (VSdp answer) =>
          match pcRef w with
          | Some pc =>
              await (KOffer_setLocal d answer) (emit (PcSetLocalDescription (pcId pc) answer) w)
          | None => done w
          end
      | _ => done w
      end
  | KOffer_setLocal d answer =>
      match r with
      | Resolved _ =>
          match socket env with
          | Some sk =>
              done (setCallState (status_if_current (offer_callId d) connected)
                      (socket_emit sk (EmitWebRTCAnswer (offer_callId d) answer (offer_callerId d)) w))
          | None => done w
          end
      | Rejected => done w
      end
  (* handleWebRTCAnswer *)
  | KAnswerSdp_setRemote d =>
      match r with
      | Resolved _ =>
          let w1 := set_remoteDescriptionSetRef true w in
          let w2 := setCallState (status_if_current (answer_callId d) connected) w1 in
          answer_after_flush d (flushIceCandidateQueue w2)
      | Rejected => done w
      end
  | KAnswerSdp_flush d => answer_after_flush d (flush_resume w)
  end.

(** ** The event loop *)

(** What the single-threaded event loop can hand to the hook: a call of one of
    the returned functions, a socket event, a peer-connection callback, the
    settling of a pending promise, or a React commit.  The ICE-restart branch
    of [oniceconnectionstatechange] (lines 89-128) writes none of the cells of
    [World] and makes no REST call; it is left out. *)
Inductive Event :=
| InitiateCall (receiver : string)
| AnswerCall (cid : string)
| RejectCall (cid : string)
| EndCall
| CallIncoming (cid caller : string) (rtcConfig : option RTCConfiguration)
| CallInitiated (cid receiver : string) (rtcConfig : option RTCConfiguration)
| CallAnswered (cid : string)
| CallConnected (cid : string)
| CallRejected (cid : string)
| CallEnded (cid endedBy : string)
| WebRTCOffer (d : OfferData)
| WebRTCAnswer (d : AnswerData)
| ICECandidate (cid : string) (cand : option RTCIceCandidateInit) (sender : string)
| CallError (message : string)
| PcTrack (stream : option MediaStream)
| PcIceCandidate (cand : option RTCIceCandidateInit)
| PcConnectionState (st : RTCPeerConnectionState)
| Settle (n : nat) (r : Result)
| Render.

(** The hook between two events: its cells and the handlers waiting on a
    promise, oldest first. *)
Record Sys := mkSys {
  world : World;
  pending : list Cont
}.

Definition commit (s : Sys) (st : Step) : Sys :=
  mkSys (fst st)
    (match snd st with
     | Some k => pending s ++ [k]
     | None => pending s
     end).

Definition update (s : Sys) (w : World) : Sys := mkSys w (pending s).

(** Drop the [n]-th element. *)
Fixpoint drop_nth {A} (n : nat) (l : list A) : list A :=
  match l, n with
  | [], _ => []
  | _ :: t, O => t
  | h :: t, S m => h :: drop_nth m t
  end.

(** The [useEffect] of lines 40-42, run after React committed the state. *)
Definition render (w : World) : World := set_callStateRef (callState w) w.

(** A socket event reaches the hook's listener only when the effect of line
    399 registered it, that is when [socket] is not null. *)
Definition step (env : Env) (s : Sys) (e : Event) : Sys :=
  let w := world s in
  let on_socket (f : Sys) := match socket env with Some _ => f | None => s end in
  match e with
  | InitiateCall receiver => commit s (initiateCallHandler env receiver w)
  | AnswerCall cid => commit s (answerCallHandler env cid w)
  | RejectCall cid => commit s (rejectCallHandler env cid w)
  | EndCall => commit s (handleEndCall env w)
  | CallIncoming cid caller cfg => on_socket (update s (handleCallIncoming cid caller cfg w))
  | CallInitiated cid receiver cfg => on_socket (update s (handleCallInitiated cid receiver cfg w))
  | CallAnswered cid => on_socket (update s (handleCallAnswered cid w))
  | CallConnected cid => on_socket (update s (handleCallConnected cid w))
  | CallRejected cid => on_socket (update s (handleCallRejected cid w))
  | CallEnded cid endedBy => on_socket (update s (handleCallEnded cid endedBy w))
  | WebRTCOffer d => on_socket (commit s (handleWebRTCOffer env d w))
  | WebRTCAnswer d => on_socket (commit s (handleWebRTCAnswer d w))
  | ICECandidate cid cand sender => on_socket (update s (handleICECandidate cid cand sender w))
  | CallError message => on_socket (update s (handleCallError message w))
  | PcTrack stream => update s (pc_ontrack stream w)
  | PcIceCandidate cand => update s (pc_onicecandidate env cand w)
  | PcConnectionState st => commit s (pc_onconnectionstatechange env st w)
  | Settle n r =>
      match nth_error (pending s) n with
      | Some k => commit (mkSys w (drop_nth n (pending s))) (resume env k r w)
      | None => s
      end
  | Render => update s (render w)
  end.

(** A sequence of events, in order. *)
Definition run (env : Env) (s : Sys) (evs : list Event) : Sys :=
  fold_left (step env) evs s.

(** The hook right after mount. *)
Definition initialWorld : World :=
  mkWorld initialCallState initialCallState None None false None [] false 0 [] [].

Definition initialSys : Sys := mkSys initialWorld [].

(** ** Sample sessions *)

Definition alice_env : Env :=
  mkEnv (Some "token-a") (Some (mkSocket true)) initialCallState.

Definition mic : MediaStream := mkStream 7 [1; 2].

Definition cand_a : RTCIceCandidateInit := mkCandidate "candidate:a" (Some 0).
Definition cand_b : RTCIceCandidateInit := mkCandidate "candidate:b" (Some 0).
Definition cand_c : RTCIceCandidateInit := mkCandidate "candidate:c" (Some 0).

(** The receiver was told of call "c1" and React committed. *)
Definition ringing_c1 : Sys :=
  run alice_env initialSys [CallIncoming "c1" "alice" None; Render].

(** The receiver answered "c1": microphone granted, REST answer accepted. *)
Definition answered_c1 : Sys :=
  run alice_env ringing_c1
    [AnswerCall "c1"; Settle 0 (Resolved (VStream mic)); Settle 0 (Resolved VUnit); Render].

(** The offer of "c1" was applied and answered: the call is connected. *)
Definition connected_c1 : Sys :=
  run alice_env answered_c1
    [WebRTCOffer (mkOffer "c1" "offer-sdp" "alice");
     Settle 0 (Resolved VUnit);
     Settle 0 (Resolved (VSdp "answer-sdp"));
     Settle 0 (Resolved VUnit);
     Render].

(** The caller started a call to "bob" and waits for the peer's answer. *)
Definition calling_bob : Sys :=
  run alice_env initialSys
    [InitiateCall "bob";
     Settle 0 (Resolved (VCall "c1"));
     Settle 0 (Resolved (VStream mic));
     Settle 0 (Resolved (VSdp "offer-sdp"));
     Settle 0 (Resolved VUnit);
     Render;
     WebRTCAnswer (mkAnswer "c1" "answer-sdp" "bob")].

(** A second grant of the microphone: another stream, with tracks of its
    own. *)
Definition mic2 : MediaStream := mkStream 8 [3; 4].

(** The receiver answers "c1" and the offer comes before the microphone is
    granted: [handleWebRTCOffer] finds no transport, builds one and asks for
    the microphone as well.  Three candidates come while both wait. *)
Definition offer_before_answer_media : Sys :=
  run alice_env ringing_c1
    [AnswerCall "c1";
     WebRTCOffer (mkOffer "c1" "offer-sdp" "alice");
     ICECandidate "c1" (Some cand_a) "alice";
     ICECandidate "c1" (Some cand_b) "alice";
     ICECandidate "c1" (Some cand_c) "alice"].

(** Both requests for the microphone are granted, the REST answer is
    accepted, the offer is applied and answered: the call is connected. *)
Definition connected_after_race : Sys :=
  run alice_env offer_before_answer_media
    [Settle 0 (Resolved (VStream mic));
     Settle 0 (Resolved (VStream mic2));
     Settle 0 (Resolved VUnit);
     Settle 0 (Resolved VUnit);
     Settle 0 (Resolved (VSdp "answer-sdp"));
     Settle 0 (Resolved VUnit);
     Render].

(** The caller got two candidates before the peer's answer was applied; the
    flush loop applied the first and waits for [addIceCandidate]. *)
Definition flush_in_flight : Sys :=
  run alice_env calling_bob
    [ICECandidate "c1" (Some cand_a) "bob";
     ICECandidate "c1" (Some cand_b) "bob";
     Settle 0 (Resolved VUnit)].

(** ** Vocabulary of the properties *)

(** What [cleanupWebRTCResources] leaves behind: the state of a fresh mount, no
    transport, no capture stream, and none of the tracks of the stream it
    held still live. *)
Definition released (before after : World) : Prop :=
  callState after = initialCallState /\
  pcRef after = None /\
  localStreamRef after = None /\
  rtcConfigRef after = None /\
  iceCandidateQueueRef after = [] /\
  remoteDescriptionSetRef after = false /\
  forall s t, localStreamRef before = Some s -> In t (getTracks s) ->
              ~ In t (liveTracks after).

Definition is_rest_call (e : Effect) : bool :=
  match e with
  | ApiInitiate _ | ApiAnswer _ | ApiReject _ | ApiEnd _ => true
  | _ => false
  end.

Definition is_end_call (e : Effect) : bool :=
  match e with ApiEnd _ => true | _ => false end.

Definition is_reject_call (e : Effect) : bool :=
  match e with ApiReject _ => true | _ => false end.

(** The events that run [handleEndCall]: the returned [endCall] function and
    the transport reporting [failed]. *)
Definition runs_handleEndCall (e : Event) : bool :=
  match e with
  | EndCall | PcConnectionState cs_failed => true
  | _ => false
  end.

(** The events that run [rejectCallHandler]. *)
Definition runs_rejectCallHandler (e : Event) : bool :=
  match e with RejectCall _ => true | _ => false end.

(** The calls of a class [P] of effects made so far. *)
Definition calls (P : Effect -> bool) (w : World) : list Effect := filter P (log w).

(** A function on worlds that makes no call of the class. *)
Definition silent (P : Effect -> bool) (f : World -> World) : Prop :=
  forall w, calls P (f w) = calls P w.

Definition origin_eqb (a b : IceOrigin) : bool :=
  match a, b with
  | FromQueue, FromQueue | Direct, Direct => true
  | _, _ => false
  end.

(** The candidate an effect hands to [addIceCandidate] from call site [o]. *)
Definition picks (o : IceOrigin) (e : Effect) : list RTCIceCandidateInit :=
  match e with
  | PcAddIceCandidate _ o' c => if origin_eqb o o' then [c] else []
  | _ => []
  end.

(** The candidates applied to a transport from call site [o], oldest first. *)
Definition applied (o : IceOrigin) (w : World) : list RTCIceCandidateInit :=
  flat_map (picks o) (history w).

(** The candidates a sequence of events delivers, in order; a null payload
    delivers none. *)
Definition arrivals (evs : list Event) : list RTCIceCandidateInit :=
  flat_map (fun e => match e with ICECandidate _ (Some c) _ => [c] | _ => [] end) evs.

(** The handler is waiting for [setRemoteDescription]. *)
Definition awaits_remote_description (k : Cont) : bool :=
  match k with
  | KAnswerSdp_setRemote _ | KOffer_setRemote _ => true
  | _ => false
  end.

(** The handler is inside the flush loop. *)
Definition flushing (k : Cont) : bool :=
  match k with
  | KAnswerSdp_flush _ | KOffer_flush _ => true
  | _ => false
  end.

(** The same transport is in place: no [new RTCPeerConnection] ran (the id
    counter did not move) and [pcRef.current] is not null. *)
Definition same_transport (w w' : World) : bool :=
  Nat.eqb (nextPcId w') (nextPcId w) &&
  match pcRef w' with Some _ => true | None => false end.

(** Along a run, every event leaves the transport in place. *)
Fixpoint transport_kept (env : Env) (s : Sys) (evs : list Event) : bool :=
  match evs with
  | [] => true
  | e :: rest =>
      same_transport (world s) (world (step env s e)) &&
      transport_kept env (step env s e) rest
  end.

(** Some handler is inside the flush loop. *)
Definition flush_pending (s : Sys) : bool := existsb flushing (pending s).

(** The flush loop runs only once the remote description is applied, and it
    keeps running while candidates are queued. *)
Definition ice_consistent (s : Sys) : Prop :=
  pcRef (world s) <> None /\
  (remoteDescriptionSetRef (world s) = false -> flush_pending s = false) /\
  (remoteDescriptionSetRef (world s) = true ->
   iceCandidateQueueRef (world s) <> [] -> flush_pending s = true).

(** Two worlds that agree on everything the candidate queue depends on. *)
Definition ice_frame (w w' : World) : Prop :=
  remoteDescriptionSetRef w' = remoteDescriptionSetRef w /\
  iceCandidateQueueRef w' = iceCandidateQueueRef w /\
  nextPcId w' = nextPcId w /\
  (pcRef w' = None <-> pcRef w = None) /\
  forall o, applied o w' = applied o w.

(** The event resumes a handler at a point where the flush loop takes the next
    queued candidate: inside the loop, or at the [setRemoteDescription] that
    resolved. *)
Definition applies_next (s : Sys) (e : Event) : bool :=
  match e with
  | Settle n r =>
      match nth_error (pending s) n with
      | Some k =>
          flushing k ||
          (awaits_remote_description k &&
           match r with Resolved _ => true | Rejected => false end)
      | None => false
      end
  | _ => false
  end.

(** The number of such resumptions along a run. *)
Fixpoint turns (env : Env) (s : Sys) (evs : list Event) : nat :=
  match evs with
  | [] => 0
  | e :: rest => (if applies_next s e then 1 else 0) + turns env (step env s e) rest
  end.

(** What one event does to the queue and to the applied candidates, by the
    value of the remote-description flag before and after it. *)
Definition ice_progress (e : Event) (s s' : Sys) : Prop :=
  let w := world s in
  let w' := world s' in
  match remoteDescriptionSetRef w, remoteDescriptionSetRef w' with
  | false, false =>
      applied FromQueue w' = applied FromQueue w /\
      applied Direct w' = applied Direct w /\
      iceCandidateQueueRef w' = iceCandidateQueueRef w ++ arrivals [e]
  | false, true =>
      applied FromQueue w' ++ iceCandidateQueueRef w'
      = applied FromQueue w ++ iceCandidateQueueRef w /\
      applied Direct w' = applied Direct w /\
      arrivals [e] = [] /\
      length (iceCandidateQueueRef w') = pred (length (iceCandidateQueueRef w))
  | true, true =>
      applied FromQueue w' ++ iceCandidateQueueRef w'
      = applied FromQueue w ++ iceCandidateQueueRef w /\
      applied Direct w' = applied Direct w ++ arrivals [e] /\
      length (iceCandidateQueueRef w')
      = length (iceCandidateQueueRef w) - (if applies_next s e then 1 else 0)
  | true, false => False
  end.

(** A handler step that leaves the candidate queue alone and does not enter
    the flush loop. *)
Definition benign (w : World) (st : Step) : Prop :=
  ice_frame w (fst st) /\
  match snd st with
  | Some k => flushing k = false
  | None => True
  end.

(** What a handler leaves when it went through the flush loop once: the
    flag set, the head of the queue applied, and either the loop pending or
    the queue empty. *)
Definition flushed_once (w : World) (st : Step) : Prop :=
  remoteDescriptionSetRef (fst st) = true /\
  pcRef (fst st) <> None /\
  applied FromQueue (fst st) ++ iceCandidateQueueRef (fst st)
  = applied FromQueue w ++ iceCandidateQueueRef w /\
  applied Direct (fst st) = applied Direct w /\
  length (iceCandidateQueueRef (fst st)) = pred (length (iceCandidateQueueRef w)) /\
  match snd st with
  | Some k => flushing k = true \/ iceCandidateQueueRef (fst st) = []
  | None => iceCandidateQueueRef (fst st) = []
  end.

(** ** Vocabulary of the further properties of the hook *)

(** What every state of the hook satisfies: the status is never ['ended'], the
    stream published in [callState] is the one held in [localStreamRef], and
    no candidate is queued while there is no transport. *)
Definition hook_consistent (w : World) : Prop :=
  status (callState w) <> ended /\
  localStream (callState w) = localStreamRef w /\
  (pcRef w = None -> iceCandidateQueueRef w = []).

(** An updater of [setCallState] that spreads [prev], keeps its stream and
    does not write the status ['ended']. *)
Definition tame (f : CallState -> CallState) : Prop :=
  forall c, localStream (f c) = localStream c /\
            (status c <> ended -> status (f c) <> ended).

(** No pending handler is the part of [answerCallHandler] that calls the REST
    answer. *)
Definition other_than_answer (o : option Cont) : bool :=
  match o with Some (KAnswer_media _) => false | _ => true end.

Definition no_answer_pending (p : list Cont) : bool :=
  forallb (fun k => other_than_answer (Some k)) p.

(** The tracks a new connection gets from the stored capture stream. *)
Definition stored_tracks (w : World) : list Track :=
  match localStreamRef w with
  | Some s => getTracks s
  | None => []
  end.

(** The world right after [new RTCPeerConnection(rtcConfig)] in
    [initPeerConnection], before the stored tracks are attached. *)
Definition with_new_connection (cfg : RTCConfiguration) (w : World) : World :=
  mkWorld (callState w) (callStateRef w) (Some (mkPc (nextPcId w) cfg []))
    (localStreamRef w) (isCallerRef w) (rtcConfigRef w) [] false (S (nextPcId w))
    (liveTracks w)
    (PcNew (nextPcId w) cfg
     :: match pcRef w with Some old => [PcClose (pcId old)] | None => [] end ++ log w).

(** The peer connections the log shows as created and not closed. *)
Definition is_transport_event (e : Effect) : bool :=
  match e with
  | PcNew _ _ | PcClose _ => true
  | _ => false
  end.

Fixpoint open_transports (l : list Effect) : list nat :=
  match l with
  | [] => []
  | PcNew id _ :: l' => id :: open_transports l'
  | PcClose id :: l' => filter (fun x => negb (Nat.eqb x id)) (open_transports l')
  | _ :: l' => open_transports l'
  end.

(** The connection [pcRef] holds. *)
Definition held_transport (w : World) : list nat :=
  match pcRef w with
  | Some pc => [pcId pc]
  | None => []
  end.

(** Every connection created and not closed is the one in [pcRef]. *)
Definition transport_tracked (w : World) : Prop :=
  open_transports (log w) = held_transport w.

(** What goes out over the chat socket. *)
Definition is_signal (e : Effect) : bool :=
  match e with
  | EmitWebRTCOffer _ _ _ | EmitWebRTCAnswer _ _ _ | EmitICECandidate _ _ _ => true
  | _ => false
  end.

(** The socket handed to the hook, if any, is not connected. *)
Definition offline (env : Env) : Prop :=
  forall sk, socket env = Some sk -> socketConnected sk = false.

(** The signalling sent so far is [l]. *)
Definition signalled (l : list Effect) (w : World) : Prop := calls is_signal w = l.

(** * REST client ([src/unnamed/part_001], from line 149): retry on 429

    [retryRequest] and the response interceptor of [createApiClient].  The
    network is a script of outcomes, one per request in the order the requests
    are made; the requests and the [setTimeout] waits are recorded in a trace,
    newest first. *)
Module ApiClient.

(** A JavaScript number as the retry code meets it. *)
Inductive JsNum := Num (z : Z) | NaN.

Definition times (n : JsNum) (k : Z) : JsNum :=
  match n with Num z => Num (z * k) | NaN => NaN end.

(** The part of an axios response the retry code reads: [status] and
    [headers['retry-after']]. *)
Record AxiosResponse := mkResponse {
  resp_status : nat;
  retry_after : option string
}.

(** A rejection: an [AxiosError], whose [response] is absent when no answer
    came, or a plain [Error], which has no [response]. *)
Record AxiosError := mkError {
  response : option AxiosResponse;
  message : string
}.

Inductive Outcome := Returns (r : AxiosResponse) | Throws (e : AxiosError).

(** The request config: [_retry] is the mark the interceptor sets. *)
Record Config := mkRequestConfig {
  url : string;
  _retry : bool
}.

Inductive Action := Request (cfg : Config) | Sleep (ms : JsNum).

Definition Trace := list Action.

Definition is_request (a : Action) : bool :=
  match a with Request _ => true | Sleep _ => false end.

(** How many requests have been made. *)
Definition requests (tr : Trace) : nat := length (filter is_request tr).

(** The waits of a trace, oldest first. *)
Definition waits (tr : Trace) : list JsNum :=
  flat_map (fun a => match a with Sleep ms => [ms] | Request _ => [] end) (rev tr).

(** [axiosError.response?.status === 429] *)
Definition is429 (e : AxiosError) : bool :=
  match response e with
  | Some r => Nat.eqb (resp_status r) 429
  | None => false
  end.

(** [axiosError.response.headers['retry-after']] *)
Definition retryAfter (e : AxiosError) : option string :=
  match response e with
  | Some r => retry_after r
  | None => None
  end.

Section Client.

(** The global [parseInt]. *)
Variable parseInt : string -> JsNum.

(** The outcome of the [n]-th request made. *)
Variable server : nat -> Outcome.

(** One round trip on the wire. *)
Definition send (cfg : Config) (tr : Trace) : Outcome * Trace :=
  (server (requests tr), Request cfg :: tr).

(** [waitTime], lines 178-181. *)
Definition waitTime (e : AxiosError) (delay : Z) : JsNum :=
  match retryAfter e with
  | Some h => if truthy (Some h) then times (parseInt h) 1000 else Num delay
  | None => Num delay
  end.

(** [retryRequest], lines 165-191; [request] is [client.request]. *)
Fixpoint retryRequest (request : Config -> Trace -> Outcome * Trace) (config : Config)
    (retries : nat) (delay : Z) (tr : Trace) : Outcome * Trace :=
  match request config tr with
  | (Returns r, tr1) => (Returns r, tr1)
  | (Throws error, tr1) =>
      if is429 error && Nat.ltb 0 retries
      then match retries with
           | S retries' =>
               retryRequest request config retries' (delay * 2)
                 (Sleep (waitTime error delay) :: tr1)
           | O => (Throws error, tr1)
           end
      else (Throws error, tr1)
  end.

Definition tooManyRequests : AxiosError :=
  mkError None "Too many requests. Please wait a moment and try again.".

(** The rejection handler of the response interceptor, lines 214-234, for the
    error of a request sent with config [originalRequest]. *)
Definition onRejected (request : Config -> Trace -> Outcome * Trace)
    (error : AxiosError) (originalRequest : Config) (tr : Trace) : Outcome * Trace :=
  if is429 error && negb (_retry originalRequest)
  then match retryRequest request (mkRequestConfig (url originalRequest) true) 3 1000 tr with
       | (Returns r, tr') => (Returns r, tr')
       | (Throws retryError, tr') =>
           if is429 retryError then (Throws tooManyRequests, tr') else (Throws retryError, tr')
       end
  else (Throws error, tr).

(** [client.request] of a client made by [createApiClient]: the round trip,
    then the interceptor.  The interceptor calls [retryRequest], which calls
    [client.request] again; [depth] bounds that nesting. *)
Fixpoint client_request (depth : nat) (cfg : Config) (tr : Trace) : Outcome * Trace :=
  match send cfg tr with
  | (Returns r, tr1) => (Returns r, tr1)
  | (Throws error, tr1) =>
      match depth with
      | S d => onRejected (client_request d) error cfg tr1
      | O => (Throws error, tr1)
      end
  end.

(** The answer to the [n]-th request was a 429. *)
Definition limited (n : nat) : bool :=
  match server n with
  | Throws e => is429 e
  | Returns _ => false
  end.

(** The [Retry-After] header of the answer to the [n]-th request. *)
Definition advised (n : nat) : option string :=
  match server n with
  | Throws e => retryAfter e
  | Returns _ => None
  end.

(** What [retryRequest] waits after the [i]-th of its requests, the first of
    which is request [n]. *)
Definition wait_after (n : nat) (delay : Z) (i : nat) : JsNum :=
  match server (n + i) with
  | Throws e => waitTime e (delay * 2 ^ Z.of_nat i)
  | Returns _ => Num (delay * 2 ^ Z.of_nat i)
  end.

(** The requests and waits of a [retryRequest] that makes [k] retries,
    oldest first. *)
Definition script (cfg : Config) (n : nat) (delay : Z) (k : nat) : list Action :=
  flat_map (fun i => [Request cfg; Sleep (wait_after n delay i)]) (seq 0 k)
    ++ [Request cfg].

End Client.

End ApiClient.

(** * Arrays

    [Array.prototype.sort] with a comparator [(a, b) => key(a) - key(b)].
    A key is a JavaScript number that may be NaN, as the [getTime()] of an
    unparseable date is.  When no key is NaN the comparator is consistent:
    the result is ascending in the key and, the sort being stable, elements
    of equal key keep their order, which fixes the result.  When a key is
    NaN the comparator answers NaN and ECMAScript leaves the order to the
    engine: the result holds the same elements, in an order that is the
    engine's choice.  That choice is a parameter here, a rank for every index
    of the array, so that every order an engine can leave is covered.
    [spliceOut] is what is left of an array after [splice(i, 1)]. *)
Module JsArray.

Section Stable.

Context {B : Type}.
Variable rank : B -> Z.

Fixpoint insert (x : B) (l : list B) : list B :=
  match l with
  | [] => [x]
  | y :: l' => if (rank x <=? rank y)%Z then x :: l else y :: insert x l'
  end.

(** The stable ascending sort. *)
Fixpoint sortBy (l : list B) : list B :=
  match l with
  | [] => []
  | x :: l' => insert x (sortBy l')
  end.

End Stable.

Section Sort.

Context {A : Type}.

(** The key the comparator subtracts; [None] is NaN. *)
Variable key : A -> option Z.

(** The order the engine leaves an array in when a key is NaN: the rank of
    the element at each index. *)
Variable engineOrder : list A -> nat -> Z.

Definition value (a : A) : Z :=
  match key a with
  | Some z => z
  | None => 0%Z
  end.

(** No key of the array is NaN. *)
Definition comparable (l : list A) : bool :=
  forallb (fun a => match key a with Some _ => true | None => false end) l.

Definition sort (l : list A) : list A :=
  if comparable l
  then sortBy value l
  else map snd (sortBy (fun p => engineOrder l (fst p)) (combine (seq 0 (length l)) l)).

(** No key is NaN and the keys ascend. *)
Definition ascending (l : list A) : Prop :=
  comparable l = true /\ StronglySorted (fun a b => (value a <= value b)%Z) l.

End Sort.

(** [findIndex]: [None] stands for [-1]. *)
Fixpoint findIndex {A : Type} (p : A -> bool) (l : list A) : option nat :=
  match l with
  | [] => None
  | x :: l' => if p x then Some 0 else option_map S (findIndex p l')
  end.

Definition spliceOut {A : Type} (i : nat) (l : list A) : list A :=
  firstn i l ++ skipn (S i) l.

End JsArray.

(** * Messages ([src/unnamed/part_002]) *)
Module Messages.

(** [MessageApiResponse]; [sender_id] is [sender.id]. *)
Record MessageApiResponse := mkApiMessage {
  api_id : string;
  api_chatId : string;
  sender_id : string;
  api_type : string;
  api_content : string;
  api_status : string;
  api_createdAt : string;
  api_updatedAt : option string
}.

(** [Message] *)
Record Message := mkMessage {
  id : string;
  chatId : string;
  senderId : string;
  type : string;
  content : string;
  isRead : bool;
  isDelivered : bool;
  createdAt : string;
  updatedAt : option string
}.

(** [transformMessage], lines 50-62. *)
Definition transformMessage (apiMessage : MessageApiResponse) : Message :=
  mkMessage (api_id apiMessage) (api_chatId apiMessage) (sender_id apiMessage)
    (api_type apiMessage) (api_content apiMessage)
    (String.eqb (api_status apiMessage) "read")
    (String.eqb (api_status apiMessage) "delivered"
     || String.eqb (api_status apiMessage) "read")
    (api_createdAt apiMessage) (api_updatedAt apiMessage).

End Messages.

(** * Chat list and message list of [ChatApp]

    The updaters the component passes to [setMessages] and [setChats], and the
    [Chat] type of the chats API ([src/unnamed/part_003] and
    [src/unnamed/part_001]). *)
Module ChatApp.

Import Messages.

Record Participant := mkParticipant {
  participant_id : string;
  phone : string;
  username : option string;
  isOnline : option bool;
  lastSeen : option string
}.

Record LastMessage := mkLastMessage {
  lm__id : option string;
  lm_id : option string;
  lm_content : string;
  lm_type : string;
  lm_status : option string;
  lm_createdAt : string
}.

(** [Chat], [part_001] lines 12-39.  [id] and [chatId] are strings, of which
    the empty one is falsy; an optional property that is absent is [None]. *)
Record Chat := mkChat {
  chat_id : string;
  chat_chatId : string;
  otherParticipant : option Participant;
  participants : option (list Participant);
  lastMessage : option LastMessage;
  lastMessageAt : option string;
  unreadCount : option nat;
  chat_createdAt : string;
  chat_updatedAt : option string
}.

(** [c.chatId || c.id] *)
Definition chatKey (c : Chat) : string :=
  if String.eqb (chat_chatId c) "" then chat_id c else chat_chatId c.

(** [a ?? b] for an optional property under object spread: the later object
    wins when it has the property. *)
Definition spread {A : Type} (later earlier : option A) : option A :=
  match later with
  | Some v => Some v
  | None => earlier
  end.

(** What the socket is asked to send from inside an updater. *)
Inductive Receipt := MarkAsDelivered (chatId : string) | MarkAsRead (chatId : string).

Section Component.

(** [new Date(s).getTime()]; [None] is the NaN of a string that is not a
    date. *)
Variable getTime : string -> option Z.

(** What the engine's sort does with an array of messages when a
    [createdAt] is not a date. *)
Variable engineOrder : list Message -> nat -> Z.

(** The signed-in user. *)
Variable userId : string.

(** [l.sort((a, b) => new Date(a.createdAt).getTime() - new Date(b.createdAt).getTime())] *)
Definition byCreatedAt (l : list Message) : list Message :=
  JsArray.sort (fun m => getTime (createdAt m)) engineOrder l.

(** [prev.some((m) => m.id === message.id)] *)
Definition known (message : Message) (prev : list Message) : bool :=
  existsb (fun m => String.eqb (id m) (id message)) prev.

(** The updater of [handleSendMessage], lines 511-530. *)
Definition addSent (newMessage : Message) (prev : list Message) : list Message :=
  if known newMessage prev then prev else byCreatedAt (prev ++ [newMessage]).

(** The [setMessages] updater of [onMessageNew], lines 580-622, with the value
    of [selectedChatIdRef.current] and of [newSocket.isConnected()]; the
    second component is what it emits. *)
Definition onMessageNew_messages (currentChatId : option string) (isConnected : bool)
    (message : Message) (prev : list Message) : list Message * list Receipt :=
  if known message prev then (prev, [])
  else if opt_string_eqb (Some (chatId message)) currentChatId
       then (byCreatedAt (prev ++ [message]),
             if isConnected
             then [MarkAsDelivered (chatId message); MarkAsRead (chatId message)]
             else [])
       else (prev, []).

(** The status written into [lastMessage], line 641. *)
Definition statusOf (message : Message) : string :=
  if isRead message then "read" else if isDelivered message then "delivered" else "sent".

Definition lastMessageOf (message : Message) : LastMessage :=
  mkLastMessage (Some (id message)) (Some (id message)) (content message)
    (if String.eqb (type message) "" then "text" else type message)
    (Some (statusOf message)) (createdAt message).

Definition withLastMessage (message : Message) (c : Chat) : Chat :=
  mkChat (chat_id c) (chat_chatId c) (otherParticipant c) (participants c)
    (Some (lastMessageOf message)) (Some (createdAt message)) (unreadCount c)
    (chat_createdAt c) (chat_updatedAt c).

(** The [setChats] updater of [onMessageNew], lines 625-655. *)
Definition onMessageNew_chats (message : Message) (prevChats : list Chat) : list Chat :=
  match JsArray.findIndex (fun c => String.eqb (chatKey c) (chatId message)) prevChats with
  | Some chatIndex =>
      match nth_error prevChats chatIndex with
      | Some old => withLastMessage message old :: JsArray.spliceOut chatIndex prevChats
      | None => prevChats
      end
  | None => prevChats
  end.

(** [onChatNew], lines 657-674. *)
Definition onChatNew (chat : Chat) (prevChats : list Chat) : list Chat :=
  if existsb (fun c => String.eqb (chatKey c) (chatKey chat)) prevChats
  then prevChats
  else chat :: prevChats.

(** [{...old, ...chat, otherParticipant: chat.otherParticipant || old.otherParticipant}],
    lines 690-695. *)
Definition merged (old chat : Chat) : Chat :=
  mkChat (chat_id chat) (chat_chatId chat)
    (spread (otherParticipant chat) (otherParticipant old))
    (spread (participants chat) (participants old))
    (spread (lastMessage chat) (lastMessage old))
    (spread (lastMessageAt chat) (lastMessageAt old))
    (spread (unreadCount chat) (unreadCount old))
    (chat_createdAt chat)
    (spread (chat_updatedAt chat) (chat_updatedAt old)).

(** [onChatUpdated], lines 675-704. *)
Definition onChatUpdated (chat : Chat) (prevChats : list Chat) : list Chat :=
  match JsArray.findIndex (fun c => String.eqb (chatKey c) (chatKey chat)) prevChats with
  | Some chatIndex =>
      match nth_error prevChats chatIndex with
      | Some old => merged old chat :: JsArray.spliceOut chatIndex prevChats
      | None => chat :: prevChats
      end
  | None => chat :: prevChats
  end.

Definition withReceipt (read : bool) (msg : Message) : Message :=
  mkMessage (id msg) (chatId msg) (senderId msg) (type msg) (content msg)
    (if read then true else isRead msg) true (createdAt msg) (updatedAt msg).

(** [msg.chatId === data.chatId && msg.senderId !== userId] *)
Definition receiptApplies (data_chatId : string) (msg : Message) : bool :=
  String.eqb (chatId msg) data_chatId && negb (String.eqb (senderId msg) userId).

(** [onMessageRead], lines 705-717. *)
Definition onMessageRead (currentChatId : option string) (data_chatId : string)
    (prev : list Message) : list Message :=
  if opt_string_eqb (Some data_chatId) currentChatId
  then map (fun msg => if receiptApplies data_chatId msg then withReceipt true msg else msg) prev
  else prev.

(** [onMessageDelivered], lines 718-730. *)
Definition onMessageDelivered (currentChatId : option string) (data_chatId : string)
    (prev : list Message) : list Message :=
  if opt_string_eqb (Some data_chatId) currentChatId
  then map (fun msg => if receiptApplies data_chatId msg then withReceipt false msg else msg) prev
  else prev.

Definition withPresence (online : bool) (seen : option string) (c : Chat) (p : Participant) : Chat :=
  mkChat (chat_id c) (chat_chatId c)
    (Some (mkParticipant (participant_id p) (phone p) (username p) (Some online)
             (spread seen (lastSeen p))))
    (participants c) (lastMessage c) (lastMessageAt c) (unreadCount c)
    (chat_createdAt c) (chat_updatedAt c).

Definition presence (online : bool) (seen : option string) (uid : string) (c : Chat) : Chat :=
  match otherParticipant c with
  | Some p => if String.eqb (participant_id p) uid then withPresence online seen c p else c
  | None => c
  end.

(** [onUserOnline], lines 737-755. *)
Definition onUserOnline (uid : string) (prevChats : list Chat) : list Chat :=
  map (presence true None uid) prevChats.

(** [onUserOffline], lines 756-775; [now] is [new Date().toISOString()]. *)
Definition onUserOffline (now : string) (uid : string) (prevChats : list Chat) : list Chat :=
  map (presence false (Some now) uid) prevChats.

(** The [setMessages] calls of the component: a loaded chat
    ([loadChatMessages], lines 399-449), a sent message, and the socket
    events. *)
Inductive MessagesAction :=
| Loaded (chatMessages : list Message)
| LoadFailed
| Sent (newMessage : Message)
| MessageNew (currentChatId : option string) (isConnected : bool) (message : Message)
| MessageRead (currentChatId : option string) (data_chatId : string)
| MessageDelivered (currentChatId : option string) (data_chatId : string).

Definition setMessages (prev : list Message) (a : MessagesAction) : list Message :=
  match a with
  | Loaded chatMessages => byCreatedAt chatMessages
  | LoadFailed => []
  | Sent newMessage => addSent newMessage prev
  | MessageNew cur conn message => fst (onMessageNew_messages cur conn message prev)
  | MessageRead cur c => onMessageRead cur c prev
  | MessageDelivered cur c => onMessageDelivered cur c prev
  end.

(** Every [createdAt] of the list is a date, and the list is in the order
    of these dates. *)
Definition chronological (l : list Message) : Prop :=
  JsArray.ascending (fun m => getTime (createdAt m)) l.

(** The [createdAt] of the message is a date. *)
Definition dated (m : Message) : Prop := getTime (createdAt m) <> None.

(** The [getTime()] of the [createdAt] of a dated message. *)
Definition timeOf (m : Message) : Z := JsArray.value (fun m => getTime (createdAt m)) m.

(** Every message the action brings in is dated. *)
Definition datesParse (a : MessagesAction) : Prop :=
  match a with
  | Loaded chatMessages => Forall dated chatMessages
  | Sent newMessage => dated newMessage
  | MessageNew _ _ message => dated message
  | _ => True
  end.

(** No two messages of the list have the same [id]. *)
Definition uniqueIds (l : list Message) : Prop := NoDup (map id l).

(** The server sends no message twice in one page of a chat. *)
Definition loadsUnique (a : MessagesAction) : Prop :=
  match a with
  | Loaded chatMessages => uniqueIds chatMessages
  | _ => True
  end.

(** A message marked read is marked delivered. *)
Definition readIsDelivered (m : Message) : Prop :=
  isRead m = true -> isDelivered m = true.

(** The [setChats] calls of the socket callbacks. *)
Inductive ChatsAction :=
| ChatMessage (message : Message)
| ChatNew (chat : Chat)
| ChatUpdated (chat : Chat)
| UserOnline (uid : string)
| UserOffline (now uid : string).

Definition setChats (prevChats : list Chat) (a : ChatsAction) : list Chat :=
  match a with
  | ChatMessage message => onMessageNew_chats message prevChats
  | ChatNew chat => onChatNew chat prevChats
  | ChatUpdated chat => onChatUpdated chat prevChats
  | UserOnline uid => onUserOnline uid prevChats
  | UserOffline now uid => onUserOffline now uid prevChats
  end.

End Component.

(** ** Sample data *)

Definition clock (s : string) : Z :=
  if String.eqb s "2024-05-01T10:00:00Z" then 1714557600000
  else if String.eqb s "2024-05-01T10:00:05Z" then 1714557605000
  else if String.eqb s "2024-05-01T10:01:00Z" then 1714557660000
  else 0.

(** The sample dates as [getTime] gives them; any other string is not a
    date. *)
Definition dateOf (s : string) : option Z :=
  if String.eqb s "2024-05-01T10:00:00Z" || String.eqb s "2024-05-01T10:00:05Z"
     || String.eqb s "2024-05-01T10:01:00Z"
  then Some (clock s) else None.

(** An engine that leaves an array with a NaN key as it is. *)
Definition asIs (l : list Message) (i : nat) : Z := Z.of_nat i.

Definition hello : Message :=
  mkMessage "m1" "chat1" "alice" "text" "hello" false false "2024-05-01T10:00:00Z" None.

Definition how_are_you : Message :=
  mkMessage "m2" "chat1" "alice" "text" "how are you?" false false "2024-05-01T10:01:00Z" None.

Definition fine : Message :=
  mkMessage "m3" "chat1" "bob" "text" "fine" false false "2024-05-01T10:00:05Z" None.

Definition undated : Message :=
  mkMessage "m4" "chat1" "alice" "text" "?" false false "yesterday-ish" None.

Definition chat_with_alice : Chat :=
  mkChat "chat1" "chat1" (Some (mkParticipant "alice" "+100" None None None)) None None None
    None "2024-05-01T10:00:00Z" None.

Definition chat_with_carol : Chat :=
  mkChat "chat2" "" (Some (mkParticipant "carol" "+200" None None None)) None None None
    None "2024-05-01T10:00:00Z" None.

End ChatApp.

(** * Numbers as text

    [n.toString()] of a whole number and [s.padStart(2, '0')]. *)
Module JsString.

Definition ofNat (n : nat) : string := NilZero.string_of_uint (Nat.to_uint n).

Definition ofZ (z : Z) : string := NilZero.string_of_int (Z.to_int z).

Definition padStart2 (s : string) : string :=
  match String.length s with
  | 0 => "00"
  | 1 => "0" ++ s
  | _ => s
  end.

End JsString.

(** * Call records ([src/app/api/calls.ts]) *)
Module Calls.

Record CallUser := mkCallUser {
  user_id : string;
  user_phone : string;
  user_username : option string
}.

(** [Call], lines 20-32.  The components read [caller] and [receiver] with
    [?.], so they may be absent; [duration] is in whole seconds. *)
Record Call := mkCall {
  call_id : string;
  caller : option CallUser;
  receiver : option CallUser;
  call_status : string;
  startedAt : option string;
  endedAt : option string;
  duration : option nat;
  call_createdAt : string;
  legacy_callerId : option string;
  legacy_receiverId : option string
}.

(** [call.caller?.id || call.callerId] *)
Definition callerIdOf (call : Call) : option string :=
  js_or (option_map user_id (caller call)) (legacy_callerId call).

(** [call.receiver?.id || call.receiverId] *)
Definition receiverIdOf (call : Call) : option string :=
  js_or (option_map user_id (receiver call)) (legacy_receiverId call).

(** [call.endedAt || call.startedAt || call.createdAt] *)
Definition timestampOf (call : Call) : option string :=
  js_or (js_or (endedAt call) (startedAt call)) (Some (call_createdAt call)).

(** The filter of [loadCallHistory], [src/unnamed/part_003] lines 363-376. *)
Definition isRelevant (userId targetOtherUserId : string) (call : Call) : bool :=
  (opt_string_eqb (callerIdOf call) (Some userId)
   && opt_string_eqb (receiverIdOf call) (Some targetOtherUserId))
  || (opt_string_eqb (callerIdOf call) (Some targetOtherUserId)
      && opt_string_eqb (receiverIdOf call) (Some userId)).

(** What [loadCallHistory] hands to [setCallHistory] once [getCallHistory]
    returned [calls], lines 350-387; [found] is the id of the other
    participant of the selected chat in the chat list. *)
Definition loadCallHistory (userId : string) (otherUserId found : option string)
    (calls : list Call) : list Call :=
  let targetOtherUserId := if truthy otherUserId then otherUserId else found in
  match targetOtherUserId with
  | Some target => if truthy targetOtherUserId then filter (isRelevant userId target) calls else []
  | None => []
  end.

End Calls.

(** * [CallHistoryEntry] ([src/app/components/CallHistoryEntry.tsx]) *)
Module CallHistoryEntry.

Import Calls.

(** What React puts on the page for a value in braces: nothing for
    [undefined], [null] and booleans, the digits for a number, the element
    otherwise. *)
Inductive Rendered := Nothing | Text (s : string).

Section Entry.

Variable call : Call.
Variable currentUserId : string.

Definition isOutgoing : bool := opt_string_eqb (callerIdOf call) (Some currentUserId).

Definition isMissed : bool :=
  String.eqb (call_status call) "rejected"
  || (String.eqb (call_status call) "ringing" && negb isOutgoing).

Definition isAnswered : bool :=
  String.eqb (call_status call) "answered" || String.eqb (call_status call) "ended".

(** [formatDuration], lines 31-36. *)
Definition formatDuration (seconds : option nat) : string :=
  match seconds with
  | None => ""
  | Some 0 => ""
  | Some s => JsString.ofNat (s / 60) ++ ":" ++ JsString.padStart2 (JsString.ofNat (s mod 60))
  end.

(** [getCallText], lines 63-71. *)
Definition getCallText : string :=
  if isMissed then (if isOutgoing then "Missed call" else "Missed call")
  else if isAnswered then (if isOutgoing then "Outgoing call" else "Incoming call")
  else (if isOutgoing then "Outgoing call" else "Incoming call").

(** [{call.duration && isAnswered && (<span>({formatDuration(call.duration)})</span>)}],
    lines 80-82. *)
Definition durationSlot : Rendered :=
  match duration call with
  | None => Nothing
  | Some 0 => Text "0"
  | Some s => if isAnswered then Text ("(" ++ formatDuration (Some s) ++ ")") else Nothing
  end.

End Entry.

Section Time.

(** [new Date().getTime()], [new Date(s).getTime()] of a timestamp of the
    server, and [date.toLocaleDateString('en-US', ...)]. *)
Variable now : Z.
Variable getTime : string -> Z.
Variable toLocaleDateString : string -> string.

(** [formatTime], lines 39-54. *)
Definition formatTime (dateString : option string) : string :=
  match dateString with
  | None => ""
  | Some s =>
      if negb (truthy dateString) then ""
      else
        let diffMs := (now - getTime s)%Z in
        let diffMins := (diffMs / 60000)%Z in
        let diffHours := (diffMs / 3600000)%Z in
        let diffDays := (diffMs / 86400000)%Z in
        if (diffMins <? 1)%Z then "Just now"
        else if (diffMins <? 60)%Z then JsString.ofZ diffMins ++ "m ago"
        else if (diffHours <? 24)%Z then JsString.ofZ diffHours ++ "h ago"
        else if (diffDays <? 7)%Z then JsString.ofZ diffDays ++ "d ago"
        else toLocaleDateString s
  end.

End Time.

End CallHistoryEntry.

(** * [MessageBubble] ([src/app/components/MessageBubble.tsx]) *)
Module MessageBubble.

(** The status mark under a bubble, lines 54-58:
    [{isSent && (<span>{message.isRead ? '✓✓' : message.isDelivered ? '✓' : ''}</span>)}];
    [None] when no mark element is rendered. *)
Definition statusMark (message : Messages.Message) (isSent : bool) : option string :=
  if isSent
  then Some (if Messages.isRead message then "✓✓"
             else if Messages.isDelivered message then "✓" else "")
  else None.

End MessageBubble.

(** * [ChatWindow] ([src/app/components/ChatWindow.tsx]) *)
Module ChatWindow.

Inductive ItemData := MessageItem (m : Messages.Message) | CallItem (c : Calls.Call).

(** An entry of [items]; [timestamp] is the [getTime()] of its date, NaN
    ([None]) when the string is not a date. *)
Record Item := mkItem {
  data : ItemData;
  timestamp : option Z
}.

Definition isMessageItem (it : Item) : bool :=
  match data it with MessageItem _ => true | CallItem _ => false end.

Section Window.

Variable getTime : string -> option Z.

(** What the engine's sort does with the items when a timestamp is NaN. *)
Variable engineOrder : list Item -> nat -> Z.

Definition messageItem (msg : Messages.Message) : Item :=
  mkItem (MessageItem msg) (getTime (Messages.createdAt msg)).

Definition callItem (call : Calls.Call) : Item :=
  mkItem (CallItem call)
    (getTime (match Calls.timestampOf call with Some s => s | None => "" end)).

(** [mergedItems], lines 40-73. *)
Definition mergedItems (messages : list Messages.Message) (callHistory : list Calls.Call)
    : list Item :=
  JsArray.sort timestamp engineOrder (map messageItem messages ++ map callItem callHistory).

End Window.

(** The mark of the bubble of [message]: the window passes
    [isSent={message.senderId === currentUserId}], line 109. *)
Definition bubbleMark (currentUserId : string) (message : Messages.Message) : option string :=
  MessageBubble.statusMark message (String.eqb (Messages.senderId message) currentUserId).

End ChatWindow.

(** * [VoiceCallComponent] ([src/unnamed/part_004]) *)
Module VoiceCallComponent.

(** The three blocks of the panel: incoming call with Answer and Reject,
    outgoing call with Cancel, call in progress with the name shown, the
    timer and whether the microphone meter is shown. *)
Inductive Block :=
| IncomingCall (name : string)
| Calling (name : string)
| CallInProgress (name : option string) (timer : string) (meter : bool).

(** [name || 'Unknown User'] *)
Definition orUnknown (name : option string) : string :=
  match name with
  | Some n => if truthy name then n else "Unknown User"
  | None => "Unknown User"
  end.

(** [formatDuration], lines 159-163. *)
Definition formatDuration (seconds : nat) : string :=
  JsString.padStart2 (JsString.ofNat (seconds / 60)) ++ ":"
  ++ JsString.padStart2 (JsString.ofNat (seconds mod 60)).

Definition isRinging (s : Status) : bool :=
  match s with ringing => true | _ => false end.

Definition inProgress (s : Status) : bool :=
  match s with answered | connected => true | _ => false end.

(** What the component returns, lines 166-272: [None] is [null]. *)
Definition render (callState : CallState) (callerName receiverName : option string)
    (callDuration : nat) : option (list Block) :=
  match status callState with
  | idle => None
  | _ =>
      Some ((if isRinging (status callState) && truthy (callerId callState)
             then [IncomingCall (orUnknown callerName)] else [])
            ++ (if isRinging (status callState) && negb (truthy (callerId callState))
                then [Calling (orUnknown receiverName)] else [])
            ++ (if inProgress (status callState)
                then [CallInProgress
                        (if truthy (callerId callState) then callerName
                         else Some (orUnknown receiverName))
                        (formatDuration callDuration)
                        (match localStream callState with Some _ => true | None => false end)]
                else []))
  end.

End VoiceCallComponent.

(** ** Sample calls *)
Module SampleCalls.

Definition bob_called_alice : Calls.Call :=
  Calls.mkCall "k1" (Some (Calls.mkCallUser "bob" "+300" None))
    (Some (Calls.mkCallUser "alice" "+100" None)) "ended"
    (Some "2024-05-01T10:00:05Z") None (Some 65) "2024-05-01T10:00:00Z" None None.

Definition alice_called_bob : Calls.Call :=
  Calls.mkCall "k2" None None "rejected" None None None "2024-05-01T10:01:00Z"
    (Some "alice") (Some "bob").

Definition carol_called_bob : Calls.Call :=
  Calls.mkCall "k3" (Some (Calls.mkCallUser "carol" "+200" None))
    (Some (Calls.mkCallUser "bob" "+300" None)) "ringing" None None None
    "2024-05-01T10:00:00Z" None None.

End SampleCalls.

(** * Properties *)

(** ** Basic facts *)

Lemma update_same (s : Sys) : update s (world s) = s.
Proof. destruct s; reflexivity. Qed.

Lemma opt_string_eqb_eq (a b : option string) :
  opt_string_eqb a b = true <-> a = b.
Proof.
  destruct a as [x|], b as [y|]; simpl; split; intro H;
    try discriminate; try reflexivity.
  - apply String.eqb_eq in H. now subst.
  - injection H as ->. apply String.eqb_refl.
Qed.

Lemma opt_string_eqb_neq (a b : option string) :
  a <> b -> opt_string_eqb a b = false.
Proof.
  intro H. destruct (opt_string_eqb a b) eqn:E; [|reflexivity].
  apply opt_string_eqb_eq in E. contradiction.
Qed.

(** ** Events for another call *)

(** [call:ended], [call:answered] and [call:webrtc-answer] compare the event's
    [callId] with the session's and leave everything as it is when they
    differ. *)
Lemma handleCallEnded_other_call (cid endedBy : string) (w : World) :
  callId (callStateRef w) <> Some cid ->
  handleCallEnded cid endedBy w = w.
Proof.
  intro H. unfold handleCallEnded. now rewrite opt_string_eqb_neq.
Qed.

Lemma handleCallAnswered_other_call (cid : string) (w : World) :
  callId (callState w) <> Some cid ->
  handleCallAnswered cid w = w.
Proof.
  intro H. unfold handleCallAnswered, setCallState, status_if_current.
  rewrite opt_string_eqb_neq by assumption. destruct w; reflexivity.
Qed.

Lemma handleWebRTCAnswer_other_call (d : AnswerData) (w : World) :
  callId (callStateRef w) <> Some (answer_callId d) ->
  handleWebRTCAnswer d w = done w.
Proof.
  intro H. unfold handleWebRTCAnswer. now rewrite opt_string_eqb_neq.
Qed.

(** C1: a remote event for another call must leave the session alone.
    [handleCallRejected] does not look at the event's [callId]: with call "c1"
    ringing, [call:rejected] for "c2" clears the [callId] and sets the status
    to idle.  [handleICECandidate] and [handleWebRTCOffer] do not look at it
    either: with "c1" connected, a candidate for "c2" is applied to the
    transport of "c1", and an offer for "c2" is set as its remote
    description. *)
Theorem C1_event_for_other_call_changes_session :
  (callId (callState (world ringing_c1)) = Some "c1" /\
   status (callState (world ringing_c1)) = ringing /\
   callState (world (step alice_env ringing_c1 (CallRejected "c2")))
   = mkCallState None (Some "alice") None idle None None) /\
  (callId (callState (world connected_c1)) = Some "c1" /\
   log (world (step alice_env connected_c1 (ICECandidate "c2" (Some cand_a) "mallory")))
   = PcAddIceCandidate 0 Direct cand_a :: log (world connected_c1)) /\
  (log (world (step alice_env connected_c1 (WebRTCOffer (mkOffer "c2" "other-sdp" "mallory"))))
   = PcSetRemoteDescription 0 "other-sdp" :: log (world connected_c1)).
Proof. vm_compute. repeat split. Qed.

(** ** Teardown *)

Lemma stop_tracks_liveTracks (ts : list Track) (w : World) (t : Track) :
  In t (liveTracks (fold_left stop_track ts w)) ->
  In t (liveTracks w) /\ ~ In t ts.
Proof.
  revert w. induction ts as [|a ts IH]; intros w H; simpl in *.
  - split; [assumption | tauto].
  - apply IH in H. destruct H as [H Hts]. unfold stop_track in H. simpl in H.
    destruct (Nat.eq_dec a t) as [->|Hne].
    + exfalso. revert H. apply remove_In.
    + apply in_remove in H. destruct H as [H _]. split; [assumption|].
      intros [Heq|Hin]; [contradiction | tauto].
Qed.

Lemma stop_tracks_cells (ts : list Track) (w : World) :
  let w' := fold_left stop_track ts w in
  callState w' = callState w /\ callStateRef w' = callStateRef w /\
  pcRef w' = pcRef w /\ localStreamRef w' = localStreamRef w /\
  isCallerRef w' = isCallerRef w /\ nextPcId w' = nextPcId w.
Proof.
  revert w. induction ts as [|a ts IH]; intros w; simpl.
  - repeat split.
  - specialize (IH (stop_track w a)). simpl in IH. exact IH.
Qed.

Lemma close_transport_spec (w : World) :
  pcRef (close_transport w) = None /\
  localStreamRef (close_transport w) = localStreamRef w /\
  liveTracks (close_transport w) = liveTracks w.
Proof.
  unfold close_transport. destruct (pcRef w) eqn:E; simpl; auto.
Qed.

Lemma stop_capture_spec (w : World) :
  pcRef (stop_capture w) = pcRef w /\
  localStreamRef (stop_capture w) = None /\
  forall s t, localStreamRef w = Some s -> In t (getTracks s) ->
              ~ In t (liveTracks (stop_capture w)).
Proof.
  unfold stop_capture. destruct (localStreamRef w) as [s0|] eqn:E.
  - simpl. repeat split.
    + apply (stop_tracks_cells (getTracks s0) w).
    + intros s t [= <-] Ht Hin. apply stop_tracks_liveTracks in Hin. tauto.
  - repeat split; [assumption | discriminate].
Qed.

Lemma cleanup_released (w : World) : released w (cleanupWebRTCResources w).
Proof.
  destruct (close_transport_spec w) as (Hp & Hl & _).
  destruct (stop_capture_spec (close_transport w)) as (Hp2 & Hl2 & Ht).
  unfold released, cleanupWebRTCResources. simpl.
  repeat split; try reflexivity.
  - now rewrite Hp2.
  - assumption.
  - intros s t Hs. apply Ht. now rewrite Hl.
Qed.

(** A released world that is cleaned up again does not change. *)
Lemma cleanup_fixpoint (w : World) :
  callState w = initialCallState -> pcRef w = None -> localStreamRef w = None ->
  rtcConfigRef w = None -> iceCandidateQueueRef w = [] ->
  remoteDescriptionSetRef w = false ->
  cleanupWebRTCResources w = w.
Proof.
  destruct w; simpl; intros; subst. reflexivity.
Qed.

Lemma cleanup_twice (w : World) :
  cleanupWebRTCResources (cleanupWebRTCResources w) = cleanupWebRTCResources w.
Proof.
  destruct (cleanup_released w) as (Hc & Hp & Hl & Hr & Hq & Hf & _).
  now apply cleanup_fixpoint.
Qed.

(** [handleEndCall] always ends in [cleanupWebRTCResources].  When it has no
    [callId] or no token it cleans up at once; otherwise it waits for the
    REST call, and whatever the outcome [r] and whatever the world [w2] has
    become by then, the [finally] block cleans up and nothing is left pending.
    After the cleanup the status is idle, the [callId] is null, the stream
    reference is dropped and no track of the stream that was held is live.
    Ending again changes no cell, and once React has committed the idle state
    it makes no call at all. *)
Lemma handleEndCall_releases_held_stream (env : Env) (w : World) :
  (match handleEndCall env w with
   | (w1, None) => w1 = cleanupWebRTCResources w
   | (w1, Some k) =>
       forall (r : Result) (w2 : World),
         resume env k r w2 = done (cleanupWebRTCResources w2)
   end) /\
  (let w' := cleanupWebRTCResources w in
   status (callState w') = idle /\
   callId (callState w') = None /\
   localStream (callState w') = None /\
   localStreamRef w' = None /\
   (forall s t, localStreamRef w = Some s -> In t (getTracks s) -> ~ In t (liveTracks w')) /\
   cleanupWebRTCResources w' = w' /\
   handleEndCall env (render w') = done (render w')).
Proof.
  split.
  - unfold handleEndCall. destruct (callId (callStateRef w)) as [c|]; [|reflexivity].
    destruct (truthy (Some c) && truthy (token env)); [|reflexivity].
    intros r w2. reflexivity.
  - destruct (cleanup_released w) as (Hc & Hp & Hl & Hr & Hq & Hf & Ht).
    cbv zeta. rewrite Hc. repeat split; try assumption.
    + apply cleanup_twice.
    + unfold handleEndCall.
      replace (callId (callStateRef (render (cleanupWebRTCResources w)))) with (@None string)
        by (unfold render; simpl; try rewrite Hc; reflexivity).
      unfold done. f_equal. now apply cleanup_fixpoint.
Qed.

Lemma handleEndCall_releases_held_stream_connected :
  localStreamRef (world connected_c1) = Some mic /\
  ~ In 1 (liveTracks (cleanupWebRTCResources (world connected_c1))) /\
  status (callState (cleanupWebRTCResources (world connected_c1))) = idle /\
  world (run alice_env connected_c1 [EndCall; Settle 0 Rejected])
  = cleanupWebRTCResources (emit (ApiEnd "c1") (world connected_c1)).
Proof.
  destruct (handleEndCall_releases_held_stream alice_env (world connected_c1))
    as (_ & Hs & _ & _ & _ & Ht & _).
  split; [vm_compute; reflexivity|].
  split; [apply (Ht mic 1); [vm_compute; reflexivity | simpl; auto]|].
  split; [exact Hs | vm_compute; reflexivity].
Qed.

(** C2: after end no capture track may be retained.  [cleanupWebRTCResources]
    stops the tracks of the stream in [localStreamRef] only, and
    [getLocalStream] overwrites that cell without stopping the stream it
    held.  The receiver answers "c1" and the offer overtakes the grant of the
    microphone, so that [answerCallHandler] and [handleWebRTCOffer] both ask
    for it: tracks 1 and 2 of the first stream and 3 and 4 of the second are
    live, and the second stream is the held one.  The call connects and is
    ended.  Whatever the outcome of the REST call, the hook is idle with no
    [callId], no stream, no transport and nothing pending; tracks 3 and 4 were
    stopped, and tracks 1 and 2 are still live. *)
Theorem C2_end_leaves_replaced_stream_live (r : Result) :
  let s := run alice_env connected_after_race [EndCall; Settle 0 r; Render] in
  status (callState (world connected_after_race)) = connected /\
  localStreamRef (world connected_after_race) = Some mic2 /\
  liveTracks (world connected_after_race) = [1; 2; 3; 4] /\
  callState (world s) = initialCallState /\
  localStreamRef (world s) = None /\
  pcRef (world s) = None /\
  pending s = [] /\
  filter is_transport_event (log (world s)) = [PcClose 1; PcNew 1 defaultRTCConfig;
                                               PcClose 0; PcNew 0 defaultRTCConfig] /\
  log (world s)
  = TrackStop 4 :: TrackStop 3 :: PcClose 1 :: ApiEnd "c1"
    :: log (world connected_after_race) /\
  liveTracks (world s) = [1; 2].
Proof.
  destruct r as [v|]; [destruct v|]; vm_compute; repeat split.
Qed.

(** C4: every way to idle must clear the whole session.  Only
    [cleanupWebRTCResources] does; the other writers of [status: 'idle'] spread
    the previous state.  With "c1" connected, [call:error] sets the status to
    idle and keeps the [callId], the peer, the local stream, the open
    transport, the remote-description flag and the live capture tracks.  With
    "c1" ringing, a remote [call:rejected] and a local reject clear the
    [callId] and keep the [callerId]. *)
Theorem C4_idle_with_session_fields_left :
  (world (step alice_env connected_c1 (CallError "failure"))
   = mkWorld
       (mkCallState (Some "c1") (Some "alice") None idle None (Some mic))
       (callStateRef (world connected_c1))
       (Some (mkPc 0 defaultRTCConfig [1; 2]))
       (Some mic) false None [] true 1 [1; 2]
       (log (world connected_c1))) /\
  callState (world (step alice_env ringing_c1 (CallRejected "c1")))
  = mkCallState None (Some "alice") None idle None None /\
  callState (world (run alice_env ringing_c1 [RejectCall "c1"; Settle 0 (Resolved VUnit)]))
  = mkCallState None (Some "alice") None idle None None.
Proof. vm_compute. repeat split. Qed.

(** ** One session at a time *)

(** C5, as the claim states it: with a call "c1" connected, [call:incoming]
    for "c2" replaces the [callId] and sets the status back to ringing, while
    the transport and the stream of "c1" stay in place. *)
Lemma C5_incoming_replaces_live_session :
  let s' := step alice_env connected_c1 (CallIncoming "c2" "carol" None) in
  status (callState (world connected_c1)) = connected /\
  callId (callState (world connected_c1)) = Some "c1" /\
  callId (callState (world s')) = Some "c2" /\
  status (callState (world s')) = ringing /\
  pcRef (world s') = pcRef (world connected_c1) /\
  localStreamRef (world s') = Some mic.
Proof. vm_compute. repeat split. Qed.

(** C5, amended: the hook has one [CallState] cell, and no handler looks at
    the current status before it writes a [callId] into it.  [call:incoming]
    installs its [callId] with status ringing; the result of the REST
    initiate installs the new call's id with status ringing; the result of
    the REST answer installs the answered [callId] with status answered; and
    the local initiate and answer start whatever the cell holds. *)
Theorem C5_callId_installed_whatever_the_status (env : Env) (w : World) :
  (forall cid caller cfg,
     let c := callState (handleCallIncoming cid caller cfg w) in
     callId c = Some cid /\ callerId c = Some caller /\ status c = ringing) /\
  (forall receiver id,
     let c := callState (fst (resume env (KInitiate_api receiver) (Resolved (VCall id)) w)) in
     callId c = Some id /\ receiverId c = Some receiver /\ status c = ringing) /\
  (forall cid v,
     let c := callState (fst (resume env (KAnswer_api cid) (Resolved v) w)) in
     callId c = Some cid /\ status c = answered) /\
  (forall receiver sk tok,
     initiateCallHandler (mkEnv (Some tok) (Some sk) (closureCallState env)) receiver w
     = if truthy (Some tok)
       then await (KInitiate_api receiver) (emit (ApiInitiate receiver) (set_isCallerRef true w))
       else done w) /\
  (forall cid sk tok,
     answerCallHandler (mkEnv (Some tok) (Some sk) (closureCallState env)) cid w
     = if truthy (Some tok)
       then await (KAnswer_media cid) (emit GetUserMedia (set_isCallerRef false w))
       else done w).
Proof.
  repeat split.
  - destruct cfg; reflexivity.
  - destruct cfg; reflexivity.
  - destruct cfg; reflexivity.
Qed.

(** ** Results that arrive late *)

(** C7: a continuation must drop its result when the session it belongs to is
    gone.  The caller starts a call, the REST call returns "c1", React
    commits, and while the microphone prompt is open the peer ends "c1": the
    session is cleaned up.  When the microphone is then granted,
    [initiateCallHandler] goes on without looking at the session: the status
    is idle and the [callId] null, but the stream is stored and live, a new
    transport is built with its tracks, and once the offer is created and set
    it is sent for the ended call "c1". *)
Theorem C7_late_media_result_mutates_closed_session :
  let closed := run alice_env initialSys
                  [InitiateCall "bob"; Settle 0 (Resolved (VCall "c1")); Render;
                   CallEnded "c1" "bob"; Render] in
  let late := step alice_env closed (Settle 0 (Resolved (VStream mic))) in
  let sent := run alice_env late
                [Settle 0 (Resolved (VSdp "offer-sdp")); Settle 0 (Resolved VUnit)] in
  callState (world closed) = initialCallState /\
  pcRef (world closed) = None /\
  localStreamRef (world closed) = None /\
  pending closed = [KInitiate_media "c1" "bob"] /\
  callState (world late) = mkCallState None None None idle None (Some mic) /\
  localStreamRef (world late) = Some mic /\
  liveTracks (world late) = [1; 2] /\
  pcRef (world late) = Some (mkPc 0 defaultRTCConfig [1; 2]) /\
  pending late = [KInitiate_createOffer "c1" "bob"] /\
  log (world sent)
  = EmitWebRTCOffer "c1" "offer-sdp" "bob" :: PcSetLocalDescription 0 "offer-sdp"
    :: log (world late).
Proof. vm_compute. repeat split. Qed.

(** ** Failed actions *)

(** C8, as the claim states it: with "c1" ringing, the receiver answers and the
    microphone is refused, or the REST answer fails: the status stays
    ringing. *)
Lemma C8_failed_answer_stays_ringing :
  status (callState (world (run alice_env ringing_c1 [AnswerCall "c1"; Settle 0 Rejected])))
  = ringing /\
  status (callState (world (run alice_env ringing_c1
            [AnswerCall "c1"; Settle 0 (Resolved (VStream mic)); Settle 0 Rejected])))
  = ringing.
Proof. vm_compute. repeat split. Qed.

(** C8, amended: when the REST call or the media acquisition of an initiate
    fails, the handler stops and the status is set to idle, the other fields
    of the call state staying as they were; when the media acquisition or the
    REST call of an answer fails, the handler stops there and writes nothing,
    so the status stays what it was and never becomes answered. *)
Theorem C8_failed_initiate_idle_failed_answer_unchanged (env : Env) (w : World) :
  (forall receiver,
     resume env (KInitiate_api receiver) Rejected w
     = done (setCallState (with_status idle) w)) /\
  (forall id receiver,
     resume env (KInitiate_media id receiver) Rejected w
     = done (setCallState (with_status idle) w)) /\
  status (callState (setCallState (with_status idle) w)) = idle /\
  (forall cid, resume env (KAnswer_media cid) Rejected w = done w) /\
  (forall cid, resume env (KAnswer_api cid) Rejected w = done w).
Proof. repeat split. Qed.

(** ** Null candidates and candidates without a transport *)

(** C9: a null candidate is the end-of-gathering mark.  [pc.onicecandidate]
    with a null candidate, and [call:webrtc-ice-candidate] with a null
    candidate, leave the hook exactly as it was: nothing is emitted, queued or
    applied. *)
Theorem C9_null_candidate_is_noop (env : Env) (s : Sys) :
  step env s (PcIceCandidate None) = s /\
  (forall cid sender, step env s (ICECandidate cid None sender) = s) /\
  (forall w, pc_onicecandidate env None w = w) /\
  (forall cid sender w, handleICECandidate cid None sender w = w).
Proof.
  repeat split.
  - simpl. apply update_same.
  - intros cid sender. simpl. destruct (socket env); [apply update_same | reflexivity].
Qed.

(** C10: a candidate that arrives while [pcRef.current] is null is dropped:
    the hook is exactly as it was, so the candidate is not in the queue and
    whatever happens next happens as if it had never arrived. *)
Theorem C10_candidate_without_transport_dropped
    (env : Env) (s : Sys) (cid sender : string) (cand : option RTCIceCandidateInit) :
  pcRef (world s) = None ->
  step env s (ICECandidate cid cand sender) = s /\
  iceCandidateQueueRef (world (step env s (ICECandidate cid cand sender)))
  = iceCandidateQueueRef (world s) /\
  log (world (step env s (ICECandidate cid cand sender))) = log (world s) /\
  forall evs, run env (step env s (ICECandidate cid cand sender)) evs = run env s evs.
Proof.
  intro H.
  assert (E : step env s (ICECandidate cid cand sender) = s).
  { simpl. destruct (socket env); [|reflexivity].
    unfold handleICECandidate. rewrite H. destruct cand; apply update_same. }
  rewrite E. repeat split.
Qed.

Lemma C10_candidate_without_transport_dropped_witness :
  pcRef (world ringing_c1) = None /\
  remoteDescriptionSetRef (world ringing_c1) = false /\
  step alice_env ringing_c1 (ICECandidate "c1" (Some cand_a) "alice") = ringing_c1.
Proof.
  split; [reflexivity | split; [reflexivity |]].
  apply (C10_candidate_without_transport_dropped alice_env ringing_c1 "c1" "alice"
           (Some cand_a)).
  reflexivity.
Defined.

(** ** Lifecycle REST calls *)

Section Calls.

Variable P : Effect -> bool.

Lemma calls_emit (e : Effect) (w : World) :
  P e = false -> calls P (emit e w) = calls P w.
Proof. intro H. unfold calls. simpl. now rewrite H. Qed.

Lemma silent_fold {A} (f : World -> A -> World) (l : list A) :
  (forall a, silent P (fun w => f w a)) -> silent P (fun w => fold_left f l w).
Proof.
  intros H. induction l as [|a l IH]; intro w; simpl; [reflexivity|].
  rewrite IH. apply H.
Qed.

Hypothesis P_rest : forall e, is_rest_call e = false -> P e = false.

Lemma silent_pc_addTrack (t : Track) : silent P (pc_addTrack t).
Proof.
  intro w. unfold pc_addTrack. destruct (pcRef w); [|reflexivity].
  unfold calls. simpl. now rewrite P_rest.
Qed.

Lemma silent_attach_missing_track (t : Track) : silent P (fun w => attach_missing_track w t).
Proof.
  intro w. unfold attach_missing_track. destruct (pcRef w); [|reflexivity].
  destruct (alreadyAdded _ _); [reflexivity | apply silent_pc_addTrack].
Qed.

Lemma silent_attach_unless_in (senders : list Track) (t : Track) :
  silent P (fun w => attach_unless_in senders w t).
Proof.
  intro w. unfold attach_unless_in.
  destruct (alreadyAdded _ _); [reflexivity | apply silent_pc_addTrack].
Qed.

Lemma silent_initPeerConnection (cfg : RTCConfiguration) : silent P (initPeerConnection cfg).
Proof.
  intro w. unfold initPeerConnection.
  match goal with
  | |- calls P (match ?o with Some s => fold_left ?f (getTracks s) ?w3 | None => _ end) = _ =>
      assert (H3 : calls P w3 = calls P w);
      [| destruct o; [rewrite (silent_fold f); [exact H3|] | exact H3] ]
  end.
  - unfold calls. simpl. rewrite P_rest by reflexivity.
    destruct (pcRef w); simpl; [now rewrite P_rest | reflexivity].
  - intros a w0. apply silent_pc_addTrack.
Qed.

Lemma silent_getLocalStream_granted (stream : MediaStream) :
  silent P (getLocalStream_granted stream).
Proof.
  intro w. unfold getLocalStream_granted.
  match goal with
  | |- calls P (match ?o with Some _ => fold_left ?f ?l ?w3 | None => _ end) = _ =>
      destruct o; [rewrite (silent_fold f); [reflexivity|] | reflexivity]
  end.
  intros a w0. apply silent_attach_missing_track.
Qed.

Lemma silent_stop_track (t : Track) : silent P (fun w => stop_track w t).
Proof. intro w. unfold stop_track, calls. simpl. now rewrite P_rest. Qed.

Lemma silent_cleanupWebRTCResources : silent P cleanupWebRTCResources.
Proof.
  intro w. unfold cleanupWebRTCResources.
  transitivity (calls P (stop_capture (close_transport w))); [reflexivity|].
  transitivity (calls P (close_transport w)).
  - unfold stop_capture. destruct (localStreamRef _); [|reflexivity].
    transitivity (calls P (fold_left stop_track (getTracks m) (close_transport w)));
      [reflexivity|].
    apply (silent_fold stop_track). intros a. apply silent_stop_track.
  - unfold close_transport. destruct (pcRef w); [|reflexivity].
    unfold calls. simpl. now rewrite P_rest.
Qed.

Lemma silent_flush_loop (q : list RTCIceCandidateInit) :
  silent P (fun w => fst (flush_loop q w)).
Proof.
  induction q as [|c q IH]; intro w; simpl; [reflexivity|].
  destruct (pcRef w); [|apply IH].
  unfold calls. simpl. now rewrite P_rest.
Qed.

Lemma silent_flushIceCandidateQueue : silent P (fun w => fst (flushIceCandidateQueue w)).
Proof.
  intro w. unfold flushIceCandidateQueue. destruct (pcRef w); [|reflexivity].
  destruct (remoteDescriptionSetRef w); [|reflexivity].
  apply (silent_flush_loop (iceCandidateQueueRef w)).
Qed.

Lemma silent_socket_emit (sk : ChatSocket) (e : Effect) :
  is_rest_call e = false -> silent P (socket_emit sk e).
Proof.
  intros H w. unfold socket_emit. destruct (socketConnected sk); [|reflexivity].
  apply calls_emit. now apply P_rest.
Qed.

End Calls.

Section HandlerCalls.

Variable P : Effect -> bool.
Hypothesis P_rest : forall e, is_rest_call e = false -> P e = false.

Lemma silent_handleCallInitiated (cid receiver : string) (cfg : option RTCConfiguration) :
  silent P (handleCallInitiated cid receiver cfg).
Proof.
  intro w. unfold handleCallInitiated. destruct cfg; [|reflexivity].
  now rewrite silent_initPeerConnection.
Qed.

Lemma silent_handleCallEnded (cid endedBy : string) :
  silent P (handleCallEnded cid endedBy).
Proof.
  intro w. unfold handleCallEnded. destruct (opt_string_eqb _ _); [|reflexivity].
  now apply silent_cleanupWebRTCResources.
Qed.

Lemma silent_handleICECandidate (cid sender : string) (cand : option RTCIceCandidateInit) :
  silent P (handleICECandidate cid cand sender).
Proof.
  intro w. unfold handleICECandidate. destruct cand; [|reflexivity].
  destruct (pcRef w); [|reflexivity].
  destruct (remoteDescriptionSetRef w); [|reflexivity].
  apply calls_emit. now apply P_rest.
Qed.

Lemma silent_pc_onicecandidate (env : Env) (cand : option RTCIceCandidateInit) :
  silent P (pc_onicecandidate env cand).
Proof.
  intro w. unfold pc_onicecandidate.
  destruct cand; [|reflexivity]. destruct (socket env); [|reflexivity].
  destruct (js_or _ _); [|reflexivity].
  destruct (callId (callStateRef w)); [|reflexivity].
  destruct (_ && _); [|reflexivity].
  now apply silent_socket_emit.
Qed.

Lemma silent_offer_setRemote (d : OfferData) : silent P (fun w => fst (offer_setRemote d w)).
Proof.
  intro w. unfold offer_setRemote. destruct (pcRef w); [|reflexivity].
  apply calls_emit. now apply P_rest.
Qed.

Lemma silent_offer_createAnswer (d : OfferData) :
  silent P (fun w => fst (offer_createAnswer d w)).
Proof.
  intro w. unfold offer_createAnswer. destruct (pcRef w); [|reflexivity].
  apply calls_emit. now apply P_rest.
Qed.

Lemma silent_offer_after_flush (d : OfferData) (f : World * bool) :
  calls P (fst (offer_after_flush d f)) = calls P (fst f).
Proof.
  unfold offer_after_flush. destruct (snd f); [reflexivity|].
  apply silent_offer_createAnswer.
Qed.

Lemma silent_answer_after_flush (d : AnswerData) (f : World * bool) :
  calls P (fst (answer_after_flush d f)) = calls P (fst f).
Proof. unfold answer_after_flush. destruct (snd f); reflexivity. Qed.

Lemma silent_handleWebRTCOffer (env : Env) (d : OfferData) :
  silent P (fun w => fst (handleWebRTCOffer env d w)).
Proof.
  intro w. unfold handleWebRTCOffer. destruct (pcRef w).
  - apply silent_offer_setRemote.
  - destruct (localStream (closureCallState env)).
    + rewrite silent_offer_setRemote. now apply silent_initPeerConnection.
    + unfold await, fst. rewrite calls_emit by now apply P_rest.
      now apply silent_initPeerConnection.
Qed.

Lemma silent_handleWebRTCAnswer (d : AnswerData) :
  silent P (fun w => fst (handleWebRTCAnswer d w)).
Proof.
  intro w. unfold handleWebRTCAnswer. destruct (opt_string_eqb _ _); [|reflexivity].
  destruct (pcRef w); [|reflexivity].
  apply calls_emit. now apply P_rest.
Qed.

Lemma silent_ensure_tracks_attached : silent P ensure_tracks_attached.
Proof.
  intro w. unfold ensure_tracks_attached.
  destruct (pcRef w) as [pc|]; [|reflexivity].
  destruct (localStreamRef w); [|reflexivity].
  apply (silent_fold P (attach_unless_in (getSenders pc))).
  intros a. now apply silent_attach_unless_in.
Qed.

Lemma silent_initiate_createOffer (id receiver : string) :
  silent P (fun w => fst (initiate_createOffer id receiver w)).
Proof.
  intro w. unfold initiate_createOffer. destruct (pcRef w); [|reflexivity].
  apply calls_emit. now apply P_rest.
Qed.

Hypothesis P_initiate : forall r, P (ApiInitiate r) = false.
Hypothesis P_answer : forall c, P (ApiAnswer c) = false.

(** No continuation calls the end or the reject endpoint. *)
Lemma silent_resume (env : Env) (k : Cont) (r : Result) :
  silent P (fun w => fst (resume env k r w)).
Proof.
  intro w. destruct k; simpl.
  - destruct r as [[| | |]|]; try reflexivity.
    unfold await, fst. now rewrite calls_emit by now apply P_rest.
  - destruct r as [[| |stream|]|]; try reflexivity.
    rewrite silent_initiate_createOffer, silent_ensure_tracks_attached.
    rewrite silent_initPeerConnection by assumption.
    now apply silent_getLocalStream_granted.
  - destruct r as [[| | |]|]; try reflexivity.
    destruct (pcRef w); [|reflexivity].
    unfold await, fst. now rewrite calls_emit by now apply P_rest.
  - destruct r; [|reflexivity]. destruct (socket env); [|reflexivity].
    now apply silent_socket_emit.
  - destruct r as [[| |stream|]|]; try reflexivity.
    unfold await, fst. rewrite calls_emit by apply P_answer.
    rewrite silent_initPeerConnection by assumption.
    now apply silent_getLocalStream_granted.
  - destruct r; reflexivity.
  - destruct r; reflexivity.
  - now apply silent_cleanupWebRTCResources.
  - destruct r as [[| |stream|]|]; try reflexivity.
    rewrite silent_offer_setRemote. now apply silent_getLocalStream_granted.
  - destruct r; [|reflexivity].
    rewrite silent_offer_after_flush.
    now rewrite (silent_flushIceCandidateQueue P P_rest).
  - rewrite silent_offer_after_flush. unfold flush_resume.
    now apply (silent_flush_loop P P_rest).
  - destruct r as [[| | |]|]; try reflexivity.
    destruct (pcRef w); [|reflexivity].
    unfold await, fst. now rewrite calls_emit by now apply P_rest.
  - destruct r; [|reflexivity]. destruct (socket env); [|reflexivity].
    unfold done, fst.
    transitivity (calls P (socket_emit c
                    (EmitWebRTCAnswer (offer_callId d) answer (offer_callerId d)) w));
      [reflexivity | now apply silent_socket_emit].
  - destruct r; [|reflexivity].
    rewrite silent_answer_after_flush.
    now rewrite (silent_flushIceCandidateQueue P P_rest).
  - rewrite silent_answer_after_flush. unfold flush_resume.
    now apply (silent_flush_loop P P_rest).
Qed.

(** An event makes calls of the class only when it runs the handler that
    makes them. *)
Lemma silent_step (env : Env) (s : Sys) (e : Event) :
  (runs_handleEndCall e = true -> forall c, P (ApiEnd c) = false) ->
  (runs_rejectCallHandler e = true -> forall c, P (ApiReject c) = false) ->
  calls P (world (step env s e)) = calls P (world s).
Proof.
  intros Hend Hrej.
  assert (HendCall : calls P (fst (handleEndCall env (world s))) = calls P (world s)
                     \/ exists c, P (ApiEnd c) = true).
  { unfold handleEndCall. destruct (callId (callStateRef (world s))) as [c|].
    - destruct (_ && _).
      + destruct (P (ApiEnd c)) eqn:E; [right; now exists c|].
        left. now apply calls_emit.
      + left. now apply silent_cleanupWebRTCResources.
    - left. now apply silent_cleanupWebRTCResources. }
  destruct e; simpl; try (destruct (socket env); [|reflexivity]; simpl).
  - unfold initiateCallHandler. destruct (socket env); [|reflexivity].
    destruct (truthy _); [|reflexivity].
    unfold await, fst. now rewrite calls_emit by apply P_initiate.
  - unfold answerCallHandler. destruct (socket env); [|reflexivity].
    destruct (truthy _); [|reflexivity].
    unfold await, fst. now rewrite calls_emit by now apply P_rest.
  - unfold rejectCallHandler. destruct (truthy _); [|reflexivity].
    apply calls_emit. now apply Hrej.
  - destruct HendCall as [H|[c H]]; [exact H|].
    rewrite (Hend eq_refl c) in H. discriminate.
  - unfold handleCallIncoming. destruct rtcConfig; reflexivity.
  - apply silent_handleCallInitiated.
  - reflexivity.
  - reflexivity.
  - reflexivity.
  - apply silent_handleCallEnded.
  - apply silent_handleWebRTCOffer.
  - apply silent_handleWebRTCAnswer.
  - apply silent_handleICECandidate.
  - reflexivity.
  - reflexivity.
  - apply silent_pc_onicecandidate.
  - destruct st; try reflexivity.
    destruct HendCall as [H|[c H]]; [exact H|].
    rewrite (Hend eq_refl c) in H. discriminate.
  - destruct (nth_error (pending s) n); [|reflexivity].
    apply silent_resume.
  - reflexivity.
Qed.

End HandlerCalls.

(** The end and reject endpoints are called by the local end and reject
    only.  [call:ended] adds no REST call to the log and [call:rejected] adds
    nothing at all; an event that does not run [handleEndCall] adds no call of
    the end endpoint, and an event that does not run [rejectCallHandler] adds
    no call of the reject endpoint; a local end of a session with a [callId]
    and a token calls the end endpoint, and a local reject with a token calls
    the reject endpoint. *)
Lemma lifecycle_calls_only_from_local_actions (env : Env) (s : Sys) :
  (forall cid endedBy,
     calls is_rest_call (world (step env s (CallEnded cid endedBy)))
     = calls is_rest_call (world s)) /\
  (forall cid, log (world (step env s (CallRejected cid))) = log (world s)) /\
  (forall e, runs_handleEndCall e = false ->
     calls is_end_call (world (step env s e)) = calls is_end_call (world s)) /\
  (forall e, runs_rejectCallHandler e = false ->
     calls is_reject_call (world (step env s e)) = calls is_reject_call (world s)) /\
  (forall c, callId (callStateRef (world s)) = Some c ->
     truthy (Some c) = true -> truthy (token env) = true ->
     log (world (step env s EndCall)) = ApiEnd c :: log (world s)) /\
  (forall cid, truthy (token env) = true ->
     log (world (step env s (RejectCall cid))) = ApiReject cid :: log (world s)).
Proof.
  repeat apply conj.
  - intros cid endedBy. simpl. destruct (socket env); [|reflexivity]. simpl.
    now apply silent_handleCallEnded.
  - intros cid. simpl. destruct (socket env); reflexivity.
  - intros e He. apply silent_step.
    + intros [] H; try reflexivity; discriminate.
    + reflexivity.
    + reflexivity.
    + rewrite He. discriminate.
    + reflexivity.
  - intros e He. apply silent_step.
    + intros [] H; try reflexivity; discriminate.
    + reflexivity.
    + reflexivity.
    + reflexivity.
    + rewrite He. discriminate.
  - intros c Hc Ht Htok. simpl. unfold handleEndCall. rewrite Hc, Ht, Htok. reflexivity.
  - intros cid Htok. simpl. unfold rejectCallHandler. rewrite Htok. reflexivity.
Qed.

(** [call:ended] for the current call is the full teardown, with no REST
    call; for another call it changes nothing. *)
Lemma handleCallEnded_tears_down (env : Env) (s : Sys) (cid endedBy : string) :
  socket env <> None ->
  (callId (callStateRef (world s)) = Some cid ->
   world (step env s (CallEnded cid endedBy)) = cleanupWebRTCResources (world s) /\
   released (world s) (world (step env s (CallEnded cid endedBy)))) /\
  (callId (callStateRef (world s)) <> Some cid ->
   world (step env s (CallEnded cid endedBy)) = world s) /\
  pending (step env s (CallEnded cid endedBy)) = pending s.
Proof.
  intro Hsock. simpl. destruct (socket env) as [sk|]; [|congruence]. simpl.
  unfold handleCallEnded.
  split; [|split; [|reflexivity]].
  - intro H. apply opt_string_eqb_eq in H. rewrite H.
    split; [reflexivity | apply cleanup_released].
  - intro Hne. now rewrite opt_string_eqb_neq.
Qed.

(** C6: a remote [call:rejected] must tear the session down, as a remote
    [call:ended] does, and call no lifecycle endpoint.  It calls none, but it
    tears nothing down either: [handleCallRejected] writes the status and the
    [callId] only.  The caller of "c1" waits for the peer's answer with a
    transport open and the microphone live.  On [call:rejected] the hook is
    idle with no [callId], and the transport, the stream, the live tracks,
    the stored receiver and the log are what they were: nothing was closed
    and nothing stopped.  On [call:ended] in the same state the sibling
    handler closes the transport, stops both tracks and resets every cell,
    without a REST call. *)
Theorem C6_rejected_event_tears_nothing_down :
  let before := world calling_bob in
  let rejected := world (step alice_env calling_bob (CallRejected "c1")) in
  let ended := world (step alice_env calling_bob (CallEnded "c1" "bob")) in
  callId (callStateRef before) = Some "c1" /\
  pcRef before = Some (mkPc 0 defaultRTCConfig [1; 2]) /\
  localStreamRef before = Some mic /\
  liveTracks before = [1; 2] /\
  callState rejected
  = mkCallState None None (Some "bob") idle None (Some mic) /\
  pcRef rejected = pcRef before /\
  localStreamRef rejected = Some mic /\
  liveTracks rejected = [1; 2] /\
  log rejected = log before /\
  ended = cleanupWebRTCResources before /\
  callState ended = initialCallState /\
  pcRef ended = None /\
  localStreamRef ended = None /\
  liveTracks ended = [] /\
  log ended = TrackStop 2 :: TrackStop 1 :: PcClose 0 :: log before /\
  calls is_rest_call ended = calls is_rest_call before.
Proof. vm_compute. repeat split. Qed.

(** ** The ICE candidate queue *)

Lemma applied_emit (o : IceOrigin) (e : Effect) (w : World) :
  applied o (emit e w) = applied o w ++ picks o e.
Proof.
  unfold applied, history. simpl. rewrite flat_map_app. simpl.
  now rewrite app_nil_r.
Qed.

Lemma flush_loop_with_transport (q : list RTCIceCandidateInit) (w : World) (pc : RTCPeerConnection) :
  pcRef w = Some pc ->
  flush_loop q w
  = match q with
    | [] => (set_iceCandidateQueueRef [] w, false)
    | c :: rest =>
        (emit (PcAddIceCandidate (pcId pc) FromQueue c) (set_iceCandidateQueueRef rest w), true)
    end.
Proof. intro H. destruct q; simpl; [reflexivity | now rewrite H]. Qed.

(** One turn of the flush loop with a transport: the head of the queue moves
    to the applied candidates, nothing else of the ICE state changes. *)
Lemma flush_loop_turn (w : World) (pc : RTCPeerConnection) :
  pcRef w = Some pc ->
  let f := flush_loop (iceCandidateQueueRef w) w in
  pcRef (fst f) = Some pc /\
  remoteDescriptionSetRef (fst f) = remoteDescriptionSetRef w /\
  applied FromQueue (fst f) ++ iceCandidateQueueRef (fst f)
  = applied FromQueue w ++ iceCandidateQueueRef w /\
  applied Direct (fst f) = applied Direct w /\
  length (iceCandidateQueueRef (fst f)) = pred (length (iceCandidateQueueRef w)) /\
  (snd f = false -> iceCandidateQueueRef (fst f) = []).
Proof.
  intros H. cbv zeta. rewrite (flush_loop_with_transport _ _ pc H).
  destruct (iceCandidateQueueRef w) as [|c rest]; simpl.
  - repeat split; try assumption; reflexivity.
  - repeat split; try assumption; try discriminate.
    + rewrite applied_emit. simpl. rewrite <- app_assoc. reflexivity.
    + rewrite applied_emit. simpl. apply app_nil_r.
Qed.

(** ** The queue under any interleaving *)

Lemma ice_frame_refl (w : World) : ice_frame w w.
Proof. unfold ice_frame. repeat split; auto. Qed.

Lemma ice_frame_trans (w1 w2 w3 : World) :
  ice_frame w1 w2 -> ice_frame w2 w3 -> ice_frame w1 w3.
Proof.
  intros (F1 & Q1 & N1 & P1 & A1) (F2 & Q2 & N2 & P2 & A2). unfold ice_frame.
  rewrite F2, Q2, N2, P2. repeat split; try tauto. intro o. now rewrite A2.
Qed.

Lemma ice_frame_emit (e : Effect) (w : World) :
  (forall o, picks o e = []) -> ice_frame w (emit e w).
Proof.
  intro H. unfold ice_frame. repeat split; try (simpl; tauto).
  intro o. rewrite applied_emit, H. apply app_nil_r.
Qed.

Lemma ice_frame_setCallState (f : CallState -> CallState) (w : World) :
  ice_frame w (setCallState f w).
Proof. unfold ice_frame. repeat split; simpl; tauto. Qed.

Lemma ice_frame_socket_emit (sk : ChatSocket) (e : Effect) (w : World) :
  (forall o, picks o e = []) -> ice_frame w (socket_emit sk e w).
Proof.
  intro H. unfold socket_emit. destruct (socketConnected sk);
    [now apply ice_frame_emit | apply ice_frame_refl].
Qed.

Lemma ice_frame_pc_addTrack (t : Track) (w : World) : ice_frame w (pc_addTrack t w).
Proof.
  unfold pc_addTrack. destruct (pcRef w) eqn:E; [|apply ice_frame_refl].
  unfold ice_frame. repeat split; simpl; try tauto; try discriminate.
  - rewrite E. discriminate.
  - intro o. change (applied o (emit (PcAddTrack (pcId r) t) w) = applied o w).
    rewrite applied_emit. apply app_nil_r.
Qed.

Lemma ice_frame_fold {A} (f : World -> A -> World) (l : list A) (w : World) :
  (forall a w0, ice_frame w0 (f w0 a)) -> ice_frame w (fold_left f l w).
Proof.
  intro H. revert w. induction l as [|a l IH]; intro w; simpl.
  - apply ice_frame_refl.
  - eapply ice_frame_trans; [apply H | apply IH].
Qed.

Lemma ice_frame_getLocalStream_granted (stream : MediaStream) (w : World) :
  ice_frame w (getLocalStream_granted stream w).
Proof.
  unfold getLocalStream_granted.
  match goal with
  | |- ice_frame w (match ?o with Some _ => fold_left ?f ?l ?w3 | None => _ end) =>
      assert (H3 : ice_frame w w3) by (unfold ice_frame; repeat split; simpl; tauto);
      destruct o; [|exact H3];
      eapply ice_frame_trans; [exact H3 | apply ice_frame_fold]
  end.
  intros a w0. unfold attach_missing_track. destruct (pcRef w0); [|apply ice_frame_refl].
  destruct (alreadyAdded _ _); [apply ice_frame_refl | apply ice_frame_pc_addTrack].
Qed.

Lemma ice_frame_ensure_tracks_attached (w : World) : ice_frame w (ensure_tracks_attached w).
Proof.
  unfold ensure_tracks_attached. destruct (pcRef w) as [pc|]; [|apply ice_frame_refl].
  destruct (localStreamRef w); [|apply ice_frame_refl].
  apply ice_frame_fold. intros a w0. unfold attach_unless_in.
  destruct (alreadyAdded _ _); [apply ice_frame_refl | apply ice_frame_pc_addTrack].
Qed.

Lemma nextPcId_initPeerConnection (cfg : RTCConfiguration) (w : World) :
  nextPcId (initPeerConnection cfg w) = S (nextPcId w).
Proof.
  unfold initPeerConnection.
  match goal with
  | |- nextPcId (match ?o with Some s => fold_left ?f (getTracks s) ?w3 | None => _ end) = _ =>
      assert (H3 : nextPcId w3 = S (nextPcId w))
        by (simpl; destruct (pcRef w); reflexivity);
      destruct o as [s0|]; [|exact H3];
      rewrite <- H3;
      apply (ice_frame_fold f (getTracks s0) w3)
  end.
  intros a w0. apply ice_frame_pc_addTrack.
Qed.

Lemma same_transport_rebuilt (w w' : World) :
  nextPcId w' = S (nextPcId w) -> same_transport w w' = false.
Proof.
  intro H. unfold same_transport. rewrite H.
  replace (Nat.eqb (S (nextPcId w)) (nextPcId w)) with false; [reflexivity|].
  symmetry. apply Nat.eqb_neq. lia.
Qed.

Lemma same_transport_closed (w w' : World) :
  pcRef w' = None -> same_transport w w' = false.
Proof. intro H. unfold same_transport. rewrite H. apply andb_false_r. Qed.

Lemma benign_done (w w' : World) : ice_frame w w' -> benign w (done w').
Proof. intro H. split; [exact H | exact I]. Qed.

Lemma benign_await (w w' : World) (k : Cont) :
  ice_frame w w' -> flushing k = false -> benign w (await k w').
Proof. intros H Hk. split; assumption. Qed.

Lemma ice_frame_step_emit (e : Effect) (w w' : World) :
  (forall o, picks o e = []) -> ice_frame w w' -> ice_frame w (emit e w').
Proof. intros H F. eapply ice_frame_trans; [exact F | now apply ice_frame_emit]. Qed.

Lemma flush_pending_add (p : list Cont) (k : Cont) :
  flushing k = false -> existsb flushing (p ++ [k]) = existsb flushing p.
Proof. intro H. rewrite existsb_app. simpl. rewrite H. now rewrite !orb_false_r. Qed.

Lemma flush_pending_drop (p : list Cont) (n : nat) (k : Cont) :
  nth_error p n = Some k -> flushing k = false ->
  existsb flushing (drop_nth n p) = existsb flushing p.
Proof.
  revert n. induction p as [|a p IH]; intros n Hn Hk; destruct n; simpl in *;
    try discriminate.
  - injection Hn as ->. now rewrite Hk.
  - now rewrite (IH n Hn Hk).
Qed.

Lemma flush_pending_nth (p : list Cont) (n : nat) (k : Cont) :
  nth_error p n = Some k -> flushing k = true -> existsb flushing p = true.
Proof.
  intros Hn Hk. apply existsb_exists. exists k. split; [|exact Hk].
  eapply nth_error_In; eauto.
Qed.

(** An event that is not a candidate and whose handler is benign keeps the
    queue as it is. *)
Lemma benign_progress (e : Event) (s s' : Sys) :
  ice_consistent s ->
  arrivals [e] = [] ->
  applies_next s e = false ->
  ice_frame (world s) (world s') ->
  flush_pending s' = flush_pending s ->
  ice_consistent s' /\ ice_progress e s s'.
Proof.
  intros (Hpc & H2 & H3) Ha Hn (F & Q & N & P & A) Hp. split.
  - unfold ice_consistent. rewrite F, Q, Hp. repeat split; try assumption.
    intro H. apply Hpc. now apply P.
  - unfold ice_progress. cbv zeta. rewrite F, Q, !A, Ha, Hn, !app_nil_r, Nat.sub_0_r.
    destruct (remoteDescriptionSetRef (world s)); repeat split.
Qed.

Lemma benign_commit (e : Event) (s : Sys) (st : Step) :
  ice_consistent s ->
  arrivals [e] = [] ->
  applies_next s e = false ->
  benign (world s) st ->
  ice_consistent (commit s st) /\ ice_progress e s (commit s st).
Proof.
  intros Hc Ha Hn (F & Hk). apply benign_progress; try assumption.
  unfold flush_pending, commit. simpl. destruct (snd st); [|reflexivity].
  now apply flush_pending_add.
Qed.

Lemma benign_update (e : Event) (s : Sys) (w' : World) :
  ice_consistent s ->
  arrivals [e] = [] ->
  applies_next s e = false ->
  ice_frame (world s) w' ->
  ice_consistent (update s w') /\ ice_progress e s (update s w').
Proof. intros Hc Ha Hn F. now apply benign_progress. Qed.

(** The local actions and the socket handlers that start a negotiation. *)
Lemma handleEndCall_benign (env : Env) (w : World) :
  benign w (handleEndCall env w) \/ same_transport w (fst (handleEndCall env w)) = false.
Proof.
  assert (Hc : same_transport w (cleanupWebRTCResources w) = false).
  { apply same_transport_closed. apply cleanup_released. }
  unfold handleEndCall. destruct (callId (callStateRef w)) as [c|]; [|now right].
  destruct (_ && _); [|now right].
  left. apply benign_await; [|reflexivity]. now apply ice_frame_emit.
Qed.

Lemma initiateCallHandler_benign (env : Env) (receiver : string) (w : World) :
  benign w (initiateCallHandler env receiver w).
Proof.
  unfold initiateCallHandler. destruct (socket env); [|apply benign_done, ice_frame_refl].
  destruct (truthy _); [|apply benign_done, ice_frame_refl].
  apply benign_await; [|reflexivity]. apply ice_frame_step_emit; [reflexivity|].
  unfold ice_frame. repeat split; simpl; tauto.
Qed.

Lemma answerCallHandler_benign (env : Env) (cid : string) (w : World) :
  benign w (answerCallHandler env cid w).
Proof.
  unfold answerCallHandler. destruct (socket env); [|apply benign_done, ice_frame_refl].
  destruct (truthy _); [|apply benign_done, ice_frame_refl].
  apply benign_await; [|reflexivity]. apply ice_frame_step_emit; [reflexivity|].
  unfold ice_frame. repeat split; simpl; tauto.
Qed.

Lemma rejectCallHandler_benign (env : Env) (cid : string) (w : World) :
  benign w (rejectCallHandler env cid w).
Proof.
  unfold rejectCallHandler. destruct (truthy _); [|apply benign_done, ice_frame_refl].
  apply benign_await; [|reflexivity]. now apply ice_frame_emit.
Qed.

Lemma offer_setRemote_benign (d : OfferData) (w w' : World) :
  ice_frame w w' -> benign w (offer_setRemote d w').
Proof.
  intro F. unfold offer_setRemote. destruct (pcRef w'); [|now apply benign_done].
  apply benign_await; [|reflexivity]. now apply ice_frame_step_emit.
Qed.

Lemma handleWebRTCOffer_benign (env : Env) (d : OfferData) (w : World) :
  pcRef w <> None -> benign w (handleWebRTCOffer env d w).
Proof.
  intro H. unfold handleWebRTCOffer. destruct (pcRef w) eqn:E; [|contradiction].
  apply offer_setRemote_benign, ice_frame_refl.
Qed.

Lemma handleWebRTCAnswer_benign (d : AnswerData) (w : World) :
  benign w (handleWebRTCAnswer d w).
Proof.
  unfold handleWebRTCAnswer.
  destruct (opt_string_eqb _ _); [|apply benign_done, ice_frame_refl].
  destruct (pcRef w); [|apply benign_done, ice_frame_refl].
  apply benign_await; [|reflexivity]. now apply ice_frame_emit.
Qed.

Lemma handleCallInitiated_frame (cid receiver : string) (cfg : option RTCConfiguration)
    (w : World) :
  ice_frame w (handleCallInitiated cid receiver cfg w) \/
  same_transport w (handleCallInitiated cid receiver cfg w) = false.
Proof.
  unfold handleCallInitiated. destruct cfg; [right | left; apply ice_frame_setCallState].
  apply same_transport_rebuilt. now rewrite nextPcId_initPeerConnection.
Qed.

Lemma handleCallEnded_frame (cid endedBy : string) (w : World) :
  ice_frame w (handleCallEnded cid endedBy w) \/
  same_transport w (handleCallEnded cid endedBy w) = false.
Proof.
  unfold handleCallEnded. destruct (opt_string_eqb _ _); [right | left; apply ice_frame_refl].
  apply same_transport_closed. apply cleanup_released.
Qed.

Lemma pc_onicecandidate_frame (env : Env) (cand : option RTCIceCandidateInit) (w : World) :
  ice_frame w (pc_onicecandidate env cand w).
Proof.
  unfold pc_onicecandidate.
  destruct cand; [|apply ice_frame_refl]. destruct (socket env); [|apply ice_frame_refl].
  destruct (js_or _ _); [|apply ice_frame_refl].
  destruct (callId (callStateRef w)); [|apply ice_frame_refl].
  destruct (_ && _); [|apply ice_frame_refl].
  now apply ice_frame_socket_emit.
Qed.

Lemma initiate_createOffer_frame (id receiver : string) (w : World) :
  ice_frame w (fst (initiate_createOffer id receiver w)).
Proof.
  unfold initiate_createOffer. destruct (pcRef w); [|apply ice_frame_refl].
  now apply ice_frame_emit.
Qed.

Lemma nextPcId_emit (e : Effect) (w : World) : nextPcId (emit e w) = nextPcId w.
Proof. reflexivity. Qed.

Lemma ice_frame_nextPcId (w w' : World) : ice_frame w w' -> nextPcId w' = nextPcId w.
Proof. intros (_ & _ & N & _). exact N. Qed.

(** A continuation outside the flush loop, other than a resolved
    [setRemoteDescription], leaves the queue alone, or replaces or closes
    the transport. *)
Lemma resume_benign (env : Env) (k : Cont) (r : Result) (w : World) :
  flushing k = false ->
  awaits_remote_description k && match r with Resolved _ => true | Rejected => false end
  = false ->
  benign w (resume env k r w) \/ same_transport w (fst (resume env k r w)) = false.
Proof.
  intros Hf Ha.
  assert (Hfail : benign w (initiate_failed w))
    by (apply benign_done, ice_frame_setCallState).
  assert (Hsame : benign w (done w)) by (apply benign_done, ice_frame_refl).
  destruct k; simpl in *; try discriminate.
  - left. destruct r as [[| | |]|]; try exact Hfail.
    apply benign_await; [|reflexivity].
    apply ice_frame_step_emit; [reflexivity | apply ice_frame_setCallState].
  - destruct r as [[| |stream|]|]; try (left; exact Hfail).
    right. apply same_transport_rebuilt.
    rewrite (ice_frame_nextPcId _ _ (initiate_createOffer_frame _ _ _)).
    rewrite (ice_frame_nextPcId _ _ (ice_frame_ensure_tracks_attached _)).
    rewrite nextPcId_initPeerConnection.
    now rewrite (ice_frame_nextPcId _ _ (ice_frame_getLocalStream_granted _ _)).
  - left. destruct r as [[| | |offer]|]; try exact Hfail.
    destruct (pcRef w); [|exact Hfail].
    apply benign_await; [|reflexivity]. now apply ice_frame_emit.
  - left. destruct r; [|exact Hfail].
    destruct (socket env); [|exact Hsame].
    apply benign_done. now apply ice_frame_socket_emit.
  - destruct r as [[| |stream|]|]; try (left; exact Hsame).
    right. apply same_transport_rebuilt. unfold await, fst.
    rewrite nextPcId_emit.
    rewrite nextPcId_initPeerConnection.
    now rewrite (ice_frame_nextPcId _ _ (ice_frame_getLocalStream_granted _ _)).
  - left. destruct r; [|exact Hsame]. apply benign_done, ice_frame_setCallState.
  - left. destruct r; [|exact Hsame]. apply benign_done, ice_frame_setCallState.
  - right. apply same_transport_closed. apply cleanup_released.
  - left. destruct r as [[| |stream|]|]; try exact Hsame.
    apply offer_setRemote_benign, ice_frame_getLocalStream_granted.
  - left. destruct r; [discriminate | exact Hsame].
  - left. destruct r as [[| | |answer]|]; try exact Hsame.
    destruct (pcRef w); [|exact Hsame].
    apply benign_await; [|reflexivity]. now apply ice_frame_emit.
  - left. destruct r; [|exact Hsame].
    destruct (socket env); [|exact Hsame].
    apply benign_done.
    eapply ice_frame_trans; [|apply ice_frame_setCallState].
    now apply ice_frame_socket_emit.
  - left. destruct r; [discriminate | exact Hsame].
Qed.

Lemma offer_after_flush_once (d : OfferData) (w w1 : World) (pc : RTCPeerConnection) :
  pcRef w1 = Some pc ->
  remoteDescriptionSetRef w1 = true ->
  iceCandidateQueueRef w1 = iceCandidateQueueRef w ->
  (forall o, applied o w1 = applied o w) ->
  flushed_once w (offer_after_flush d (flush_loop (iceCandidateQueueRef w1) w1)).
Proof.
  intros Hpc Hflag Hq Ha.
  pose proof (flush_loop_turn w1 pc Hpc) as T. cbv zeta in T.
  destruct (flush_loop (iceCandidateQueueRef w1) w1) as [w' b].
  simpl in T. destruct T as (Tpc & Tflag & Tq & Td & Tlen & Tdone).
  rewrite Hflag in Tflag. rewrite !Ha, Hq in *.
  unfold flushed_once, offer_after_flush. simpl. destruct b; simpl.
  - rewrite Tpc. repeat split; try assumption; try easy. now left.
  - unfold offer_createAnswer. rewrite Tpc. simpl. rewrite Tpc, !applied_emit. simpl.
    rewrite !app_nil_r. repeat split; try assumption; try easy.
    right. now apply Tdone.
Qed.

Lemma answer_after_flush_once (d : AnswerData) (w w1 : World) (pc : RTCPeerConnection) :
  pcRef w1 = Some pc ->
  remoteDescriptionSetRef w1 = true ->
  iceCandidateQueueRef w1 = iceCandidateQueueRef w ->
  (forall o, applied o w1 = applied o w) ->
  flushed_once w (answer_after_flush d (flush_loop (iceCandidateQueueRef w1) w1)).
Proof.
  intros Hpc Hflag Hq Ha.
  pose proof (flush_loop_turn w1 pc Hpc) as T. cbv zeta in T.
  destruct (flush_loop (iceCandidateQueueRef w1) w1) as [w' b].
  simpl in T. destruct T as (Tpc & Tflag & Tq & Td & Tlen & Tdone).
  rewrite Hflag in Tflag. rewrite !Ha, Hq in *.
  unfold flushed_once, answer_after_flush. simpl. destruct b; simpl.
  - rewrite Tpc. repeat split; try assumption; try easy. now left.
  - rewrite Tpc. repeat split; try assumption; try easy. now apply Tdone.
Qed.

(** Resuming inside the flush loop, or at a resolved [setRemoteDescription],
    goes through the loop once. *)
Lemma resume_flushed_once (env : Env) (k : Cont) (r : Result) (w : World) :
  pcRef w <> None ->
  (flushing k = true /\ remoteDescriptionSetRef w = true) \/
  (awaits_remote_description k = true /\ exists v, r = Resolved v) ->
  flushed_once w (resume env k r w).
Proof.
  intros Hpc H. destruct (pcRef w) as [pc|] eqn:E; [clear Hpc | contradiction].
  destruct k; destruct H as [[Hk Hflag]|[Hk [v ->]]]; try discriminate; simpl.
  - unfold flushIceCandidateQueue. simpl. rewrite E.
    now apply (offer_after_flush_once d w (set_remoteDescriptionSetRef true w) pc).
  - unfold flush_resume. now apply (offer_after_flush_once d w w pc).
  - unfold flushIceCandidateQueue. simpl. rewrite E.
    now apply (answer_after_flush_once d w
                 (setCallState (status_if_current (answer_callId d) connected)
                    (set_remoteDescriptionSetRef true w)) pc).
  - unfold flush_resume. now apply (answer_after_flush_once d w w pc).
Qed.

Lemma world_commit (s : Sys) (st : Step) : world (commit s st) = fst st.
Proof. reflexivity. Qed.

Lemma world_update (s : Sys) (w : World) : world (update s w) = w.
Proof. reflexivity. Qed.

Lemma same_transport_pcRef (w w' : World) :
  same_transport w w' = true -> pcRef w' <> None.
Proof.
  unfold same_transport. intro H. apply andb_prop in H. destruct H as [_ H].
  destruct (pcRef w'); [discriminate | discriminate].
Qed.

(** An arriving candidate: queued while the flag is clear, applied from the
    direct call site once it is set. *)
Lemma arrival_progress (s : Sys) (cid sender : string) (cand : option RTCIceCandidateInit) :
  ice_consistent s ->
  let e := ICECandidate cid cand sender in
  let s' := update s (handleICECandidate cid cand sender (world s)) in
  ice_consistent s' /\ ice_progress e s s'.
Proof.
  intros Hc. cbv zeta. destruct cand as [c0|].
  - destruct Hc as (Hpc & H2 & H3).
    destruct (pcRef (world s)) as [pc|] eqn:E; [|contradiction].
    unfold handleICECandidate, ice_consistent, ice_progress, flush_pending. rewrite E.
    destruct (remoteDescriptionSetRef (world s)) eqn:F; simpl; rewrite E, F.
    + rewrite !applied_emit. simpl. rewrite !app_nil_r, Nat.sub_0_r.
      repeat split; try assumption; try easy.
    + repeat split; try assumption; try easy.
  - apply benign_update; try assumption; try reflexivity. apply ice_frame_refl.
Qed.

(** One event of a run that keeps the transport. *)
Lemma ice_step (env : Env) (s : Sys) (e : Event) :
  socket env <> None ->
  ice_consistent s ->
  same_transport (world s) (world (step env s e)) = true ->
  ice_consistent (step env s e) /\ ice_progress e s (step env s e).
Proof.
  intros Hsock Hc Hk.
  assert (Hpc : pcRef (world s) <> None) by apply Hc.
  destruct e; unfold step in *; cbv beta iota zeta in *;
    try (destruct (socket env) as [sk|]; [|contradiction]).
  - apply benign_commit; try assumption; try reflexivity.
    apply initiateCallHandler_benign.
  - apply benign_commit; try assumption; try reflexivity.
    apply answerCallHandler_benign.
  - apply benign_commit; try assumption; try reflexivity.
    apply rejectCallHandler_benign.
  - rewrite world_commit in Hk.
    destruct (handleEndCall_benign env (world s)) as [H|H]; [|congruence].
    now apply benign_commit.
  - apply benign_update; try assumption; try reflexivity.
    unfold handleCallIncoming. destruct rtcConfig;
      unfold ice_frame; repeat split; simpl; tauto.
  - rewrite world_update in Hk.
    destruct (handleCallInitiated_frame cid receiver rtcConfig (world s)) as [H|H];
      [|congruence].
    now apply benign_update.
  - apply benign_update; try assumption; try reflexivity. apply ice_frame_setCallState.
  - apply benign_update; try assumption; try reflexivity. apply ice_frame_setCallState.
  - apply benign_update; try assumption; try reflexivity. apply ice_frame_setCallState.
  - rewrite world_update in Hk.
    destruct (handleCallEnded_frame cid endedBy (world s)) as [H|H]; [|congruence].
    now apply benign_update.
  - apply benign_commit; try assumption; try reflexivity.
    now apply handleWebRTCOffer_benign.
  - apply benign_commit; try assumption; try reflexivity.
    apply handleWebRTCAnswer_benign.
  - now apply arrival_progress.
  - apply benign_update; try assumption; try reflexivity. apply ice_frame_setCallState.
  - apply benign_update; try assumption; try reflexivity. apply ice_frame_setCallState.
  - apply benign_update; try assumption; try reflexivity. apply pc_onicecandidate_frame.
  - rewrite world_commit in Hk. unfold pc_onconnectionstatechange in *.
    destruct st; try (apply benign_commit; try assumption; try reflexivity;
                      apply benign_done, ice_frame_refl).
    destruct (handleEndCall_benign env (world s)) as [H|H]; [|congruence].
    now apply benign_commit.
  - (* a promise settles *)
    destruct (nth_error (pending s) n) as [k|] eqn:Hn.
    2:{ apply benign_progress; try assumption; try reflexivity.
        - unfold applies_next. now rewrite Hn.
        - apply ice_frame_refl. }
    rewrite world_commit in Hk.
    destruct (flushing k) eqn:Hf.
    + (* inside the flush loop *)
      assert (Hflag : remoteDescriptionSetRef (world s) = true).
      { destruct (remoteDescriptionSetRef (world s)) eqn:F; [reflexivity|].
        destruct Hc as (_ & H2 & _). specialize (H2 F).
        unfold flush_pending in H2. rewrite (flush_pending_nth _ _ _ Hn Hf) in H2.
        discriminate. }
      pose proof (resume_flushed_once env k r (world s) Hpc (or_introl (conj Hf Hflag)))
        as (Tflag & Tpc & Tq & Td & Tlen & Tk).
      split.
      * unfold ice_consistent, flush_pending. rewrite world_commit, Tflag.
        split; [exact Tpc | split; [discriminate|]]. intros _ Hne.
        unfold commit. simpl. destruct (snd (resume env k r (world s))) as [k'|];
          [|contradiction].
        destruct Tk as [Tk|Tk]; [|contradiction].
        rewrite existsb_app. simpl. rewrite Tk. now rewrite orb_true_r.
      * unfold ice_progress. cbv zeta. rewrite world_commit, Hflag, Tflag, Tq, Td, Tlen.
        unfold applies_next. rewrite Hn, Hf. simpl. rewrite app_nil_r, Nat.sub_1_r.
        repeat split.
    + destruct (awaits_remote_description k &&
                match r with Resolved _ => true | Rejected => false end) eqn:Ha.
      * (* the remote description is applied *)
        apply andb_prop in Ha. destruct Ha as [Ha Hr].
        assert (Hv : exists v, r = Resolved v)
          by (destruct r as [v|]; [now exists v | discriminate]).
        pose proof (resume_flushed_once env k r (world s) Hpc (or_intror (conj Ha Hv)))
          as (Tflag & Tpc & Tq & Td & Tlen & Tk).
        split.
        -- unfold ice_consistent, flush_pending. rewrite world_commit, Tflag.
           split; [exact Tpc | split; [discriminate|]]. intros _ Hne.
           unfold commit. simpl. destruct (snd (resume env k r (world s))) as [k'|];
             [|contradiction].
           destruct Tk as [Tk|Tk]; [|contradiction].
           rewrite existsb_app. simpl. rewrite Tk. now rewrite orb_true_r.
        -- unfold ice_progress. cbv zeta. rewrite world_commit, Tflag, Tq, Td, Tlen.
           unfold applies_next. rewrite Hn, Hf, Ha, Hr. simpl.
           rewrite app_nil_r, Nat.sub_1_r.
           destruct (remoteDescriptionSetRef (world s)); repeat split.
      * (* any other continuation *)
        destruct (resume_benign env k r (world s) Hf Ha) as [(F & Hk')|H]; [|congruence].
        apply benign_progress; try assumption; try reflexivity.
        -- unfold applies_next. now rewrite Hn, Hf, Ha.
        -- unfold flush_pending, commit. simpl.
           destruct (snd (resume env k r (world s))) as [k'|].
           ++ rewrite flush_pending_add by assumption.
              now apply (flush_pending_drop _ _ k).
           ++ now apply (flush_pending_drop _ _ k).
  - apply benign_update; try assumption; try reflexivity.
    unfold render, ice_frame. repeat split; simpl; tauto.
Qed.

Lemma transport_kept_app (env : Env) (l1 l2 : list Event) (s : Sys) :
  transport_kept env s (l1 ++ l2)
  = transport_kept env s l1 && transport_kept env (run env s l1) l2.
Proof.
  revert s. induction l1 as [|e l1 IH]; intro s; simpl; [reflexivity|].
  rewrite IH. unfold run. simpl. now rewrite andb_assoc.
Qed.

(** Once set, the flag stays set while the transport is kept. *)
Lemma flag_stays_set (env : Env) (s : Sys) (e : Event) :
  socket env <> None ->
  ice_consistent s ->
  same_transport (world s) (world (step env s e)) = true ->
  remoteDescriptionSetRef (world s) = true ->
  remoteDescriptionSetRef (world (step env s e)) = true.
Proof.
  intros Hsock Hc Hk Hflag.
  destruct (ice_step env s e Hsock Hc Hk) as (_ & Hp).
  unfold ice_progress in Hp. cbv zeta in Hp. rewrite Hflag in Hp.
  destruct (remoteDescriptionSetRef (world (step env s e))); [reflexivity | contradiction].
Qed.

(** While the flag is clear, arriving candidates are queued and none is
    applied. *)
Lemma run_before_description (env : Env) (evs : list Event) (s : Sys) :
  socket env <> None ->
  ice_consistent s ->
  transport_kept env s evs = true ->
  remoteDescriptionSetRef (world (run env s evs)) = false ->
  ice_consistent (run env s evs) /\
  remoteDescriptionSetRef (world s) = false /\
  applied FromQueue (world (run env s evs)) = applied FromQueue (world s) /\
  applied Direct (world (run env s evs)) = applied Direct (world s) /\
  iceCandidateQueueRef (world (run env s evs)) = iceCandidateQueueRef (world s) ++ arrivals evs.
Proof.
  intros Hsock. revert s. induction evs as [|e evs IH]; intros s Hc Hk Hflag.
  - simpl in *. rewrite app_nil_r. split; [exact Hc | repeat split; assumption].
  - simpl in Hk. apply andb_prop in Hk. destruct Hk as [Hk1 Hk2].
    change (run env s (e :: evs)) with (run env (step env s e) evs) in *.
    destruct (ice_step env s e Hsock Hc Hk1) as (Hc1 & Hp).
    destruct (IH (step env s e) Hc1 Hk2 Hflag) as (Hc2 & Hf1 & HFQ & HD & HQ).
    unfold ice_progress in Hp. cbv zeta in Hp. rewrite Hf1 in Hp.
    destruct (remoteDescriptionSetRef (world s)); [contradiction|].
    destruct Hp as (PFQ & PD & PQ).
    rewrite HFQ, HD, HQ, PFQ, PD, PQ.
    split; [exact Hc2 | repeat split].
    rewrite <- app_assoc. f_equal. unfold arrivals. simpl. now rewrite app_nil_r.
Qed.

(** Once the flag is set, the candidates applied from the queue followed by
    those still queued do not change, arriving candidates are applied from the
    direct call site, and every turn of the flush loop shortens the queue by
    one. *)
Lemma run_after_description (env : Env) (evs : list Event) (s : Sys) :
  socket env <> None ->
  ice_consistent s ->
  transport_kept env s evs = true ->
  remoteDescriptionSetRef (world s) = true ->
  ice_consistent (run env s evs) /\
  remoteDescriptionSetRef (world (run env s evs)) = true /\
  applied FromQueue (world (run env s evs)) ++ iceCandidateQueueRef (world (run env s evs))
  = applied FromQueue (world s) ++ iceCandidateQueueRef (world s) /\
  applied Direct (world (run env s evs)) = applied Direct (world s) ++ arrivals evs /\
  length (iceCandidateQueueRef (world (run env s evs)))
  = length (iceCandidateQueueRef (world s)) - turns env s evs.
Proof.
  intros Hsock. revert s. induction evs as [|e evs IH]; intros s Hc Hk Hflag.
  - simpl. rewrite app_nil_r, Nat.sub_0_r. split; [exact Hc | repeat split; assumption].
  - simpl in Hk. apply andb_prop in Hk. destruct Hk as [Hk1 Hk2].
    change (run env s (e :: evs)) with (run env (step env s e) evs).
    destruct (ice_step env s e Hsock Hc Hk1) as (Hc1 & Hp).
    pose proof (flag_stays_set env s e Hsock Hc Hk1 Hflag) as Hflag1.
    destruct (IH (step env s e) Hc1 Hk2 Hflag1) as (Hc2 & Hf2 & HQ & HD & HL).
    unfold ice_progress in Hp. cbv zeta in Hp. rewrite Hflag, Hflag1 in Hp.
    destruct Hp as (PQ & PD & PL).
    rewrite HQ, HD, HL, PQ, PD, PL.
    split; [exact Hc2 | split; [exact Hf2 | split; [reflexivity | split]]].
    + rewrite <- app_assoc. f_equal. unfold arrivals. simpl. now rewrite app_nil_r.
    + simpl. lia.
Qed.




(** * Further properties of the hook *)

(** ** What every state satisfies *)

Lemma commit_same (s : Sys) : commit s (done (world s)) = s.
Proof. destruct s; reflexivity. Qed.

Lemma tame_with_status (s : Status) : s <> ended -> tame (with_status s).
Proof. intros H c. split; [reflexivity | intros _; exact H]. Qed.

Lemma tame_status_if_current (cid : string) (s : Status) :
  s <> ended -> tame (status_if_current cid s).
Proof.
  intros H c. unfold status_if_current. destruct (opt_string_eqb _ _); split;
    try reflexivity; try (intros _; exact H); auto.
Qed.

Lemma hc_setCallState (f : CallState -> CallState) (w : World) :
  tame f -> hook_consistent w -> hook_consistent (setCallState f w).
Proof.
  intros T (H1 & H2 & H3). destruct (T (callState w)) as [T1 T2].
  unfold hook_consistent. simpl. rewrite T1. auto.
Qed.

Lemma hc_emit (e : Effect) (w : World) : hook_consistent w -> hook_consistent (emit e w).
Proof. intro H. exact H. Qed.

Lemma hc_socket_emit (sk : ChatSocket) (e : Effect) (w : World) :
  hook_consistent w -> hook_consistent (socket_emit sk e w).
Proof. intro H. unfold socket_emit. destruct (socketConnected sk); exact H. Qed.

Lemma hc_set_isCallerRef (b : bool) (w : World) :
  hook_consistent w -> hook_consistent (set_isCallerRef b w).
Proof. intro H. exact H. Qed.

Lemma hc_set_rtcConfigRef (c : option RTCConfiguration) (w : World) :
  hook_consistent w -> hook_consistent (set_rtcConfigRef c w).
Proof. intro H. exact H. Qed.

Lemma hc_set_flag (b : bool) (w : World) :
  hook_consistent w -> hook_consistent (set_remoteDescriptionSetRef b w).
Proof. intro H. exact H. Qed.

Lemma hc_render (w : World) : hook_consistent w -> hook_consistent (render w).
Proof. intro H. exact H. Qed.

Lemma hc_pc_addTrack (t : Track) (w : World) :
  hook_consistent w -> hook_consistent (pc_addTrack t w).
Proof.
  intros H. unfold pc_addTrack. destruct (pcRef w) eqn:E; [|exact H].
  destruct H as (H1 & H2 & H3).
  unfold hook_consistent. simpl. repeat split; try assumption. discriminate.
Qed.

Lemma hc_fold {A} (f : World -> A -> World) (l : list A) (w : World) :
  (forall a w0, hook_consistent w0 -> hook_consistent (f w0 a)) ->
  hook_consistent w -> hook_consistent (fold_left f l w).
Proof.
  intro H. revert w. induction l as [|a l IH]; intros w Hw; simpl; auto.
Qed.

Lemma hc_initPeerConnection (cfg : RTCConfiguration) (w : World) :
  hook_consistent w -> hook_consistent (initPeerConnection cfg w).
Proof.
  intros H. unfold initPeerConnection.
  match goal with
  | |- hook_consistent (match ?o with Some s => fold_left ?f (getTracks s) ?w3 | None => _ end) =>
      assert (Hc : hook_consistent w3);
      [| destruct o; [apply hc_fold; [|exact Hc] | exact Hc] ]
  end.
  - destruct H as (H1 & H2 & H3). unfold hook_consistent. simpl.
    destruct (pcRef w); simpl; repeat split; try assumption; discriminate.
  - intros a w0. apply hc_pc_addTrack.
Qed.

Lemma hc_getLocalStream_granted (stream : MediaStream) (w : World) :
  hook_consistent w -> hook_consistent (getLocalStream_granted stream w).
Proof.
  intros (H1 & H2 & H3). unfold getLocalStream_granted.
  match goal with
  | |- hook_consistent (match ?o with Some _ => fold_left ?f ?l ?w3 | None => _ end) =>
      assert (Hc : hook_consistent w3)
        by (unfold hook_consistent; simpl; repeat split; assumption);
      destruct o; [apply hc_fold; [|exact Hc] | exact Hc]
  end.
  intros a w0 Hw. unfold attach_missing_track. destruct (pcRef w0); [|exact Hw].
  destruct (alreadyAdded _ _); [exact Hw | now apply hc_pc_addTrack].
Qed.

Lemma hc_ensure_tracks_attached (w : World) :
  hook_consistent w -> hook_consistent (ensure_tracks_attached w).
Proof.
  intro H. unfold ensure_tracks_attached. destruct (pcRef w) as [pc|]; [|exact H].
  destruct (localStreamRef w); [|exact H].
  apply hc_fold; [|exact H]. intros a w0 Hw. unfold attach_unless_in.
  destruct (alreadyAdded _ _); [exact Hw | now apply hc_pc_addTrack].
Qed.

Lemma hc_cleanup (w : World) : hook_consistent (cleanupWebRTCResources w).
Proof.
  destruct (cleanup_released w) as (Hc & Hp & Hl & _ & Hq & _).
  unfold hook_consistent. rewrite Hc, Hl, Hq. repeat split. discriminate.
Qed.

Lemma hc_flush_loop (q : list RTCIceCandidateInit) (w : World) :
  hook_consistent w -> hook_consistent (fst (flush_loop q w)).
Proof.
  intros H. induction q as [|c q IH]; simpl.
  - destruct H as (H1 & H2 & H3). unfold hook_consistent. simpl. repeat split; assumption.
  - destruct (pcRef w) eqn:E; [|exact IH].
    destruct H as (H1 & H2 & H3).
    unfold hook_consistent. simpl. rewrite E. repeat split; try assumption. discriminate.
Qed.

Lemma hc_flushIceCandidateQueue (w : World) :
  hook_consistent w -> hook_consistent (fst (flushIceCandidateQueue w)).
Proof.
  intro H. unfold flushIceCandidateQueue. destruct (pcRef w); [|exact H].
  destruct (remoteDescriptionSetRef w); [|exact H]. now apply hc_flush_loop.
Qed.

Lemma hc_handleICECandidate (cid sender : string) (cand : option RTCIceCandidateInit)
    (w : World) :
  hook_consistent w -> hook_consistent (handleICECandidate cid cand sender w).
Proof.
  intros H. unfold handleICECandidate.
  destruct cand; [|exact H].
  destruct (pcRef w) eqn:E; [|exact H].
  destruct H as (H1 & H2 & H3).
  destruct (remoteDescriptionSetRef w); unfold hook_consistent; simpl; rewrite E;
    repeat split; try assumption; discriminate.
Qed.

Lemma tame_incoming (cid caller : string) :
  tame (fun prev => with_status ringing (with_callerId (Some caller) (with_callId (Some cid) prev))).
Proof. intro c. split; [reflexivity | discriminate]. Qed.

Lemma tame_initiated (cid receiver : string) :
  tame (fun prev => with_receiverId (Some receiver) (with_callId (Some cid) prev)).
Proof. intro c. split; [reflexivity | auto]. Qed.

Lemma tame_rejected : tame (fun prev => with_callId None (with_status idle prev)).
Proof. intro c. split; [reflexivity | discriminate]. Qed.

Lemma tame_ringing (id receiver : string) :
  tame (fun prev => with_status ringing
                      (with_receiverId (Some receiver) (with_callId (Some id) prev))).
Proof. intro c. split; [reflexivity | discriminate]. Qed.

Lemma tame_answered (cid : string) :
  tame (fun prev => with_status answered (with_callId (Some cid) prev)).
Proof. intro c. split; [reflexivity | discriminate]. Qed.

Lemma tame_remoteStream (s : option MediaStream) : tame (with_remoteStream s).
Proof. intro c. split; [reflexivity | auto]. Qed.

Lemma hc_handleEndCall (env : Env) (w : World) :
  hook_consistent w -> hook_consistent (fst (handleEndCall env w)).
Proof.
  intro H. unfold handleEndCall. destruct (callId (callStateRef w)); [|apply hc_cleanup].
  destruct (_ && _); [exact H | apply hc_cleanup].
Qed.

Lemma hc_offer_setRemote (d : OfferData) (w : World) :
  hook_consistent w -> hook_consistent (fst (offer_setRemote d w)).
Proof. intro H. unfold offer_setRemote. destruct (pcRef w); exact H. Qed.

Lemma hc_offer_after_flush (d : OfferData) (f : World * bool) :
  hook_consistent (fst f) -> hook_consistent (fst (offer_after_flush d f)).
Proof.
  intro H. unfold offer_after_flush, offer_createAnswer.
  destruct (snd f); [exact H|]. destruct (pcRef (fst f)); exact H.
Qed.

Lemma hc_answer_after_flush (d : AnswerData) (f : World * bool) :
  hook_consistent (fst f) -> hook_consistent (fst (answer_after_flush d f)).
Proof. intro H. unfold answer_after_flush. destruct (snd f); exact H. Qed.

Lemma hc_initiate_createOffer (id receiver : string) (w : World) :
  hook_consistent w -> hook_consistent (fst (initiate_createOffer id receiver w)).
Proof. intro H. unfold initiate_createOffer. destruct (pcRef w); exact H. Qed.

Lemma hc_resume (env : Env) (k : Cont) (r : Result) (w : World) :
  hook_consistent w -> hook_consistent (fst (resume env k r w)).
Proof.
  intro H.
  assert (Hidle : hook_consistent (setCallState (with_status idle) w))
    by (apply hc_setCallState; [apply tame_with_status; discriminate | exact H]).
  destruct k; simpl.
  - destruct r as [[| | |]|]; try exact Hidle. unfold await, fst.
    apply hc_emit, hc_setCallState; [apply tame_ringing | exact H].
  - destruct r as [[| |stream|]|]; try exact Hidle.
    apply hc_initiate_createOffer, hc_ensure_tracks_attached, hc_initPeerConnection,
      hc_getLocalStream_granted, H.
  - destruct r as [[| | |]|]; try exact Hidle. destruct (pcRef w); [exact H | exact Hidle].
  - destruct r; [|exact Hidle]. destruct (socket env); [|exact H].
    apply hc_socket_emit, H.
  - destruct r as [[| |stream|]|]; try exact H. unfold await, fst.
    apply hc_emit, hc_initPeerConnection, hc_getLocalStream_granted, H.
  - destruct r; [|exact H]. apply hc_setCallState; [apply tame_answered | exact H].
  - destruct r; [|exact H]. apply hc_setCallState; [apply tame_rejected | exact H].
  - apply hc_cleanup.
  - destruct r as [[| |stream|]|]; try exact H.
    apply hc_offer_setRemote, hc_getLocalStream_granted, H.
  - destruct r; [|exact H].
    apply hc_offer_after_flush, hc_flushIceCandidateQueue, hc_set_flag, H.
  - unfold flush_resume. apply hc_offer_after_flush, hc_flush_loop, H.
  - destruct r as [[| | |]|]; try exact H. destruct (pcRef w); exact H.
  - destruct r; [|exact H]. destruct (socket env); [|exact H].
    apply hc_setCallState; [apply tame_status_if_current; discriminate|].
    apply hc_socket_emit, H.
  - destruct r; [|exact H]. apply hc_answer_after_flush, hc_flushIceCandidateQueue.
    apply hc_setCallState; [apply tame_status_if_current; discriminate|].
    apply hc_set_flag, H.
  - unfold flush_resume. apply hc_answer_after_flush, hc_flush_loop, H.
Qed.

Lemma hc_step (env : Env) (s : Sys) (e : Event) :
  hook_consistent (world s) -> hook_consistent (world (step env s e)).
Proof.
  intro H.
  destruct e; unfold step; cbv beta iota zeta;
    try (destruct (socket env) as [sk|] eqn:Hs; [|exact H]);
    try rewrite world_commit; try rewrite world_update.
  - unfold initiateCallHandler. destruct (socket env); [|exact H].
    destruct (truthy _); exact H.
  - unfold answerCallHandler. destruct (socket env); [|exact H].
    destruct (truthy _); exact H.
  - unfold rejectCallHandler. destruct (truthy _); exact H.
  - apply hc_handleEndCall, H.
  - unfold handleCallIncoming. destruct rtcConfig;
      [apply hc_set_rtcConfigRef|]; (apply hc_setCallState; [apply tame_incoming | exact H]).
  - unfold handleCallInitiated. destruct rtcConfig;
      [apply hc_initPeerConnection, hc_set_rtcConfigRef|];
      (apply hc_setCallState; [apply tame_initiated | exact H]).
  - unfold handleCallAnswered. apply hc_setCallState; [|exact H].
    apply tame_status_if_current. discriminate.
  - unfold handleCallConnected. apply hc_setCallState; [|exact H].
    apply tame_with_status. discriminate.
  - unfold handleCallRejected. apply hc_setCallState; [apply tame_rejected | exact H].
  - unfold handleCallEnded. destruct (opt_string_eqb _ _); [apply hc_cleanup | exact H].
  - unfold handleWebRTCOffer. destruct (pcRef (world s)); [apply hc_offer_setRemote, H|].
    destruct (localStream _).
    + apply hc_offer_setRemote, hc_initPeerConnection, H.
    + unfold await, fst. apply hc_emit, hc_initPeerConnection, H.
  - unfold handleWebRTCAnswer. destruct (opt_string_eqb _ _); [|exact H].
    destruct (pcRef (world s)); exact H.
  - apply hc_handleICECandidate, H.
  - unfold handleCallError. apply hc_setCallState; [|exact H].
    apply tame_with_status. discriminate.
  - unfold pc_ontrack. apply hc_setCallState; [apply tame_remoteStream | exact H].
  - unfold pc_onicecandidate. destruct cand; [|exact H]. destruct (socket env); [|exact H].
    destruct (js_or _ _); [|exact H]. destruct (callId _); [|exact H].
    destruct (_ && _); [apply hc_socket_emit, H | exact H].
  - unfold pc_onconnectionstatechange. destruct st; try exact H. apply hc_handleEndCall, H.
  - destruct (nth_error (pending s) n); [|exact H]. rewrite world_commit.
    now apply hc_resume.
  - exact H.
Qed.

Lemma hc_run (env : Env) (evs : list Event) (s : Sys) :
  hook_consistent (world s) -> hook_consistent (world (run env s evs)).
Proof.
  revert s. induction evs as [|e evs IH]; intros s H; [exact H|].
  apply (IH (step env s e)). now apply hc_step.
Qed.

Lemma hc_initial : hook_consistent initialWorld.
Proof. split; [discriminate | split; [reflexivity | reflexivity]]. Qed.

(** X1: whatever events reach the hook after mount, the status it publishes is
    never ['ended']: the value is in the [CallState] type but no handler
    writes it. *)
Theorem status_never_ended (env : Env) (evs : list Event) :
  status (callState (world (run env initialSys evs))) <> ended.
Proof. apply (hc_run env evs initialSys hc_initial). Qed.

(** X2: whatever events reach the hook after mount, the stream published in
    [callState.localStream] is the stream held in [localStreamRef]: the one
    whose tracks [cleanupWebRTCResources] will stop. *)
Theorem published_stream_is_held_stream (env : Env) (evs : list Event) :
  localStream (callState (world (run env initialSys evs)))
  = localStreamRef (world (run env initialSys evs)).
Proof. apply (hc_run env evs initialSys hc_initial). Qed.

(** X3: whatever events reach the hook after mount, the candidate queue is
    empty whenever there is no peer connection. *)
Theorem no_candidate_queued_without_transport (env : Env) (evs : list Event) :
  pcRef (world (run env initialSys evs)) = None ->
  iceCandidateQueueRef (world (run env initialSys evs)) = [].
Proof. apply (hc_run env evs initialSys hc_initial). Qed.

Lemma no_candidate_queued_without_transport_witness :
  pcRef (world (run alice_env initialSys
                  [CallIncoming "c1" "alice" None;
                   ICECandidate "c1" (Some cand_a) "alice"])) = None /\
  iceCandidateQueueRef (world (run alice_env initialSys
                                 [CallIncoming "c1" "alice" None;
                                  ICECandidate "c1" (Some cand_a) "alice"])) = [].
Proof.
  assert (H : pcRef (world (run alice_env initialSys
                              [CallIncoming "c1" "alice" None;
                               ICECandidate "c1" (Some cand_a) "alice"])) = None)
    by (vm_compute; reflexivity).
  split; [exact H|].
  apply (no_candidate_queued_without_transport alice_env
           [CallIncoming "c1" "alice" None; ICECandidate "c1" (Some cand_a) "alice"] H).
Defined.

(** ** Building and tearing down the transport *)

Lemma fold_pc_addTrack (ts : list Track) (w : World) (pc : RTCPeerConnection) :
  pcRef w = Some pc ->
  let w' := fold_left (fun acc t => pc_addTrack t acc) ts w in
  pcRef w' = Some (mkPc (pcId pc) (pcConfig pc) (getSenders pc ++ ts)) /\
  log w' = rev (map (PcAddTrack (pcId pc)) ts) ++ log w /\
  callState w' = callState w /\
  localStreamRef w' = localStreamRef w /\
  rtcConfigRef w' = rtcConfigRef w /\
  iceCandidateQueueRef w' = iceCandidateQueueRef w /\
  remoteDescriptionSetRef w' = remoteDescriptionSetRef w /\
  nextPcId w' = nextPcId w /\
  liveTracks w' = liveTracks w.
Proof.
  revert w pc. induction ts as [|t ts IH]; intros w pc E; cbv zeta; simpl.
  - rewrite app_nil_r. destruct pc. repeat split; assumption.
  - assert (E1 : pcRef (pc_addTrack t w)
                 = Some (mkPc (pcId pc) (pcConfig pc) (getSenders pc ++ [t])))
      by (unfold pc_addTrack; rewrite E; reflexivity).
    destruct (IH (pc_addTrack t w) _ E1) as (Hp & Hl & Hc & Hs & Hr & Hq & Hf & Hn & Hv).
    cbv zeta in *. simpl in *. rewrite Hp, Hl, Hc, Hs, Hr, Hq, Hf, Hn, Hv.
    unfold pc_addTrack. rewrite E. simpl. rewrite <- !app_assoc. simpl.
    repeat split.
Qed.

Lemma initPeerConnection_eq (cfg : RTCConfiguration) (w : World) :
  initPeerConnection cfg w
  = fold_left (fun acc t => pc_addTrack t acc) (stored_tracks w) (with_new_connection cfg w).
Proof.
  unfold initPeerConnection, stored_tracks, with_new_connection.
  destruct w as [cs csr pc ls ic rc q f n lv lg]. simpl.
  destruct pc, ls; reflexivity.
Qed.

Lemma initPeerConnection_cells (cfg : RTCConfiguration) (w : World) :
  let w' := initPeerConnection cfg w in
  pcRef w' = Some (mkPc (nextPcId w) cfg (stored_tracks w)) /\
  iceCandidateQueueRef w' = [] /\
  remoteDescriptionSetRef w' = false /\
  nextPcId w' = S (nextPcId w) /\
  callState w' = callState w /\
  localStreamRef w' = localStreamRef w /\
  log w' = rev (map (PcAddTrack (nextPcId w)) (stored_tracks w))
           ++ PcNew (nextPcId w) cfg
           :: match pcRef w with Some old => [PcClose (pcId old)] | None => [] end
           ++ log w.
Proof.
  cbv zeta. rewrite initPeerConnection_eq.
  destruct (fold_pc_addTrack (stored_tracks w) (with_new_connection cfg w) _ eq_refl)
    as (Hp & Hl & Hc & Hs & Hr & Hq & Hf & Hn & Hv).
  cbv zeta in *. simpl in *. rewrite Hp, Hl, Hc, Hs, Hq, Hf, Hn. repeat split.
Qed.

(** X4: [initPeerConnection] closes the previous connection when there is one,
    empties the candidate queue, clears the remote-description flag and puts
    in place a new connection with the given configuration whose senders are
    the tracks of the stored capture stream, each attached once, in order;
    the call state and the stream are not touched. *)
Theorem initPeerConnection_fresh_transport (cfg : RTCConfiguration) (w : World) :
  let w' := initPeerConnection cfg w in
  pcRef w' = Some (mkPc (nextPcId w) cfg (stored_tracks w)) /\
  iceCandidateQueueRef w' = [] /\
  remoteDescriptionSetRef w' = false /\
  nextPcId w' = S (nextPcId w) /\
  callState w' = callState w /\
  localStreamRef w' = localStreamRef w /\
  log w' = rev (map (PcAddTrack (nextPcId w)) (stored_tracks w))
           ++ PcNew (nextPcId w) cfg
           :: match pcRef w with Some old => [PcClose (pcId old)] | None => [] end
           ++ log w.
Proof. exact (initPeerConnection_cells cfg w). Qed.

Lemma alreadyAdded_In (ts : list Track) (t : Track) : In t ts -> alreadyAdded ts t = true.
Proof.
  intro H. unfold alreadyAdded. apply existsb_exists. exists t. split; [exact H|].
  apply Nat.eqb_refl.
Qed.

Lemma fold_attach_unless_in_noop (senders ts : list Track) (w : World) :
  (forall t, In t ts -> In t senders) ->
  fold_left (attach_unless_in senders) ts w = w.
Proof.
  revert w. induction ts as [|t ts IH]; intros w H; simpl; [reflexivity|].
  unfold attach_unless_in at 2. rewrite alreadyAdded_In by (apply H; now left).
  apply IH. intros t0 Ht0. apply H. now right.
Qed.

Lemma getLocalStream_granted_cells (stream : MediaStream) (w : World) :
  let w' := getLocalStream_granted stream w in
  localStreamRef w' = Some stream /\
  nextPcId w' = nextPcId w /\
  rtcConfigRef w' = rtcConfigRef w.
Proof.
  cbv zeta. unfold getLocalStream_granted.
  match goal with
  | |- context [match ?o with Some _ => fold_left ?f ?l ?w3 | None => _ end] =>
      assert (H : forall l0 w0, localStreamRef (fold_left f l0 w0) = localStreamRef w0 /\
                                nextPcId (fold_left f l0 w0) = nextPcId w0 /\
                                rtcConfigRef (fold_left f l0 w0) = rtcConfigRef w0);
      [| destruct o; [destruct (H l w3) as (H1 & H2 & H3); rewrite H1, H2, H3|];
         repeat split ]
  end.
  induction l0 as [|a l0 IH]; intro w0; simpl; [repeat split|].
  destruct (IH (attach_missing_track w0 a)) as (H1 & H2 & H3). rewrite H1, H2, H3.
  unfold attach_missing_track. destruct (pcRef w0) eqn:E; [|repeat split].
  destruct (alreadyAdded _ _); [repeat split|].
  unfold pc_addTrack. rewrite E. repeat split.
Qed.

Lemma resume_initiate_media (env : Env) (id receiver : string) (stream : MediaStream)
    (w : World) :
  resume env (KInitiate_media id receiver) (Resolved (VStream stream)) w
  = initiate_createOffer id receiver
      (ensure_tracks_attached
         (initPeerConnection defaultRTCConfig (getLocalStream_granted stream w))).
Proof. cbv beta iota zeta delta [resume]. reflexivity. Qed.

Lemma resume_answer_media (env : Env) (cid : string) (stream : MediaStream) (w : World) :
  pcRef (fst (resume env (KAnswer_media cid) (Resolved (VStream stream)) w))
  = pcRef (initPeerConnection
             match rtcConfigRef (getLocalStream_granted stream w) with
             | Some cfg => cfg
             | None => defaultRTCConfig
             end
             (getLocalStream_granted stream w)).
Proof. cbv beta iota zeta delta [resume await fst emit pcRef]. reflexivity. Qed.

Lemma pcRef_initiate_createOffer (id receiver : string) (w : World) :
  pcRef (fst (initiate_createOffer id receiver w)) = pcRef w.
Proof. unfold initiate_createOffer. destruct (pcRef w) eqn:E; simpl; now rewrite ?E. Qed.

(** X5: when the microphone is granted during an initiate or an answer, the
    connection that is built sends exactly the tracks of the granted stream,
    each once and in order, although three places of the hook attach tracks
    ([getLocalStream], [initPeerConnection] and the loop before [createOffer]):
    that last loop finds every track attached and adds none.  The initiate
    uses the default configuration, the answer the stored one when there is
    one. *)
Theorem granted_tracks_attached_once (env : Env) (w : World) (stream : MediaStream)
    (id receiver : string) :
  let built := initPeerConnection defaultRTCConfig (getLocalStream_granted stream w) in
  ensure_tracks_attached built = built /\
  pcRef (fst (resume env (KInitiate_media id receiver) (Resolved (VStream stream)) w))
  = Some (mkPc (nextPcId w) defaultRTCConfig (getTracks stream)) /\
  pcRef (fst (resume env (KAnswer_media id) (Resolved (VStream stream)) w))
  = Some (mkPc (nextPcId w)
            match rtcConfigRef w with Some cfg => cfg | None => defaultRTCConfig end
            (getTracks stream)).
Proof.
  cbv zeta.
  destruct (getLocalStream_granted_cells stream w) as (Hs & Hn & Hr). cbv zeta in *.
  destruct (initPeerConnection_cells defaultRTCConfig
              (getLocalStream_granted stream w)) as (Hp & _ & _ & _ & _ & Hl & _).
  cbv zeta in *. unfold stored_tracks in Hp. rewrite Hs, Hn in Hp. rewrite Hs in Hl.
  assert (He : ensure_tracks_attached
                 (initPeerConnection defaultRTCConfig (getLocalStream_granted stream w))
               = initPeerConnection defaultRTCConfig (getLocalStream_granted stream w)).
  { unfold ensure_tracks_attached. rewrite Hp, Hl. simpl.
    apply fold_attach_unless_in_noop. auto. }
  split; [exact He|]. split.
  - rewrite resume_initiate_media, He, pcRef_initiate_createOffer. exact Hp.
  - rewrite resume_answer_media, Hr.
    destruct (initPeerConnection_cells
                match rtcConfigRef w with Some cfg => cfg | None => defaultRTCConfig end
                (getLocalStream_granted stream w)) as (Hp' & _).
    cbv zeta in *. unfold stored_tracks in Hp'. rewrite Hs, Hn in Hp'. exact Hp'.
Qed.

Lemma fold_stop_track_log (ts : list Track) (w : World) :
  log (fold_left stop_track ts w) = rev (map TrackStop ts) ++ log w.
Proof.
  revert w. induction ts as [|t ts IH]; intro w; simpl; [reflexivity|].
  rewrite IH. simpl. now rewrite <- app_assoc.
Qed.

Lemma log_cleanupWebRTCResources (w : World) :
  log (cleanupWebRTCResources w)
  = rev (map TrackStop (stored_tracks w))
    ++ match pcRef w with Some pc => [PcClose (pcId pc)] | None => [] end
    ++ log w.
Proof.
  unfold cleanupWebRTCResources, stored_tracks.
  change (log (stop_capture (close_transport w)) =
          rev (map TrackStop match localStreamRef w with Some s => getTracks s | None => [] end)
          ++ match pcRef w with Some pc => [PcClose (pcId pc)] | None => [] end ++ log w).
  destruct (close_transport_spec w) as (_ & Hl & _).
  assert (Hc : log (close_transport w)
               = match pcRef w with Some pc => [PcClose (pcId pc)] | None => [] end ++ log w)
    by (unfold close_transport; destruct (pcRef w); reflexivity).
  unfold stop_capture. rewrite Hl. destruct (localStreamRef w) as [s|].
  - change (log (fold_left stop_track (getTracks s) (close_transport w)) =
            rev (map TrackStop (getTracks s))
            ++ match pcRef w with Some pc => [PcClose (pcId pc)] | None => [] end ++ log w).
    now rewrite fold_stop_track_log, Hc.
  - exact Hc.
Qed.

(** X7: [cleanupWebRTCResources] makes exactly these calls, in this order:
    [close] on the peer connection when there is one, then [stop] on each
    track of the held stream; with neither a connection nor a stream it calls
    nothing. *)
Theorem cleanup_calls (w : World) :
  log (cleanupWebRTCResources w)
  = rev (map TrackStop (stored_tracks w))
    ++ match pcRef w with Some pc => [PcClose (pcId pc)] | None => [] end
    ++ log w.
Proof. exact (log_cleanupWebRTCResources w). Qed.

(** ** Without a token *)

Lemma rest_trivial : forall e, is_rest_call e = false -> is_rest_call e = false.
Proof. auto. Qed.

(** No continuation leaves the REST part of [answerCallHandler] pending. *)
Lemma other_initiate_createOffer (id receiver : string) (w : World) :
  other_than_answer (snd (initiate_createOffer id receiver w)) = true.
Proof. unfold initiate_createOffer. destruct (pcRef w); reflexivity. Qed.

Lemma other_offer_createAnswer (d : OfferData) (w : World) :
  other_than_answer (snd (offer_createAnswer d w)) = true.
Proof. unfold offer_createAnswer. destruct (pcRef w); reflexivity. Qed.

Lemma other_offer_after_flush (d : OfferData) (f : World * bool) :
  other_than_answer (snd (offer_after_flush d f)) = true.
Proof.
  unfold offer_after_flush. destruct (snd f); [reflexivity | apply other_offer_createAnswer].
Qed.

Lemma other_answer_after_flush (d : AnswerData) (f : World * bool) :
  other_than_answer (snd (answer_after_flush d f)) = true.
Proof. unfold answer_after_flush. destruct (snd f); reflexivity. Qed.

Lemma other_offer_setRemote (d : OfferData) (w : World) :
  other_than_answer (snd (offer_setRemote d w)) = true.
Proof. unfold offer_setRemote. destruct (pcRef w); reflexivity. Qed.

Lemma other_handleWebRTCOffer (env : Env) (d : OfferData) (w : World) :
  other_than_answer (snd (handleWebRTCOffer env d w)) = true.
Proof.
  unfold handleWebRTCOffer. destruct (pcRef w); [apply other_offer_setRemote|].
  cbv zeta. destruct (localStream (closureCallState env));
    [apply other_offer_setRemote | reflexivity].
Qed.

Lemma other_handleWebRTCAnswer (d : AnswerData) (w : World) :
  other_than_answer (snd (handleWebRTCAnswer d w)) = true.
Proof.
  unfold handleWebRTCAnswer.
  destruct (opt_string_eqb _ _); [|reflexivity]. destruct (pcRef w); reflexivity.
Qed.

Lemma resume_not_answer_media (env : Env) (k : Cont) (r : Result) (w : World) :
  other_than_answer (snd (resume env k r w)) = true.
Proof.
  destruct k; cbv beta iota zeta delta [resume].
  - destruct r as [[| | |]|]; reflexivity.
  - destruct r as [[| | |]|]; try reflexivity. apply other_initiate_createOffer.
  - destruct r as [[| | |]|]; try reflexivity. destruct (pcRef w); reflexivity.
  - destruct r; [|reflexivity]. destruct (socket env); reflexivity.
  - destruct r as [[| | |]|]; reflexivity.
  - destruct r; reflexivity.
  - destruct r; reflexivity.
  - reflexivity.
  - destruct r as [[| | |]|]; try reflexivity. apply other_offer_setRemote.
  - destruct r; [|reflexivity]. apply other_offer_after_flush.
  - apply other_offer_after_flush.
  - destruct r as [[| | |]|]; try reflexivity. destruct (pcRef w); reflexivity.
  - destruct r; [|reflexivity]. destruct (socket env); reflexivity.
  - destruct r; [|reflexivity]. apply other_answer_after_flush.
  - apply other_answer_after_flush.
Qed.

Section OtherContinuations.

Variable P : Effect -> bool.
Hypothesis P_rest : forall e, is_rest_call e = false -> P e = false.

(** Every continuation but the one that calls the REST answer makes no call
    of a class that holds REST calls only. *)
Lemma silent_resume_other (env : Env) (k : Cont) (r : Result) (w : World) :
  other_than_answer (Some k) = true ->
  calls P (fst (resume env k r w)) = calls P w.
Proof.
  intro Hk. destruct k; try discriminate Hk; simpl.
  - destruct r as [[| | |]|]; try reflexivity.
    unfold await, fst. now rewrite calls_emit by now apply P_rest.
  - destruct r as [[| |stream|]|]; try reflexivity.
    rewrite (silent_initiate_createOffer P P_rest), (silent_ensure_tracks_attached P P_rest).
    rewrite silent_initPeerConnection by assumption.
    now apply silent_getLocalStream_granted.
  - destruct r as [[| | |]|]; try reflexivity.
    destruct (pcRef w); [|reflexivity].
    unfold await, fst. now rewrite calls_emit by now apply P_rest.
  - destruct r; [|reflexivity]. destruct (socket env); [|reflexivity].
    now apply silent_socket_emit.
  - destruct r; reflexivity.
  - destruct r; reflexivity.
  - now apply silent_cleanupWebRTCResources.
  - destruct r as [[| |stream|]|]; try reflexivity.
    rewrite (silent_offer_setRemote P P_rest). now apply silent_getLocalStream_granted.
  - destruct r; [|reflexivity].
    rewrite (silent_offer_after_flush P P_rest).
    now rewrite (silent_flushIceCandidateQueue P P_rest).
  - rewrite (silent_offer_after_flush P P_rest). unfold flush_resume.
    now apply (silent_flush_loop P P_rest).
  - destruct r as [[| | |]|]; try reflexivity.
    destruct (pcRef w); [|reflexivity].
    unfold await, fst. now rewrite calls_emit by now apply P_rest.
  - destruct r; [|reflexivity]. destruct (socket env); [|reflexivity].
    unfold done, fst.
    transitivity (calls P (socket_emit c
                    (EmitWebRTCAnswer (offer_callId d) answer (offer_callerId d)) w));
      [reflexivity | now apply silent_socket_emit].
  - destruct r; [|reflexivity].
    rewrite silent_answer_after_flush.
    now rewrite (silent_flushIceCandidateQueue P P_rest).
  - rewrite silent_answer_after_flush. unfold flush_resume.
    now apply (silent_flush_loop P P_rest).
Qed.

End OtherContinuations.

Lemma resume_no_rest_call (env : Env) (k : Cont) (r : Result) (w : World) :
  other_than_answer (Some k) = true ->
  calls is_rest_call (fst (resume env k r w)) = calls is_rest_call w.
Proof. apply (silent_resume_other is_rest_call rest_trivial). Qed.

Lemma no_answer_pending_add (p : list Cont) (o : option Cont) :
  no_answer_pending p = true ->
  other_than_answer o = true ->
  no_answer_pending (match o with Some k => p ++ [k] | None => p end) = true.
Proof.
  intros Hp Ho. destruct o as [k|]; [|exact Hp].
  unfold no_answer_pending in *. rewrite forallb_app, Hp. simpl.
  destruct k; try reflexivity; discriminate.
Qed.

Lemma no_answer_pending_drop (p : list Cont) (n : nat) :
  no_answer_pending p = true -> no_answer_pending (drop_nth n p) = true.
Proof.
  unfold no_answer_pending. revert n. induction p as [|a p IH]; intros n H;
    destruct n; simpl in *; try reflexivity.
  - apply andb_prop in H. tauto.
  - apply andb_prop in H. destruct H as [Ha Hp]. rewrite Ha. now apply IH.
Qed.

Lemma no_answer_pending_nth (p : list Cont) (n : nat) (k : Cont) :
  no_answer_pending p = true -> nth_error p n = Some k ->
  other_than_answer (Some k) = true.
Proof.
  unfold no_answer_pending. intros H Hn. rewrite forallb_forall in H.
  apply H. eapply nth_error_In; eauto.
Qed.

Lemma no_token_step (env : Env) (s : Sys) (e : Event) :
  truthy (token env) = false ->
  no_answer_pending (pending s) = true ->
  calls is_rest_call (world (step env s e)) = calls is_rest_call (world s) /\
  no_answer_pending (pending (step env s e)) = true.
Proof.
  intros Ht Hp. pose proof rest_trivial as P_rest.
  assert (Hend : handleEndCall env (world s) = done (cleanupWebRTCResources (world s))).
  { unfold handleEndCall. rewrite Ht, andb_false_r.
    destruct (callId (callStateRef (world s))); reflexivity. }
  assert (Hsame : calls is_rest_call (world s) = calls is_rest_call (world s) /\
                  no_answer_pending (pending s) = true) by (split; [reflexivity | exact Hp]).
  destruct e; unfold step; cbv beta iota zeta;
    try (destruct (socket env) as [sk|] eqn:Hs; [|exact Hsame]).
  - unfold initiateCallHandler. destruct (socket env); rewrite ?Ht; rewrite commit_same;
      exact Hsame.
  - unfold answerCallHandler. destruct (socket env); rewrite ?Ht; rewrite commit_same;
      exact Hsame.
  - unfold rejectCallHandler. rewrite Ht, commit_same. exact Hsame.
  - rewrite Hend. split; [|exact Hp]. now apply silent_cleanupWebRTCResources.
  - split; [|exact Hp]. unfold handleCallIncoming. destruct rtcConfig; reflexivity.
  - split; [|exact Hp]. now apply silent_handleCallInitiated.
  - split; [reflexivity | exact Hp].
  - split; [reflexivity | exact Hp].
  - split; [reflexivity | exact Hp].
  - split; [|exact Hp]. now apply silent_handleCallEnded.
  - split; [now apply (silent_handleWebRTCOffer is_rest_call P_rest)|].
    apply no_answer_pending_add; [exact Hp|].
    apply other_handleWebRTCOffer.
  - split; [now apply (silent_handleWebRTCAnswer is_rest_call P_rest)|].
    apply no_answer_pending_add; [exact Hp|].
    apply other_handleWebRTCAnswer.
  - split; [|exact Hp]. now apply silent_handleICECandidate.
  - split; [reflexivity | exact Hp].
  - split; [reflexivity | exact Hp].
  - split; [|exact Hp]. now apply silent_pc_onicecandidate.
  - unfold pc_onconnectionstatechange.
    destruct st; try (rewrite commit_same; exact Hsame).
    rewrite Hend. split; [|exact Hp]. now apply silent_cleanupWebRTCResources.
  - destruct (nth_error (pending s) n) as [k|] eqn:Hn; [|exact Hsame].
    split.
    + rewrite world_commit. apply resume_no_rest_call.
      now apply (no_answer_pending_nth (pending s) n).
    + apply no_answer_pending_add;
        [now apply no_answer_pending_drop | apply resume_not_answer_media].
  - split; [reflexivity | exact Hp].
Qed.

(** X6: without an auth token the hook never calls the call-lifecycle REST
    service, whatever local actions and remote events follow, provided no
    answer that was started with a token is still waiting for the
    microphone. *)
Theorem no_token_no_rest_call (env : Env) (s : Sys) (evs : list Event) :
  truthy (token env) = false ->
  no_answer_pending (pending s) = true ->
  calls is_rest_call (world (run env s evs)) = calls is_rest_call (world s).
Proof.
  intros Ht. revert s. induction evs as [|e evs IH]; intros s Hp; [reflexivity|].
  destruct (no_token_step env s e Ht Hp) as [Hc Hp'].
  change (run env s (e :: evs)) with (run env (step env s e) evs).
  now rewrite (IH _ Hp'), Hc.
Qed.

Lemma no_token_no_rest_call_witness :
  calls is_rest_call
    (world (run (mkEnv None (Some (mkSocket true)) initialCallState) initialSys
              [CallIncoming "c1" "alice" None; Render; AnswerCall "c1"; RejectCall "c1";
               InitiateCall "bob"; EndCall])) = [].
Proof.
  apply (no_token_no_rest_call (mkEnv None (Some (mkSocket true)) initialCallState)
           initialSys
           [CallIncoming "c1" "alice" None; Render; AnswerCall "c1"; RejectCall "c1";
            InitiateCall "bob"; EndCall]);
    reflexivity.
Defined.

(** ** Which tracks are stopped *)

Lemma stop_tracks_keeps (ts : list Track) (w : World) (t : Track) :
  In t (liveTracks w) -> ~ In t ts -> In t (liveTracks (fold_left stop_track ts w)).
Proof.
  revert w. induction ts as [|a ts IH]; intros w H Hn; [exact H|].
  cbn [fold_left]. apply IH.
  - unfold stop_track. cbn [emit set_liveTracks liveTracks].
    apply in_in_remove; [|exact H]. intros ->. apply Hn. now left.
  - intro Hin. apply Hn. now right.
Qed.

Lemma liveTracks_cleanup (w : World) (t : Track) :
  In t (liveTracks (cleanupWebRTCResources w)) <->
  In t (liveTracks w) /\ ~ In t (stored_tracks w).
Proof.
  destruct (close_transport_spec w) as (_ & Hl & Hv).
  change (liveTracks (cleanupWebRTCResources w))
    with (liveTracks (stop_capture (close_transport w))).
  unfold stop_capture, stored_tracks. rewrite Hl.
  destruct (localStreamRef w) as [s|].
  - change (liveTracks (set_localStreamRef None
                          (fold_left stop_track (getTracks s) (close_transport w))))
      with (liveTracks (fold_left stop_track (getTracks s) (close_transport w))).
    split.
    + intro H. apply stop_tracks_liveTracks in H. now rewrite Hv in H.
    + intros [H Hn]. apply stop_tracks_keeps; [now rewrite Hv | exact Hn].
  - rewrite Hv. tauto.
Qed.

Lemma liveTracks_getLocalStream_granted (stream : MediaStream) (w : World) :
  liveTracks (getLocalStream_granted stream w) = liveTracks w ++ getTracks stream.
Proof.
  unfold getLocalStream_granted.
  match goal with
  | |- liveTracks (match ?o with Some _ => fold_left ?f ?l ?w3 | None => _ end) = _ =>
      assert (H : forall l0 w0, liveTracks (fold_left f l0 w0) = liveTracks w0);
      [| destruct o; [rewrite (H l w3)|]; reflexivity ]
  end.
  induction l0 as [|a l0 IH]; intro w0; [reflexivity|].
  cbn [fold_left]. rewrite IH. unfold attach_missing_track.
  destruct (pcRef w0) eqn:E; [|reflexivity].
  destruct (alreadyAdded _ _); [reflexivity|].
  unfold pc_addTrack. now rewrite E.
Qed.

(** X27: [cleanupWebRTCResources] stops the tracks of the stream held in
    [localStreamRef] and no other: a track is live afterwards exactly when it
    was live before and is not of that stream.  [getLocalStream] stores the
    granted stream over the one already held without stopping it, so the
    tracks of a stream that was replaced stay live through the cleanup. *)
Theorem cleanup_stops_only_held_tracks (w : World) (stream : MediaStream) (t : Track) :
  (In t (liveTracks (cleanupWebRTCResources w)) <->
   In t (liveTracks w) /\ ~ In t (stored_tracks w)) /\
  (In t (liveTracks w) -> ~ In t (getTracks stream) ->
   In t (liveTracks (cleanupWebRTCResources (getLocalStream_granted stream w)))).
Proof.
  split; [apply liveTracks_cleanup|].
  intros H Hn. apply liveTracks_cleanup.
  destruct (getLocalStream_granted_cells stream w) as (Hs & _). cbv zeta in Hs.
  unfold stored_tracks. rewrite Hs, liveTracks_getLocalStream_granted.
  split; [apply in_or_app; now left | exact Hn].
Qed.

Lemma cleanup_stops_only_held_tracks_witness :
  In 1 (liveTracks (cleanupWebRTCResources
                      (getLocalStream_granted (mkStream 8 [3; 4]) (world answered_c1)))).
Proof.
  apply (cleanup_stops_only_held_tracks (world answered_c1) (mkStream 8 [3; 4]) 1).
  - vm_compute. left. reflexivity.
  - cbn. intuition discriminate.
Defined.

(** ** No connection is left open *)

Lemma ot_quiet (e : Effect) (l : list Effect) :
  is_transport_event e = false -> open_transports (e :: l) = open_transports l.
Proof. destruct e; intro H; try discriminate H; reflexivity. Qed.

Lemma ot_app_quiet (l1 l : list Effect) :
  Forall (fun e => is_transport_event e = false) l1 ->
  open_transports (l1 ++ l) = open_transports l.
Proof.
  induction 1 as [|e l1 He _ IH]; [reflexivity|].
  cbn [app]. now rewrite ot_quiet.
Qed.

Lemma tt_emit (e : Effect) (w : World) :
  is_transport_event e = false -> transport_tracked w -> transport_tracked (emit e w).
Proof.
  intros He H. unfold transport_tracked in *.
  change (open_transports (e :: log w) = held_transport w). now rewrite ot_quiet.
Qed.

Lemma tt_socket_emit (sk : ChatSocket) (e : Effect) (w : World) :
  is_transport_event e = false -> transport_tracked w ->
  transport_tracked (socket_emit sk e w).
Proof.
  intros He H. unfold socket_emit. destruct (socketConnected sk); [now apply tt_emit | exact H].
Qed.

Lemma tt_setCallState (f : CallState -> CallState) (w : World) :
  transport_tracked w -> transport_tracked (setCallState f w).
Proof. intro H. exact H. Qed.

Lemma tt_set_rtcConfigRef (c : option RTCConfiguration) (w : World) :
  transport_tracked w -> transport_tracked (set_rtcConfigRef c w).
Proof. intro H. exact H. Qed.

Lemma tt_set_flag (b : bool) (w : World) :
  transport_tracked w -> transport_tracked (set_remoteDescriptionSetRef b w).
Proof. intro H. exact H. Qed.

Lemma tt_set_queue (q : list RTCIceCandidateInit) (w : World) :
  transport_tracked w -> transport_tracked (set_iceCandidateQueueRef q w).
Proof. intro H. exact H. Qed.

Lemma tt_pc_addTrack (t : Track) (w : World) :
  transport_tracked w -> transport_tracked (pc_addTrack t w).
Proof.
  intro H. unfold pc_addTrack. destruct (pcRef w) as [pc|] eqn:E; [|exact H].
  unfold transport_tracked, held_transport in *. rewrite E in H.
  cbn [emit set_pcRef log pcRef pcId]. now rewrite ot_quiet.
Qed.

Lemma tt_fold {A} (f : World -> A -> World) (l : list A) (w : World) :
  (forall a w0, transport_tracked w0 -> transport_tracked (f w0 a)) ->
  transport_tracked w -> transport_tracked (fold_left f l w).
Proof.
  intro H. revert w. induction l as [|a l IH]; intros w Hw; simpl; auto.
Qed.

Lemma tt_with_new_connection (cfg : RTCConfiguration) (w : World) :
  transport_tracked w -> transport_tracked (with_new_connection cfg w).
Proof.
  unfold transport_tracked, held_transport, with_new_connection.
  cbn [log pcRef pcId]. intro H. destruct (pcRef w) as [old|]; cbn [app open_transports].
  - rewrite H. cbn [filter]. now rewrite Nat.eqb_refl.
  - now rewrite H.
Qed.

Lemma tt_initPeerConnection (cfg : RTCConfiguration) (w : World) :
  transport_tracked w -> transport_tracked (initPeerConnection cfg w).
Proof.
  intro H. rewrite initPeerConnection_eq.
  apply (tt_fold (fun acc t => pc_addTrack t acc)).
  - intros a w0. apply tt_pc_addTrack.
  - now apply tt_with_new_connection.
Qed.

Lemma tt_getLocalStream_granted (stream : MediaStream) (w : World) :
  transport_tracked w -> transport_tracked (getLocalStream_granted stream w).
Proof.
  intro H. unfold getLocalStream_granted.
  match goal with
  | |- transport_tracked (match ?o with Some _ => fold_left ?f ?l ?w3 | None => _ end) =>
      assert (Hc : transport_tracked w3) by exact H;
      destruct o; [apply tt_fold; [|exact Hc] | exact Hc]
  end.
  intros a w0 Hw. unfold attach_missing_track. destruct (pcRef w0); [|exact Hw].
  destruct (alreadyAdded _ _); [exact Hw | now apply tt_pc_addTrack].
Qed.

Lemma tt_ensure_tracks_attached (w : World) :
  transport_tracked w -> transport_tracked (ensure_tracks_attached w).
Proof.
  intro H. unfold ensure_tracks_attached. destruct (pcRef w) as [pc|]; [|exact H].
  destruct (localStreamRef w); [|exact H].
  apply tt_fold; [|exact H]. intros a w0 Hw. unfold attach_unless_in.
  destruct (alreadyAdded _ _); [exact Hw | now apply tt_pc_addTrack].
Qed.

Lemma tt_cleanup (w : World) :
  transport_tracked w -> transport_tracked (cleanupWebRTCResources w).
Proof.
  intro H. destruct (cleanup_released w) as (_ & Hp & _).
  unfold transport_tracked, held_transport in *.
  rewrite Hp, log_cleanupWebRTCResources, ot_app_quiet.
  - destruct (pcRef w) as [pc|]; cbn [app open_transports]; rewrite H; [|reflexivity].
    cbn [filter]. now rewrite Nat.eqb_refl.
  - apply Forall_rev, Forall_map, Forall_forall. reflexivity.
Qed.

Lemma tt_flush_loop (q : list RTCIceCandidateInit) (w : World) :
  transport_tracked w -> transport_tracked (fst (flush_loop q w)).
Proof.
  intro H. induction q as [|c q IH]; cbn [flush_loop].
  - exact H.
  - destruct (pcRef w) as [pc|] eqn:E; [|exact IH].
    cbn [fst]. apply tt_emit; [reflexivity|]. exact H.
Qed.

Lemma tt_flushIceCandidateQueue (w : World) :
  transport_tracked w -> transport_tracked (fst (flushIceCandidateQueue w)).
Proof.
  intro H. unfold flushIceCandidateQueue. destruct (pcRef w); [|exact H].
  destruct (remoteDescriptionSetRef w); [|exact H]. now apply tt_flush_loop.
Qed.

Lemma tt_handleICECandidate (cid sender : string) (cand : option RTCIceCandidateInit)
    (w : World) :
  transport_tracked w -> transport_tracked (handleICECandidate cid cand sender w).
Proof.
  intro H. unfold handleICECandidate. destruct cand; [|exact H].
  destruct (pcRef w); [|exact H].
  destruct (remoteDescriptionSetRef w); [apply tt_emit; [reflexivity | exact H] | exact H].
Qed.

Lemma tt_handleEndCall (env : Env) (w : World) :
  transport_tracked w -> transport_tracked (fst (handleEndCall env w)).
Proof.
  intro H. unfold handleEndCall.
  destruct (callId (callStateRef w)); [|now apply tt_cleanup].
  destruct (_ && _); [apply tt_emit; [reflexivity | exact H] | now apply tt_cleanup].
Qed.

Lemma tt_offer_setRemote (d : OfferData) (w : World) :
  transport_tracked w -> transport_tracked (fst (offer_setRemote d w)).
Proof.
  intro H. unfold offer_setRemote.
  destruct (pcRef w); [apply tt_emit; [reflexivity | exact H] | exact H].
Qed.

Lemma tt_offer_after_flush (d : OfferData) (f : World * bool) :
  transport_tracked (fst f) -> transport_tracked (fst (offer_after_flush d f)).
Proof.
  intro H. unfold offer_after_flush, offer_createAnswer.
  destruct (snd f); [exact H|].
  destruct (pcRef (fst f)); [apply tt_emit; [reflexivity | exact H] | exact H].
Qed.

Lemma tt_answer_after_flush (d : AnswerData) (f : World * bool) :
  transport_tracked (fst f) -> transport_tracked (fst (answer_after_flush d f)).
Proof. intro H. unfold answer_after_flush. destruct (snd f); exact H. Qed.

Lemma tt_initiate_createOffer (id receiver : string) (w : World) :
  transport_tracked w -> transport_tracked (fst (initiate_createOffer id receiver w)).
Proof.
  intro H. unfold initiate_createOffer.
  destruct (pcRef w); [apply tt_emit; [reflexivity | exact H] | exact H].
Qed.

Lemma tt_resume (env : Env) (k : Cont) (r : Result) (w : World) :
  transport_tracked w -> transport_tracked (fst (resume env k r w)).
Proof.
  intro H. destruct k; simpl.
  - destruct r as [[| | |]|]; exact H.
  - destruct r as [[| |stream|]|]; try exact H.
    apply tt_initiate_createOffer, tt_ensure_tracks_attached, tt_initPeerConnection,
      tt_getLocalStream_granted, H.
  - destruct r as [[| | |]|]; try exact H. destruct (pcRef w); exact H.
  - destruct r; [|exact H]. destruct (socket env); [|exact H].
    apply tt_socket_emit; [reflexivity | exact H].
  - destruct r as [[| |stream|]|]; try exact H. unfold await, fst.
    apply tt_emit; [reflexivity|].
    apply tt_initPeerConnection, tt_getLocalStream_granted, H.
  - destruct r; exact H.
  - destruct r; exact H.
  - now apply tt_cleanup.
  - destruct r as [[| |stream|]|]; try exact H.
    apply tt_offer_setRemote, tt_getLocalStream_granted, H.
  - destruct r; [|exact H].
    apply tt_offer_after_flush, tt_flushIceCandidateQueue, tt_set_flag, H.
  - unfold flush_resume. apply tt_offer_after_flush, tt_flush_loop, H.
  - destruct r as [[| | |]|]; try exact H. destruct (pcRef w); exact H.
  - destruct r; [|exact H]. destruct (socket env); [|exact H].
    apply tt_setCallState, tt_socket_emit; [reflexivity | exact H].
  - destruct r; [|exact H]. apply tt_answer_after_flush, tt_flushIceCandidateQueue.
    apply tt_setCallState, tt_set_flag, H.
  - unfold flush_resume. apply tt_answer_after_flush, tt_flush_loop, H.
Qed.

Lemma tt_step (env : Env) (s : Sys) (e : Event) :
  transport_tracked (world s) -> transport_tracked (world (step env s e)).
Proof.
  intro H.
  destruct e; unfold step; cbv beta iota zeta;
    try (destruct (socket env) as [sk|] eqn:Hs; [|exact H]);
    try rewrite world_commit; try rewrite world_update.
  - unfold initiateCallHandler. destruct (socket env); [|exact H].
    destruct (truthy _); exact H.
  - unfold answerCallHandler. destruct (socket env); [|exact H].
    destruct (truthy _); exact H.
  - unfold rejectCallHandler. destruct (truthy _); exact H.
  - apply tt_handleEndCall, H.
  - unfold handleCallIncoming. destruct rtcConfig; exact H.
  - unfold handleCallInitiated. destruct rtcConfig; [|exact H].
    apply tt_initPeerConnection. exact H.
  - exact H.
  - exact H.
  - exact H.
  - unfold handleCallEnded. destruct (opt_string_eqb _ _); [now apply tt_cleanup | exact H].
  - unfold handleWebRTCOffer. destruct (pcRef (world s)); [apply tt_offer_setRemote, H|].
    destruct (localStream _).
    + apply tt_offer_setRemote, tt_initPeerConnection, H.
    + unfold await, fst. apply tt_emit; [reflexivity|]. apply tt_initPeerConnection, H.
  - unfold handleWebRTCAnswer. destruct (opt_string_eqb _ _); [|exact H].
    destruct (pcRef (world s)); exact H.
  - apply tt_handleICECandidate, H.
  - exact H.
  - exact H.
  - unfold pc_onicecandidate. destruct cand; [|exact H]. destruct (socket env); [|exact H].
    destruct (js_or _ _); [|exact H]. destruct (callId _); [|exact H].
    destruct (_ && _); [apply tt_socket_emit; [reflexivity | exact H] | exact H].
  - unfold pc_onconnectionstatechange. destruct st; try exact H. apply tt_handleEndCall, H.
  - destruct (nth_error (pending s) n); [|exact H]. rewrite world_commit.
    now apply tt_resume.
  - exact H.
Qed.

(** X26: the hook never leaves a peer connection open behind: in every state
    it reaches, the connections created and not yet closed are the one in
    [pcRef], or none when [pcRef] is null; so at most one is open at a
    time. *)
Theorem no_connection_left_open (env : Env) (evs : list Event) :
  open_transports (log (world (run env initialSys evs))) =
  held_transport (world (run env initialSys evs)) /\
  length (open_transports (log (world (run env initialSys evs)))) <= 1.
Proof.
  assert (H : forall s, transport_tracked (world s) ->
                        transport_tracked (world (run env s evs))).
  { induction evs as [|e evs IH]; intros s Hs; [exact Hs|].
    apply (IH (step env s e)). now apply tt_step. }
  specialize (H initialSys eq_refl). unfold transport_tracked in H.
  split; [exact H|]. rewrite H. unfold held_transport.
  destruct (pcRef (world (run env initialSys evs))); cbn; lia.
Qed.

(** ** Signalling while the socket is offline *)

Section Offline.

Variable env : Env.
Hypothesis env_offline : offline env.
Variable l : list Effect.

Lemma sg_emit (e : Effect) (w : World) :
  is_signal e = false -> signalled l w -> signalled l (emit e w).
Proof.
  intros He H. unfold signalled, calls in *.
  change (filter is_signal (e :: log w) = l). cbn [filter]. now rewrite He.
Qed.

Lemma sg_socket_emit (sk : ChatSocket) (e : Effect) (w : World) :
  socket env = Some sk -> signalled l w -> signalled l (socket_emit sk e w).
Proof.
  intros Hs H. unfold socket_emit. now rewrite (env_offline sk Hs).
Qed.

Lemma sg_pc_addTrack (t : Track) (w : World) :
  signalled l w -> signalled l (pc_addTrack t w).
Proof.
  intro H. unfold pc_addTrack. destruct (pcRef w) as [pc|] eqn:E; exact H.
Qed.

Lemma sg_fold {A} (f : World -> A -> World) (xs : list A) (w : World) :
  (forall a w0, signalled l w0 -> signalled l (f w0 a)) ->
  signalled l w -> signalled l (fold_left f xs w).
Proof.
  intro H. revert w. induction xs as [|a xs IH]; intros w Hw; simpl; auto.
Qed.

Lemma sg_with_new_connection (cfg : RTCConfiguration) (w : World) :
  signalled l w -> signalled l (with_new_connection cfg w).
Proof.
  unfold signalled, calls, with_new_connection. cbn [log]. intro H.
  destruct (pcRef w) as [old|]; exact H.
Qed.

Lemma sg_initPeerConnection (cfg : RTCConfiguration) (w : World) :
  signalled l w -> signalled l (initPeerConnection cfg w).
Proof.
  intro H. rewrite initPeerConnection_eq.
  apply (sg_fold (fun acc t => pc_addTrack t acc)).
  - intros a w0. apply sg_pc_addTrack.
  - now apply sg_with_new_connection.
Qed.

Lemma sg_getLocalStream_granted (stream : MediaStream) (w : World) :
  signalled l w -> signalled l (getLocalStream_granted stream w).
Proof.
  intro H. unfold getLocalStream_granted.
  match goal with
  | |- signalled l (match ?o with Some _ => fold_left ?f ?xs ?w3 | None => _ end) =>
      assert (Hc : signalled l w3) by exact H;
      destruct o; [apply sg_fold; [|exact Hc] | exact Hc]
  end.
  intros a w0 Hw. unfold attach_missing_track. destruct (pcRef w0); [|exact Hw].
  destruct (alreadyAdded _ _); [exact Hw | now apply sg_pc_addTrack].
Qed.

Lemma sg_ensure_tracks_attached (w : World) :
  signalled l w -> signalled l (ensure_tracks_attached w).
Proof.
  intro H. unfold ensure_tracks_attached. destruct (pcRef w) as [pc|]; [|exact H].
  destruct (localStreamRef w); [|exact H].
  apply sg_fold; [|exact H]. intros a w0 Hw. unfold attach_unless_in.
  destruct (alreadyAdded _ _); [exact Hw | now apply sg_pc_addTrack].
Qed.

Lemma sg_cleanup (w : World) :
  signalled l w -> signalled l (cleanupWebRTCResources w).
Proof.
  intro H. unfold signalled, calls in *.
  rewrite log_cleanupWebRTCResources, !filter_app, H.
  assert (H1 : filter is_signal (rev (map TrackStop (stored_tracks w))) = []).
  { rewrite <- map_rev. induction (rev (stored_tracks w)) as [|t ts IH]; [reflexivity|].
    exact IH. }
  rewrite H1. destruct (pcRef w); reflexivity.
Qed.

Lemma sg_flush_loop (q : list RTCIceCandidateInit) (w : World) :
  signalled l w -> signalled l (fst (flush_loop q w)).
Proof.
  intro H. induction q as [|c q IH]; cbn [flush_loop].
  - exact H.
  - destruct (pcRef w) as [pc|] eqn:E; [exact H | exact IH].
Qed.

Lemma sg_flushIceCandidateQueue (w : World) :
  signalled l w -> signalled l (fst (flushIceCandidateQueue w)).
Proof.
  intro H. unfold flushIceCandidateQueue. destruct (pcRef w); [|exact H].
  destruct (remoteDescriptionSetRef w); [|exact H]. now apply sg_flush_loop.
Qed.

Lemma sg_handleICECandidate (cid sender : string) (cand : option RTCIceCandidateInit)
    (w : World) :
  signalled l w -> signalled l (handleICECandidate cid cand sender w).
Proof.
  intro H. unfold handleICECandidate. destruct cand; [|exact H].
  destruct (pcRef w); [|exact H]. destruct (remoteDescriptionSetRef w); exact H.
Qed.

Lemma sg_handleEndCall (w : World) :
  signalled l w -> signalled l (fst (handleEndCall env w)).
Proof.
  intro H. unfold handleEndCall.
  destruct (callId (callStateRef w)); [|now apply sg_cleanup].
  destruct (_ && _); [exact H | now apply sg_cleanup].
Qed.

Lemma sg_offer_setRemote (d : OfferData) (w : World) :
  signalled l w -> signalled l (fst (offer_setRemote d w)).
Proof. intro H. unfold offer_setRemote. destruct (pcRef w); exact H. Qed.

Lemma sg_offer_after_flush (d : OfferData) (f : World * bool) :
  signalled l (fst f) -> signalled l (fst (offer_after_flush d f)).
Proof.
  intro H. unfold offer_after_flush, offer_createAnswer.
  destruct (snd f); [exact H|]. destruct (pcRef (fst f)); exact H.
Qed.

Lemma sg_answer_after_flush (d : AnswerData) (f : World * bool) :
  signalled l (fst f) -> signalled l (fst (answer_after_flush d f)).
Proof. intro H. unfold answer_after_flush. destruct (snd f); exact H. Qed.

Lemma sg_initiate_createOffer (id receiver : string) (w : World) :
  signalled l w -> signalled l (fst (initiate_createOffer id receiver w)).
Proof. intro H. unfold initiate_createOffer. destruct (pcRef w); exact H. Qed.

Lemma sg_resume (k : Cont) (r : Result) (w : World) :
  signalled l w -> signalled l (fst (resume env k r w)).
Proof.
  intro H. destruct k; simpl.
  - destruct r as [[| | |]|]; exact H.
  - destruct r as [[| |stream|]|]; try exact H.
    apply sg_initiate_createOffer, sg_ensure_tracks_attached, sg_initPeerConnection,
      sg_getLocalStream_granted, H.
  - destruct r as [[| | |]|]; try exact H. destruct (pcRef w); exact H.
  - destruct r; [|exact H]. destruct (socket env) as [sk|] eqn:Hs; [|exact H].
    now apply sg_socket_emit.
  - destruct r as [[| |stream|]|]; try exact H. unfold await, fst.
    apply sg_emit; [reflexivity|].
    apply sg_initPeerConnection, sg_getLocalStream_granted, H.
  - destruct r; exact H.
  - destruct r; exact H.
  - now apply sg_cleanup.
  - destruct r as [[| |stream|]|]; try exact H.
    apply sg_offer_setRemote, sg_getLocalStream_granted, H.
  - destruct r; [|exact H].
    apply sg_offer_after_flush, sg_flushIceCandidateQueue. exact H.
  - unfold flush_resume. apply sg_offer_after_flush, sg_flush_loop, H.
  - destruct r as [[| | |]|]; try exact H. destruct (pcRef w); exact H.
  - destruct r; [|exact H]. destruct (socket env) as [sk|] eqn:Hs; [|exact H].
    change (signalled l (socket_emit sk
              (EmitWebRTCAnswer (offer_callId d) answer (offer_callerId d)) w)).
    now apply sg_socket_emit.
  - destruct r; [|exact H]. apply sg_answer_after_flush, sg_flushIceCandidateQueue.
    exact H.
  - unfold flush_resume. apply sg_answer_after_flush, sg_flush_loop, H.
Qed.

Lemma sg_step (s : Sys) (e : Event) :
  signalled l (world s) -> signalled l (world (step env s e)).
Proof.
  intro H.
  destruct e; unfold step; cbv beta iota zeta;
    try (destruct (socket env) as [sk|] eqn:Hs; [|exact H]);
    try rewrite world_commit; try rewrite world_update.
  - unfold initiateCallHandler. destruct (socket env); [|exact H].
    destruct (truthy _); exact H.
  - unfold answerCallHandler. destruct (socket env); [|exact H].
    destruct (truthy _); exact H.
  - unfold rejectCallHandler. destruct (truthy _); exact H.
  - apply sg_handleEndCall, H.
  - unfold handleCallIncoming. destruct rtcConfig; exact H.
  - unfold handleCallInitiated. destruct rtcConfig; [|exact H].
    apply sg_initPeerConnection. exact H.
  - exact H.
  - exact H.
  - exact H.
  - unfold handleCallEnded. destruct (opt_string_eqb _ _); [now apply sg_cleanup | exact H].
  - unfold handleWebRTCOffer. destruct (pcRef (world s)); [apply sg_offer_setRemote, H|].
    destruct (localStream _).
    + apply sg_offer_setRemote, sg_initPeerConnection, H.
    + unfold await, fst. apply sg_emit; [reflexivity|]. apply sg_initPeerConnection, H.
  - unfold handleWebRTCAnswer. destruct (opt_string_eqb _ _); [|exact H].
    destruct (pcRef (world s)); exact H.
  - apply sg_handleICECandidate, H.
  - exact H.
  - exact H.
  - unfold pc_onicecandidate. destruct cand; [|exact H].
    destruct (socket env) as [sk|] eqn:Hs; [|exact H].
    destruct (js_or _ _); [|exact H]. destruct (callId _); [|exact H].
    destruct (_ && _); [now apply sg_socket_emit | exact H].
  - unfold pc_onconnectionstatechange. destruct st; try exact H. apply sg_handleEndCall, H.
  - destruct (nth_error (pending s) n); [|exact H]. rewrite world_commit.
    now apply sg_resume.
  - exact H.
Qed.

End Offline.



(** * Properties of the REST client *)

Lemma requests_cons_request (cfg : ApiClient.Config) (tr : ApiClient.Trace) :
  ApiClient.requests (ApiClient.Request cfg :: tr) = S (ApiClient.requests tr).
Proof. reflexivity. Qed.

Lemma requests_cons_sleep (ms : ApiClient.JsNum) (tr : ApiClient.Trace) :
  ApiClient.requests (ApiClient.Sleep ms :: tr) = ApiClient.requests tr.
Proof. reflexivity. Qed.

Lemma wait_after_shift (parseInt : string -> ApiClient.JsNum)
    (server : nat -> ApiClient.Outcome) (n : nat) (delay : Z) (i : nat) :
  ApiClient.wait_after parseInt server (S n) (delay * 2) i =
  ApiClient.wait_after parseInt server n delay (S i).
Proof.
  unfold ApiClient.wait_after.
  replace (S n + i) with (n + S i) by lia.
  replace (delay * 2 * 2 ^ Z.of_nat i)%Z with (delay * 2 ^ Z.of_nat (S i))%Z;
    [reflexivity|].
  rewrite Nat2Z.inj_succ, Z.pow_succ_r by lia. ring.
Qed.

Lemma flat_map_seq_succ {A : Type} (f : nat -> list A) (k : nat) :
  flat_map f (seq 0 (S k)) = f 0 ++ flat_map (fun i => f (S i)) (seq 0 k).
Proof.
  rewrite <- cons_seq, <- seq_shift. cbn [flat_map]. f_equal.
  now rewrite !flat_map_concat_map, map_map.
Qed.

Lemma retryRequest_script (parseInt : string -> ApiClient.JsNum)
    (server : nat -> ApiClient.Outcome) (cfg : ApiClient.Config) (retries : nat) :
  forall (delay : Z) (tr : ApiClient.Trace),
  exists k, k <= retries /\
    (forall i, i < k -> ApiClient.limited server (ApiClient.requests tr + i) = true) /\
    (ApiClient.limited server (ApiClient.requests tr + k) = true -> k = retries) /\
    fst (ApiClient.retryRequest parseInt (ApiClient.send server) cfg retries delay tr) =
      server (ApiClient.requests tr + k) /\
    rev (snd (ApiClient.retryRequest parseInt (ApiClient.send server) cfg retries delay tr)) =
      rev tr ++ ApiClient.script parseInt server cfg (ApiClient.requests tr) delay k.
Proof.
  induction retries as [|retries IH]; intros delay tr.
  - exists 0. rewrite Nat.add_0_r. cbn [ApiClient.retryRequest].
    change (ApiClient.send server cfg tr)
      with (server (ApiClient.requests tr), ApiClient.Request cfg :: tr).
    split; [lia|]. split; [intros i Hi; lia|]. split; [reflexivity|].
    destruct (server (ApiClient.requests tr)) as [r|e]; simpl.
    + split; reflexivity.
    + rewrite andb_false_r. split; reflexivity.
  - cbn [ApiClient.retryRequest].
    change (ApiClient.send server cfg tr)
      with (server (ApiClient.requests tr), ApiClient.Request cfg :: tr).
    destruct (server (ApiClient.requests tr)) as [r|e] eqn:Hs.
    + exists 0. rewrite Nat.add_0_r. split; [lia|]. split; [intros i Hi; lia|].
      split; [unfold ApiClient.limited; rewrite Hs; discriminate|].
      split; [now rewrite Hs | reflexivity].
    + destruct (ApiClient.is429 e) eqn:H429; cbn [andb Nat.ltb Nat.leb].
      * specialize (IH (delay * 2)%Z
                       (ApiClient.Sleep (ApiClient.waitTime parseInt e delay)
                          :: ApiClient.Request cfg :: tr)).
        rewrite requests_cons_sleep, requests_cons_request in IH.
        destruct IH as (k & Hk & Hlim & Hlast & Hout & Htr).
        exists (S k). split; [lia|]. split; [|split; [|split]].
        -- intros [|i] Hi.
           ++ rewrite Nat.add_0_r. unfold ApiClient.limited. now rewrite Hs.
           ++ replace (ApiClient.requests tr + S i) with (S (ApiClient.requests tr) + i) by lia.
              apply Hlim. lia.
        -- intro H. f_equal. apply Hlast.
           now replace (S (ApiClient.requests tr) + k) with (ApiClient.requests tr + S k) by lia.
        -- rewrite Hout. f_equal. lia.
        -- rewrite Htr. unfold ApiClient.script.
           cbn [rev]. rewrite <- !app_assoc. f_equal.
           rewrite flat_map_seq_succ. cbn [app]. f_equal. f_equal.
           ++ unfold ApiClient.wait_after. rewrite Nat.add_0_r, Hs.
              now rewrite Z.pow_0_r, Z.mul_1_r.
           ++ f_equal. apply flat_map_ext. intros i.
              now rewrite wait_after_shift.
      * exists 0. rewrite Nat.add_0_r. split; [lia|]. split; [intros i Hi; lia|].
        split; [unfold ApiClient.limited; rewrite Hs, H429; discriminate|].
        split; [now rewrite Hs | reflexivity].
Qed.

Lemma requests_app (a b : ApiClient.Trace) :
  ApiClient.requests (a ++ b) = ApiClient.requests a + ApiClient.requests b.
Proof. unfold ApiClient.requests. now rewrite filter_app, length_app. Qed.

Lemma requests_rev (tr : ApiClient.Trace) :
  ApiClient.requests (rev tr) = ApiClient.requests tr.
Proof.
  induction tr as [|a tr IH]; [reflexivity|].
  cbn [rev]. rewrite requests_app, IH.
  destruct a; unfold ApiClient.requests;
    cbn [filter ApiClient.is_request length]; lia.
Qed.

Lemma requests_script (parseInt : string -> ApiClient.JsNum)
    (server : nat -> ApiClient.Outcome) (cfg : ApiClient.Config) (n : nat) (delay : Z)
    (k : nat) :
  ApiClient.requests (ApiClient.script parseInt server cfg n delay k) = k + 1.
Proof.
  unfold ApiClient.script. rewrite requests_app.
  assert (H : forall l, ApiClient.requests
            (flat_map (fun i => [ApiClient.Request cfg;
                                 ApiClient.Sleep (ApiClient.wait_after parseInt server n delay i)])
                      l) = length l).
  { induction l as [|a l IH]; [reflexivity|].
    cbn [flat_map app]. rewrite requests_cons_request, requests_cons_sleep, IH. reflexivity. }
  rewrite H, length_seq. reflexivity.
Qed.

Lemma waits_of_rev (tr : ApiClient.Trace) (l : list ApiClient.Action) :
  rev tr = l ->
  ApiClient.waits tr =
  flat_map (fun a => match a with ApiClient.Sleep ms => [ms] | ApiClient.Request _ => [] end) l.
Proof. intros <-. reflexivity. Qed.

Lemma waits_script (parseInt : string -> ApiClient.JsNum)
    (server : nat -> ApiClient.Outcome) (cfg : ApiClient.Config) (n : nat) (delay : Z)
    (k : nat) :
  flat_map (fun a => match a with ApiClient.Sleep ms => [ms] | ApiClient.Request _ => [] end)
    (ApiClient.script parseInt server cfg n delay k) =
  map (ApiClient.wait_after parseInt server n delay) (seq 0 k).
Proof.
  unfold ApiClient.script. rewrite flat_map_app.
  transitivity (map (ApiClient.wait_after parseInt server n delay) (seq 0 k) ++ []);
    [|apply app_nil_r].
  f_equal. induction (seq 0 k) as [|a l IH]; [reflexivity|].
  cbn [flat_map map app]. now rewrite IH.
Qed.

(** X8: [retryRequest] makes at most [retries + 1] requests and gives back
    the outcome of the first request that is not answered 429 (a response, or
    any other failure, which is rethrown at once), or of the last request when
    all of them are answered 429. *)
Theorem retryRequest_stops_at_first_other_outcome (parseInt : string -> ApiClient.JsNum)
    (server : nat -> ApiClient.Outcome) (cfg : ApiClient.Config) (retries : nat)
    (delay : Z) (tr : ApiClient.Trace) :
  exists k, k <= retries /\
    (forall i, i < k -> ApiClient.limited server (ApiClient.requests tr + i) = true) /\
    (ApiClient.limited server (ApiClient.requests tr + k) = true -> k = retries) /\
    fst (ApiClient.retryRequest parseInt (ApiClient.send server) cfg retries delay tr) =
      server (ApiClient.requests tr + k) /\
    ApiClient.requests
      (snd (ApiClient.retryRequest parseInt (ApiClient.send server) cfg retries delay tr)) =
      ApiClient.requests tr + k + 1.
Proof.
  destruct (retryRequest_script parseInt server cfg retries delay tr)
    as (k & Hk & Hlim & Hlast & Hout & Htr).
  exists k. split; [exact Hk|]. split; [exact Hlim|]. split; [exact Hlast|].
  split; [exact Hout|].
  rewrite <- requests_rev, Htr, requests_app, requests_rev, requests_script. lia.
Qed.

(** X9: the waits of [retryRequest], in order: before its retry number [i + 1]
    it waits the seconds of the [Retry-After] header of the 429 just received
    when that header is present and not empty, and [delay * 2^i] milliseconds
    otherwise; there is one wait per retry and none after the last request.
    When no 429 carries the header the waits are [delay], [2 * delay],
    [4 * delay], ... *)
Theorem retryRequest_backoff (parseInt : string -> ApiClient.JsNum)
    (server : nat -> ApiClient.Outcome) (cfg : ApiClient.Config) (retries : nat)
    (delay : Z) (tr : ApiClient.Trace) :
  exists k, k <= retries /\
    ApiClient.requests
      (snd (ApiClient.retryRequest parseInt (ApiClient.send server) cfg retries delay tr)) =
      ApiClient.requests tr + k + 1 /\
    ApiClient.waits
      (snd (ApiClient.retryRequest parseInt (ApiClient.send server) cfg retries delay tr)) =
      ApiClient.waits tr ++
      map (fun i => match ApiClient.advised server (ApiClient.requests tr + i) with
                    | Some h => if truthy (Some h)
                                then ApiClient.times (parseInt h) 1000
                                else ApiClient.Num (delay * 2 ^ Z.of_nat i)
                    | None => ApiClient.Num (delay * 2 ^ Z.of_nat i)
                    end) (seq 0 k) /\
    ((forall i, i < k ->
        truthy (ApiClient.advised server (ApiClient.requests tr + i)) = false) ->
     ApiClient.waits
       (snd (ApiClient.retryRequest parseInt (ApiClient.send server) cfg retries delay tr)) =
       ApiClient.waits tr ++ map (fun i => ApiClient.Num (delay * 2 ^ Z.of_nat i)) (seq 0 k)).
Proof.
  destruct (retryRequest_script parseInt server cfg retries delay tr)
    as (k & Hk & Hlim & Hlast & Hout & Htr).
  assert (Hw : ApiClient.waits
      (snd (ApiClient.retryRequest parseInt (ApiClient.send server) cfg retries delay tr)) =
      ApiClient.waits tr ++
      map (fun i => match ApiClient.advised server (ApiClient.requests tr + i) with
                    | Some h => if truthy (Some h)
                                then ApiClient.times (parseInt h) 1000
                                else ApiClient.Num (delay * 2 ^ Z.of_nat i)
                    | None => ApiClient.Num (delay * 2 ^ Z.of_nat i)
                    end) (seq 0 k)).
  { rewrite (waits_of_rev _ _ Htr), flat_map_app, waits_script. f_equal.
    apply map_ext. intro i.
    unfold ApiClient.wait_after, ApiClient.advised, ApiClient.waitTime.
    destruct (server (ApiClient.requests tr + i)); reflexivity. }
  exists k. split; [exact Hk|]. split; [|split; [exact Hw|]].
  - rewrite <- requests_rev, Htr, requests_app, requests_rev, requests_script. lia.
  - intro Hno. rewrite Hw. f_equal. apply map_ext_in. intros i Hi.
    apply in_seq in Hi. specialize (Hno i ltac:(lia)).
    destruct (ApiClient.advised server (ApiClient.requests tr + i)) as [h|]; [|reflexivity].
    now rewrite Hno.
Qed.

Lemma retryRequest_backoff_witness :
  ApiClient.waits
    (snd (ApiClient.retryRequest (fun _ => ApiClient.NaN)
            (ApiClient.send
               (fun _ => ApiClient.Throws
                           (ApiClient.mkError (Some (ApiClient.mkResponse 429 None)) "429")))
            (ApiClient.mkRequestConfig "/api/v1/calls" true) 3 1000 [])) =
  [ApiClient.Num 1000; ApiClient.Num 2000; ApiClient.Num 4000].
Proof.
  destruct (retryRequest_backoff (fun _ => ApiClient.NaN)
              (fun _ => ApiClient.Throws
                          (ApiClient.mkError (Some (ApiClient.mkResponse 429 None)) "429"))
              (ApiClient.mkRequestConfig "/api/v1/calls" true) 3 1000 [])
    as (k & Hk & Hreq & _ & Hw).
  assert (k = 3) as ->.
  { match type of Hreq with
    | ?l = _ => assert (E : l = 4) by (vm_compute; reflexivity); rewrite E in Hreq
    end.
    change (ApiClient.requests []) with 0 in Hreq. lia. }
  rewrite Hw; [reflexivity | intros i Hi; reflexivity].
Defined.

(** A request whose config carries [_retry] goes through the interceptor
    untouched. *)
Lemma client_request_marked (parseInt : string -> ApiClient.JsNum)
    (server : nat -> ApiClient.Outcome) (d : nat) (cfg : ApiClient.Config)
    (tr : ApiClient.Trace) :
  ApiClient._retry cfg = true ->
  ApiClient.client_request parseInt server d cfg tr = ApiClient.send server cfg tr.
Proof.
  intro Hm. destruct d; cbn [ApiClient.client_request];
    change (ApiClient.send server cfg tr)
      with (server (ApiClient.requests tr), ApiClient.Request cfg :: tr);
    destruct (server (ApiClient.requests tr)) as [r|e]; try reflexivity.
  unfold ApiClient.onRejected. rewrite Hm, andb_false_r. reflexivity.
Qed.

Lemma retryRequest_ext (parseInt : string -> ApiClient.JsNum)
    (f g : ApiClient.Config -> ApiClient.Trace -> ApiClient.Outcome * ApiClient.Trace)
    (cfg : ApiClient.Config) (retries : nat) :
  (forall tr, f cfg tr = g cfg tr) ->
  forall delay tr,
  ApiClient.retryRequest parseInt f cfg retries delay tr =
  ApiClient.retryRequest parseInt g cfg retries delay tr.
Proof.
  intro H. induction retries as [|retries IH]; intros delay tr;
    cbn [ApiClient.retryRequest]; rewrite H; destruct (g cfg tr) as [[r|e] tr1];
    try reflexivity.
  destruct (ApiClient.is429 e && (0 <? S retries)%nat); [apply IH | reflexivity].
Qed.

(** X10: a request through a client of [createApiClient].  An outcome other
    than 429 is passed on after one request.  After a 429 the interceptor
    repeats the request at once, without a wait and without reading the
    [Retry-After] header of that first 429, and then retries up to three more
    times as [retryRequest] does with delay 1000: five requests at most.  The
    caller gets the first outcome that is not a 429, or, when all five are
    429, the plain error 'Too many requests...', which has no [response]. *)
Theorem client_request_retries (parseInt : string -> ApiClient.JsNum)
    (server : nat -> ApiClient.Outcome) (d : nat) (cfg : ApiClient.Config)
    (tr : ApiClient.Trace) :
  ApiClient._retry cfg = false ->
  (ApiClient.limited server (ApiClient.requests tr) = false ->
   ApiClient.client_request parseInt server (S d) cfg tr =
   (server (ApiClient.requests tr), ApiClient.Request cfg :: tr)) /\
  (ApiClient.limited server (ApiClient.requests tr) = true ->
   exists k, k <= 3 /\
     (forall i, i < k -> ApiClient.limited server (S (ApiClient.requests tr) + i) = true) /\
     (ApiClient.limited server (S (ApiClient.requests tr) + k) = true -> k = 3) /\
     fst (ApiClient.client_request parseInt server (S d) cfg tr) =
       (if ApiClient.limited server (S (ApiClient.requests tr) + k)
        then ApiClient.Throws ApiClient.tooManyRequests
        else server (S (ApiClient.requests tr) + k)) /\
     rev (snd (ApiClient.client_request parseInt server (S d) cfg tr)) =
       rev tr ++ ApiClient.Request cfg ::
       ApiClient.script parseInt server (ApiClient.mkRequestConfig (ApiClient.url cfg) true)
         (S (ApiClient.requests tr)) 1000 k).
Proof.
  intro Hm. cbn [ApiClient.client_request].
  change (ApiClient.send server cfg tr)
    with (server (ApiClient.requests tr), ApiClient.Request cfg :: tr).
  unfold ApiClient.limited at 1 2.
  destruct (server (ApiClient.requests tr)) as [r|e] eqn:Hs.
  - split; [reflexivity | discriminate].
  - unfold ApiClient.onRejected. rewrite Hm, andb_true_r.
    destruct (ApiClient.is429 e) eqn:H429; (split; [try discriminate; reflexivity|]);
      [|discriminate].
    intros _.
    rewrite (retryRequest_ext parseInt
               (ApiClient.client_request parseInt server d) (ApiClient.send server)
               (ApiClient.mkRequestConfig (ApiClient.url cfg) true) 3
               (fun t => client_request_marked parseInt server d
                           (ApiClient.mkRequestConfig (ApiClient.url cfg) true) t eq_refl)).
    destruct (retryRequest_script parseInt server
                (ApiClient.mkRequestConfig (ApiClient.url cfg) true) 3 1000
                (ApiClient.Request cfg :: tr))
      as (k & Hk & Hlim & Hlast & Hout & Htr).
    rewrite requests_cons_request in *.
    exists k. split; [exact Hk|]. split; [exact Hlim|]. split; [exact Hlast|].
    destruct (ApiClient.retryRequest parseInt (ApiClient.send server)
                (ApiClient.mkRequestConfig (ApiClient.url cfg) true) 3 1000
                (ApiClient.Request cfg :: tr)) as [o tr'].
    cbn [fst snd] in Hout, Htr. unfold ApiClient.limited.
    rewrite <- Hout. cbn [rev] in Htr. rewrite <- app_assoc in Htr. cbn [app] in Htr.
    destruct o as [r|e']; [split; [reflexivity | exact Htr]|].
    destruct (ApiClient.is429 e'); split; try reflexivity; exact Htr.
Qed.

Lemma client_request_retries_witness :
  fst (ApiClient.client_request (fun _ => ApiClient.NaN)
         (fun n => if Nat.ltb n 2
                   then ApiClient.Throws
                          (ApiClient.mkError
                             (Some (ApiClient.mkResponse 429 (Some "30"))) "429")
                   else ApiClient.Returns (ApiClient.mkResponse 200 None))
         1 (ApiClient.mkRequestConfig "/api/v1/chats" false) []) =
  ApiClient.Returns (ApiClient.mkResponse 200 None).
Proof.
  destruct (client_request_retries (fun _ => ApiClient.NaN)
              (fun n => if Nat.ltb n 2
                        then ApiClient.Throws
                               (ApiClient.mkError
                                  (Some (ApiClient.mkResponse 429 (Some "30"))) "429")
                        else ApiClient.Returns (ApiClient.mkResponse 200 None))
              0 (ApiClient.mkRequestConfig "/api/v1/chats" false) [] eq_refl)
    as [_ H].
  destruct (H eq_refl) as (k & Hk & Hlim & Hlast & Hout & _).
  rewrite Hout.
  destruct k as [|[|k]].
  - discriminate (Hlast eq_refl).
  - reflexivity.
  - specialize (Hlim 1 ltac:(lia)). discriminate Hlim.
Defined.

(** * Properties of the sort *)

Section StableFacts.

Context {B : Type}.
Variable rank : B -> Z.

Lemma insert_perm (x : B) (l : list B) : Permutation (JsArray.insert rank x l) (x :: l).
Proof.
  induction l as [|y l IH]; cbn [JsArray.insert]; [reflexivity|].
  destruct (rank x <=? rank y)%Z; [reflexivity|].
  rewrite IH. apply perm_swap.
Qed.

Lemma sortBy_perm (l : list B) : Permutation (JsArray.sortBy rank l) l.
Proof.
  induction l as [|x l IH]; cbn [JsArray.sortBy]; [reflexivity|].
  rewrite insert_perm. now constructor.
Qed.

Lemma insert_sorted (x : B) (l : list B) :
  StronglySorted (fun a b => (rank a <= rank b)%Z) l ->
  StronglySorted (fun a b => (rank a <= rank b)%Z) (JsArray.insert rank x l).
Proof.
  induction l as [|y l IH]; intro H; cbn [JsArray.insert].
  - constructor; constructor.
  - apply StronglySorted_inv in H. destruct H as [Hl Hy].
    destruct (rank x <=? rank y)%Z eqn:E.
    + apply Z.leb_le in E. constructor; [constructor; assumption|].
      constructor; [exact E|].
      eapply Forall_impl; [|exact Hy]. intros a Ha. cbv beta in *. lia.
    + apply Z.leb_gt in E. constructor; [now apply IH|].
      apply (Permutation_Forall (Permutation_sym (insert_perm x l))).
      constructor; [lia | exact Hy].
Qed.

Lemma sortBy_sorted (l : list B) :
  StronglySorted (fun a b => (rank a <= rank b)%Z) (JsArray.sortBy rank l).
Proof.
  induction l as [|x l IH]; cbn [JsArray.sortBy]; [constructor|].
  now apply insert_sorted.
Qed.

Lemma insert_first (x : B) (l : list B) :
  Forall (fun y => (rank x <= rank y)%Z) l -> JsArray.insert rank x l = x :: l.
Proof.
  intro H. destruct l as [|y l]; [reflexivity|]. cbn [JsArray.insert].
  apply Forall_inv in H. apply Z.leb_le in H. now rewrite H.
Qed.

Lemma sortBy_of_sorted (l : list B) :
  StronglySorted (fun a b => (rank a <= rank b)%Z) l -> JsArray.sortBy rank l = l.
Proof.
  induction l as [|x l IH]; intro H; [reflexivity|].
  apply StronglySorted_inv in H. destruct H as [Hl Hx].
  cbn [JsArray.sortBy]. rewrite (IH Hl). now apply insert_first.
Qed.

Lemma sortBy_snoc (m : B) (l : list B) :
  StronglySorted (fun a b => (rank a <= rank b)%Z) l ->
  JsArray.sortBy rank (l ++ [m]) =
  filter (fun a => (rank a <=? rank m)%Z) l
  ++ m :: filter (fun a => negb (rank a <=? rank m)%Z) l.
Proof.
  induction l as [|a l IH]; intro H; [reflexivity|].
  apply StronglySorted_inv in H. destruct H as [Hl Ha].
  cbn [app JsArray.sortBy filter]. rewrite (IH Hl).
  destruct (rank a <=? rank m)%Z eqn:E; cbn [negb app].
  - apply Z.leb_le in E. apply insert_first.
    apply Forall_app. split.
    + apply incl_Forall with (l1 := l); [|exact Ha].
      intros y Hy. now apply filter_In in Hy.
    + constructor; [exact E|].
      apply incl_Forall with (l1 := l); [|exact Ha].
      intros y Hy. now apply filter_In in Hy.
  - pose proof E as E'. apply Z.leb_gt in E'.
    assert (Hall : Forall (fun y => (rank y <=? rank m)%Z = false) l).
    { eapply Forall_impl; [|exact Ha]. intros y Hy. cbv beta in Hy. apply Z.leb_gt. lia. }
    assert (H1 : filter (fun y => (rank y <=? rank m)%Z) l = []).
    { clear - Hall. induction Hall as [|y l Hy _ IHl]; [reflexivity|].
      cbn [filter]. now rewrite Hy. }
    assert (H2 : filter (fun y => negb (rank y <=? rank m)%Z) l = l).
    { clear - Hall. induction Hall as [|y l Hy _ IHl]; [reflexivity|].
      cbn [filter]. rewrite Hy. cbn [negb]. now rewrite IHl. }
    rewrite H1, H2. cbn [app JsArray.insert]. rewrite E. f_equal.
    now apply insert_first.
Qed.

Lemma filter_insert (p : B -> bool) (x : B) (l : list B) :
  StronglySorted (fun a b => (rank a <= rank b)%Z) l ->
  filter p (JsArray.insert rank x l) =
  if p x then JsArray.insert rank x (filter p l) else filter p l.
Proof.
  induction l as [|y l IH]; intro H.
  - cbn. destruct (p x); reflexivity.
  - apply StronglySorted_inv in H. destruct H as [Hl Hy].
    cbn [JsArray.insert]. destruct (rank x <=? rank y)%Z eqn:E.
    + cbn [filter]. destruct (p x) eqn:Hpx; [|reflexivity].
      symmetry. apply insert_first. apply Z.leb_le in E.
      destruct (p y).
      * constructor; [exact E|]. apply incl_Forall with (l1 := l).
        -- intros z Hz. now apply filter_In in Hz.
        -- eapply Forall_impl; [|exact Hy]. intros z Hz. cbv beta in *. lia.
      * apply incl_Forall with (l1 := l).
        -- intros z Hz. now apply filter_In in Hz.
        -- eapply Forall_impl; [|exact Hy]. intros z Hz. cbv beta in *. lia.
    + cbn [filter]. rewrite (IH Hl).
      destruct (p y) eqn:Hpy, (p x) eqn:Hpx; try reflexivity.
      cbn [JsArray.insert]. now rewrite E.
Qed.

(** The stable sort commutes with taking a sub-array. *)
Lemma filter_sortBy (p : B -> bool) (l : list B) :
  filter p (JsArray.sortBy rank l) = JsArray.sortBy rank (filter p l).
Proof.
  induction l as [|x l IH]; [reflexivity|].
  cbn [JsArray.sortBy filter]. rewrite filter_insert by apply sortBy_sorted.
  rewrite IH. destruct (p x); reflexivity.
Qed.

End StableFacts.

Lemma snd_combine_seq {A : Type} (l : list A) (n : nat) :
  map snd (combine (seq n (length l)) l) = l.
Proof.
  revert n. induction l as [|x l IH]; intro n; [reflexivity|].
  cbn [length seq combine map snd]. now rewrite IH.
Qed.

Section SortFacts.

Context {A : Type}.
Variable key : A -> option Z.
Variable engineOrder : list A -> nat -> Z.

(** Whatever the keys, the sorted array holds the elements of the array. *)
Lemma sort_perm (l : list A) : Permutation (JsArray.sort key engineOrder l) l.
Proof.
  unfold JsArray.sort. destruct (JsArray.comparable key l).
  - apply sortBy_perm.
  - transitivity (map snd (combine (seq 0 (length l)) l));
      [apply Permutation_map, sortBy_perm | now rewrite snd_combine_seq].
Qed.

Lemma comparable_Forall (l : list A) :
  JsArray.comparable key l = true <-> Forall (fun a => key a <> None) l.
Proof.
  unfold JsArray.comparable. rewrite forallb_forall, Forall_forall.
  split; intros H a Ha; specialize (H a Ha); destruct (key a); congruence.
Qed.

Lemma comparable_perm (l l' : list A) :
  Permutation l l' -> JsArray.comparable key l = true -> JsArray.comparable key l' = true.
Proof.
  intros Hp H. apply comparable_Forall. apply comparable_Forall in H.
  now apply (Permutation_Forall Hp).
Qed.

Lemma comparable_filter (p : A -> bool) (l : list A) :
  JsArray.comparable key l = true -> JsArray.comparable key (filter p l) = true.
Proof.
  intro H. apply comparable_Forall. apply comparable_Forall in H.
  apply incl_Forall with (l1 := l); [|exact H]. intros a Ha. now apply filter_In in Ha.
Qed.

Lemma comparable_snoc (l : list A) (m : A) :
  JsArray.comparable key l = true -> key m <> None ->
  JsArray.comparable key (l ++ [m]) = true.
Proof.
  intros H Hm. apply comparable_Forall. apply comparable_Forall in H.
  apply Forall_app. split; [exact H | now constructor].
Qed.

Lemma sort_comparable (l : list A) :
  JsArray.comparable key l = true ->
  JsArray.sort key engineOrder l = JsArray.sortBy (JsArray.value key) l.
Proof. intro H. unfold JsArray.sort. now rewrite H. Qed.

(** With no NaN key the sorted array ascends. *)
Lemma sort_ascending (l : list A) :
  JsArray.comparable key l = true ->
  JsArray.ascending key (JsArray.sort key engineOrder l).
Proof.
  intro H. rewrite (sort_comparable l H). split.
  - apply (comparable_perm l); [apply Permutation_sym, sortBy_perm | exact H].
  - apply sortBy_sorted.
Qed.

(** Sorting an ascending array changes nothing. *)
Lemma sort_of_ascending (l : list A) :
  JsArray.ascending key l -> JsArray.sort key engineOrder l = l.
Proof.
  intros [Hc Hs]. rewrite (sort_comparable l Hc). now apply sortBy_of_sorted.
Qed.

(** Appending to an ascending array and sorting: the new element goes
    behind the elements that are not later, and nothing else moves. *)
Lemma sort_snoc (m : A) (l : list A) :
  JsArray.ascending key l -> key m <> None ->
  JsArray.sort key engineOrder (l ++ [m]) =
  filter (fun a => (JsArray.value key a <=? JsArray.value key m)%Z) l
  ++ m :: filter (fun a => negb (JsArray.value key a <=? JsArray.value key m)%Z) l.
Proof.
  intros [Hc Hs] Hm. rewrite (sort_comparable _ (comparable_snoc l m Hc Hm)).
  now apply sortBy_snoc.
Qed.

(** With no NaN key the sort is stable: it commutes with taking a
    sub-array. *)
Lemma filter_sort (p : A -> bool) (l : list A) :
  JsArray.comparable key l = true ->
  filter p (JsArray.sort key engineOrder l) = JsArray.sort key engineOrder (filter p l).
Proof.
  intro H. rewrite (sort_comparable l H), (sort_comparable _ (comparable_filter p l H)).
  apply filter_sortBy.
Qed.

End SortFacts.

(** * Properties of the message list *)

Lemma known_spec (m : Messages.Message) (prev : list Messages.Message) :
  ChatApp.known m prev = true <-> In (Messages.id m) (map Messages.id prev).
Proof.
  unfold ChatApp.known. rewrite existsb_exists, in_map_iff. split.
  - intros (x & Hx & E). apply String.eqb_eq in E. now exists x.
  - intros (x & E & Hx). exists x. split; [exact Hx|]. now apply String.eqb_eq.
Qed.

Lemma chronological_receipts (getTime : string -> option Z) (userId : string) (read : bool)
    (c : string) (l : list Messages.Message) :
  ChatApp.chronological getTime l ->
  ChatApp.chronological getTime
    (map (fun msg => if ChatApp.receiptApplies userId c msg
                     then ChatApp.withReceipt read msg else msg) l).
Proof.
  assert (Hkey : forall x,
            getTime (Messages.createdAt
                       (if ChatApp.receiptApplies userId c x
                        then ChatApp.withReceipt read x else x)) =
            getTime (Messages.createdAt x)).
  { intro x. destruct (ChatApp.receiptApplies userId c x); reflexivity. }
  unfold ChatApp.chronological, JsArray.ascending. intros [Hc Hs]. split.
  - apply comparable_Forall. apply comparable_Forall in Hc.
    apply Forall_map. eapply Forall_impl; [|exact Hc].
    intros x Hx. cbv beta. now rewrite Hkey.
  - induction Hs as [|x l Hl IH Hx]; cbn [map]; [constructor|].
    assert (Hc' : JsArray.comparable (fun m => getTime (Messages.createdAt m)) l = true).
    { apply comparable_Forall. apply comparable_Forall in Hc. now inversion Hc. }
    constructor; [exact (IH Hc')|]. apply Forall_map.
    eapply Forall_impl; [|exact Hx]. intros y Hy. cbv beta.
    unfold JsArray.value in *. now rewrite !Hkey.
Qed.

Lemma chronological_add (getTime : string -> option Z)
    (engineOrder : list Messages.Message -> nat -> Z)
    (m : Messages.Message) (l : list Messages.Message) :
  ChatApp.chronological getTime l -> ChatApp.dated getTime m ->
  ChatApp.chronological getTime (ChatApp.byCreatedAt getTime engineOrder (l ++ [m])).
Proof.
  intros [Hc _] Hm. apply sort_ascending. now apply comparable_snoc.
Qed.

Lemma chronological_setMessages (getTime : string -> option Z)
    (engineOrder : list Messages.Message -> nat -> Z) (userId : string)
    (l : list Messages.Message) (a : ChatApp.MessagesAction) :
  ChatApp.datesParse getTime a ->
  ChatApp.chronological getTime l ->
  ChatApp.chronological getTime (ChatApp.setMessages getTime engineOrder userId l a).
Proof.
  intros Ha H. destruct a; cbn [ChatApp.setMessages ChatApp.datesParse] in *.
  - apply sort_ascending. now apply comparable_Forall.
  - split; [reflexivity | constructor].
  - unfold ChatApp.addSent. destruct (ChatApp.known newMessage l);
      [exact H | now apply chronological_add].
  - unfold ChatApp.onMessageNew_messages. destruct (ChatApp.known message l); [exact H|].
    destruct (opt_string_eqb _ _); [now apply chronological_add | exact H].
  - unfold ChatApp.onMessageRead. destruct (opt_string_eqb _ _); [|exact H].
    now apply chronological_receipts.
  - unfold ChatApp.onMessageDelivered. destruct (opt_string_eqb _ _); [|exact H].
    now apply chronological_receipts.
Qed.

(** X11: as long as every [createdAt] that is loaded, sent or received is a
    date, the message list of [ChatApp] is at all times in the order of
    [createdAt], whatever pages are loaded, messages sent and socket events
    received.  (With a [createdAt] that is not a date the comparator answers
    NaN and the order is what the engine's sort leaves.) *)
Theorem messages_always_chronological (getTime : string -> option Z)
    (engineOrder : list Messages.Message -> nat -> Z) (userId : string)
    (acts : list ChatApp.MessagesAction) :
  Forall (ChatApp.datesParse getTime) acts ->
  ChatApp.chronological getTime
    (fold_left (ChatApp.setMessages getTime engineOrder userId) acts []).
Proof.
  assert (H : forall l, Forall (ChatApp.datesParse getTime) acts ->
                ChatApp.chronological getTime l ->
                ChatApp.chronological getTime
                  (fold_left (ChatApp.setMessages getTime engineOrder userId) acts l)).
  { induction acts as [|a acts IH]; intros l Ha Hl; [exact Hl|].
    cbn [fold_left]. apply Forall_cons_iff in Ha. destruct Ha as [Ha Hacts].
    apply IH; [exact Hacts|]. now apply chronological_setMessages. }
  intro Ha. apply H; [exact Ha|]. split; [reflexivity | constructor].
Qed.

Lemma messages_always_chronological_witness :
  ChatApp.chronological ChatApp.dateOf
    (fold_left (ChatApp.setMessages ChatApp.dateOf ChatApp.asIs "bob")
       [ChatApp.Loaded [ChatApp.how_are_you; ChatApp.hello];
        ChatApp.Sent ChatApp.fine;
        ChatApp.MessageRead (Some "chat1") "chat1"] []).
Proof.
  apply (messages_always_chronological ChatApp.dateOf ChatApp.asIs "bob").
  repeat constructor; vm_compute; discriminate.
Defined.

(** A page with a [createdAt] that is not a date: an engine that leaves
    such an array as it is hands back the page with the later message
    first. *)
Lemma undated_page_left_as_it_is :
  ChatApp.byCreatedAt ChatApp.dateOf ChatApp.asIs
    [ChatApp.how_are_you; ChatApp.undated; ChatApp.hello] =
  [ChatApp.how_are_you; ChatApp.undated; ChatApp.hello].
Proof. vm_compute. reflexivity. Qed.

Lemma uniqueIds_sort (getTime : string -> option Z)
    (engineOrder : list Messages.Message -> nat -> Z) (l : list Messages.Message) :
  ChatApp.uniqueIds l -> ChatApp.uniqueIds (ChatApp.byCreatedAt getTime engineOrder l).
Proof.
  unfold ChatApp.uniqueIds, ChatApp.byCreatedAt. intro H.
  eapply Permutation_NoDup; [|exact H].
  apply Permutation_map, Permutation_sym, sort_perm.
Qed.

Lemma uniqueIds_snoc (m : Messages.Message) (l : list Messages.Message) :
  ChatApp.known m l = false -> ChatApp.uniqueIds l -> ChatApp.uniqueIds (l ++ [m]).
Proof.
  unfold ChatApp.uniqueIds. intros Hk H.
  eapply Permutation_NoDup; [apply Permutation_map, Permutation_cons_append|].
  cbn [map]. constructor; [|exact H].
  intro Hin. apply known_spec in Hin. congruence.
Qed.

Lemma ids_receipts (userId : string) (read : bool) (c : string)
    (l : list Messages.Message) :
  map Messages.id
    (map (fun msg => if ChatApp.receiptApplies userId c msg
                     then ChatApp.withReceipt read msg else msg) l) =
  map Messages.id l.
Proof.
  rewrite map_map. apply map_ext. intro x.
  destruct (ChatApp.receiptApplies userId c x); reflexivity.
Qed.

Lemma uniqueIds_setMessages (getTime : string -> option Z)
    (engineOrder : list Messages.Message -> nat -> Z) (userId : string)
    (l : list Messages.Message) (a : ChatApp.MessagesAction) :
  ChatApp.loadsUnique a -> ChatApp.uniqueIds l ->
  ChatApp.uniqueIds (ChatApp.setMessages getTime engineOrder userId l a).
Proof.
  intros Ha H. destruct a; cbn [ChatApp.setMessages].
  - now apply uniqueIds_sort.
  - constructor.
  - unfold ChatApp.addSent. destruct (ChatApp.known newMessage l) eqn:E; [exact H|].
    now apply uniqueIds_sort, uniqueIds_snoc.
  - unfold ChatApp.onMessageNew_messages.
    destruct (ChatApp.known message l) eqn:E; [exact H|].
    destruct (opt_string_eqb _ _); [|exact H].
    now apply uniqueIds_sort, uniqueIds_snoc.
  - unfold ChatApp.onMessageRead. destruct (opt_string_eqb _ _); [|exact H].
    unfold ChatApp.uniqueIds. now rewrite ids_receipts.
  - unfold ChatApp.onMessageDelivered. destruct (opt_string_eqb _ _); [|exact H].
    unfold ChatApp.uniqueIds. now rewrite ids_receipts.
Qed.

(** X12: no two messages of the list have the same id, as long as no loaded
    page holds an id twice: a sent message and a socket message are added
    only when their id is not in the list yet, and receipts change no id.
    This holds whether or not the [createdAt] strings are dates. *)
Theorem message_ids_stay_unique (getTime : string -> option Z)
    (engineOrder : list Messages.Message -> nat -> Z) (userId : string)
    (acts : list ChatApp.MessagesAction) :
  Forall ChatApp.loadsUnique acts ->
  ChatApp.uniqueIds (fold_left (ChatApp.setMessages getTime engineOrder userId) acts []).
Proof.
  assert (H : forall l, Forall ChatApp.loadsUnique acts -> ChatApp.uniqueIds l ->
                ChatApp.uniqueIds
                  (fold_left (ChatApp.setMessages getTime engineOrder userId) acts l)).
  { induction acts as [|a acts IH]; intros l Ha Hl; [exact Hl|].
    cbn [fold_left]. apply Forall_cons_iff in Ha. destruct Ha as [Ha Hacts].
    apply IH; [exact Hacts|]. now apply uniqueIds_setMessages. }
  intro Ha. apply H; [exact Ha | constructor].
Qed.

Lemma message_ids_stay_unique_witness :
  ChatApp.uniqueIds
    (fold_left (ChatApp.setMessages ChatApp.dateOf ChatApp.asIs "bob")
       [ChatApp.Loaded [ChatApp.how_are_you; ChatApp.undated; ChatApp.hello];
        ChatApp.Sent ChatApp.fine;
        ChatApp.MessageNew (Some "chat1") true ChatApp.fine;
        ChatApp.MessageRead (Some "chat1") "chat1"] []).
Proof.
  apply (message_ids_stay_unique ChatApp.dateOf ChatApp.asIs "bob").
  repeat constructor; cbn; intuition discriminate.
Defined.

Lemma known_after_add (getTime : string -> option Z)
    (engineOrder : list Messages.Message -> nat -> Z) (m : Messages.Message)
    (prev : list Messages.Message) :
  ChatApp.known m (ChatApp.byCreatedAt getTime engineOrder (prev ++ [m])) = true.
Proof.
  apply known_spec, in_map.
  apply (Permutation_in m (Permutation_sym (sort_perm _ _ (prev ++ [m])))).
  apply in_or_app. right. now left.
Qed.


(** X14: a dated message that is new to a list in [createdAt] order is
    placed behind every message that is not later than it, before the later
    ones, and no other message moves. *)
Theorem new_message_position (getTime : string -> option Z)
    (engineOrder : list Messages.Message -> nat -> Z) (m : Messages.Message)
    (prev : list Messages.Message) :
  ChatApp.chronological getTime prev ->
  ChatApp.dated getTime m ->
  ChatApp.known m prev = false ->
  ChatApp.addSent getTime engineOrder m prev =
  filter (fun a => (ChatApp.timeOf getTime a <=? ChatApp.timeOf getTime m)%Z) prev
  ++ m ::
  filter (fun a => negb (ChatApp.timeOf getTime a <=? ChatApp.timeOf getTime m)%Z) prev.
Proof.
  intros Hc Hm Hk. unfold ChatApp.addSent. rewrite Hk.
  apply (sort_snoc (fun a => getTime (Messages.createdAt a)) engineOrder m prev Hc Hm).
Qed.

Lemma new_message_position_witness :
  ChatApp.addSent ChatApp.dateOf ChatApp.asIs ChatApp.fine
    [ChatApp.hello; ChatApp.how_are_you] =
  [ChatApp.hello; ChatApp.fine; ChatApp.how_are_you].
Proof.
  rewrite (new_message_position ChatApp.dateOf ChatApp.asIs ChatApp.fine
             [ChatApp.hello; ChatApp.how_are_you]).
  - reflexivity.
  - split; [reflexivity | repeat constructor; vm_compute; discriminate].
  - vm_compute. discriminate.
  - reflexivity.
Defined.

(** X15: [transformMessage] never gives a message that is read and not
    delivered, and the status [ChatApp] writes into a chat's [lastMessage]
    for the transformed message is the status the server sent when that is
    'sent', 'delivered' or 'read', and 'sent' for any other string. *)
Theorem transformMessage_status (a : Messages.MessageApiResponse) :
  ChatApp.readIsDelivered (Messages.transformMessage a) /\
  ChatApp.statusOf (Messages.transformMessage a) =
    (if String.eqb (Messages.api_status a) "read" then "read"
     else if String.eqb (Messages.api_status a) "delivered" then "delivered"
     else "sent") /\
  (In (Messages.api_status a) ["sent"; "delivered"; "read"] ->
   ChatApp.statusOf (Messages.transformMessage a) = Messages.api_status a).
Proof.
  assert (H2 : ChatApp.statusOf (Messages.transformMessage a) =
    (if String.eqb (Messages.api_status a) "read" then "read"
     else if String.eqb (Messages.api_status a) "delivered" then "delivered"
     else "sent")).
  { unfold ChatApp.statusOf, Messages.transformMessage. cbn [Messages.isRead Messages.isDelivered].
    destruct (String.eqb (Messages.api_status a) "read"); [reflexivity|].
    rewrite orb_false_r. reflexivity. }
  split; [|split; [exact H2|]].
  - unfold ChatApp.readIsDelivered, Messages.transformMessage.
    cbn [Messages.isRead Messages.isDelivered]. intros ->. apply orb_true_r.
  - rewrite H2. intros [H|[H|[H|[]]]]; rewrite <- H; reflexivity.
Qed.

Lemma receipt_read_after (userId : string) (c : string) (read : bool) (x : Messages.Message) :
  (fun msg => if ChatApp.receiptApplies userId c msg then ChatApp.withReceipt true msg else msg)
    ((fun msg => if ChatApp.receiptApplies userId c msg
                 then ChatApp.withReceipt read msg else msg) x) =
  (fun msg => if ChatApp.receiptApplies userId c msg then ChatApp.withReceipt true msg else msg) x.
Proof.
  cbv beta. destruct (ChatApp.receiptApplies userId c x) eqn:E; [|now rewrite E].
  assert (E' : ChatApp.receiptApplies userId c (ChatApp.withReceipt read x) = true) by exact E.
  rewrite E'. destruct read; reflexivity.
Qed.

Lemma receipt_delivered_after_read (userId : string) (c : string) (x : Messages.Message) :
  (fun msg => if ChatApp.receiptApplies userId c msg then ChatApp.withReceipt false msg else msg)
    ((fun msg => if ChatApp.receiptApplies userId c msg
                 then ChatApp.withReceipt true msg else msg) x) =
  (fun msg => if ChatApp.receiptApplies userId c msg then ChatApp.withReceipt true msg else msg) x.
Proof.
  cbv beta. destruct (ChatApp.receiptApplies userId c x) eqn:E; [|now rewrite E].
  assert (E' : ChatApp.receiptApplies userId c (ChatApp.withReceipt true x) = true) by exact E.
  rewrite E'. reflexivity.
Qed.

(** X16: read and delivered receipts.  A receipt changes no id and no
    position, and leaves every message the signed-in user sent exactly as it
    was: only messages of other senders in the chat are marked.  It keeps
    'read implies delivered'.  A read receipt makes an earlier or later
    delivered receipt for the same chat redundant, and repeating it changes
    nothing. *)
Theorem receipts_mark_only_received_messages (userId : string) (cur : option string)
    (c : string) (prev : list Messages.Message) :
  map Messages.id (ChatApp.onMessageRead userId cur c prev) = map Messages.id prev /\
  map Messages.id (ChatApp.onMessageDelivered userId cur c prev) = map Messages.id prev /\
  filter (fun m => String.eqb (Messages.senderId m) userId)
    (ChatApp.onMessageRead userId cur c prev) =
    filter (fun m => String.eqb (Messages.senderId m) userId) prev /\
  filter (fun m => String.eqb (Messages.senderId m) userId)
    (ChatApp.onMessageDelivered userId cur c prev) =
    filter (fun m => String.eqb (Messages.senderId m) userId) prev /\
  (Forall ChatApp.readIsDelivered prev ->
   Forall ChatApp.readIsDelivered (ChatApp.onMessageRead userId cur c prev) /\
   Forall ChatApp.readIsDelivered (ChatApp.onMessageDelivered userId cur c prev)) /\
  ChatApp.onMessageRead userId cur c (ChatApp.onMessageDelivered userId cur c prev) =
    ChatApp.onMessageRead userId cur c prev /\
  ChatApp.onMessageDelivered userId cur c (ChatApp.onMessageRead userId cur c prev) =
    ChatApp.onMessageRead userId cur c prev /\
  ChatApp.onMessageRead userId cur c (ChatApp.onMessageRead userId cur c prev) =
    ChatApp.onMessageRead userId cur c prev.
Proof.
  unfold ChatApp.onMessageRead, ChatApp.onMessageDelivered.
  destruct (opt_string_eqb (Some c) cur).
  2:{ repeat split; try reflexivity; tauto. }
  assert (Hown : forall read,
    filter (fun m => String.eqb (Messages.senderId m) userId)
      (map (fun msg => if ChatApp.receiptApplies userId c msg
                       then ChatApp.withReceipt read msg else msg) prev) =
    filter (fun m => String.eqb (Messages.senderId m) userId) prev).
  { intro read. induction prev as [|x l IH]; [reflexivity|].
    cbn [map filter]. rewrite IH.
    destruct (ChatApp.receiptApplies userId c x) eqn:R; [|reflexivity].
    apply andb_prop in R. destruct R as [_ R]. apply negb_true_iff in R.
    cbn [ChatApp.withReceipt Messages.senderId]. now rewrite R. }
  assert (Hinv : forall read, Forall ChatApp.readIsDelivered prev ->
    Forall ChatApp.readIsDelivered
      (map (fun msg => if ChatApp.receiptApplies userId c msg
                       then ChatApp.withReceipt read msg else msg) prev)).
  { intros read H. apply Forall_map. eapply Forall_impl; [|exact H].
    intros x Hx. destruct (ChatApp.receiptApplies userId c x); [|exact Hx].
    intros _. reflexivity. }
  split; [apply ids_receipts|]. split; [apply ids_receipts|].
  split; [apply Hown|]. split; [apply Hown|].
  split; [intro H; split; now apply Hinv|].
  split; [|split].
  - rewrite map_map. apply map_ext. intro x. apply (receipt_read_after userId c false x).
  - rewrite map_map. apply map_ext. intro x. apply (receipt_delivered_after_read userId c x).
  - rewrite map_map. apply map_ext. intro x. apply (receipt_read_after userId c true x).
Qed.

(** * Properties of the chat list *)

Lemma findIndex_split {A : Type} (p : A -> bool) (l : list A) (i : nat) :
  JsArray.findIndex p l = Some i ->
  exists l1 a l2, l = l1 ++ a :: l2 /\ p a = true /\ Forall (fun x => p x = false) l1 /\
    nth_error l i = Some a /\ JsArray.spliceOut i l = l1 ++ l2.
Proof.
  revert i. induction l as [|x l IH]; intros i H; [discriminate|].
  cbn [JsArray.findIndex] in H. destruct (p x) eqn:E.
  - injection H as <-. exists [], x, l. repeat split; try reflexivity; [exact E | constructor].
  - destruct (JsArray.findIndex p l) as [j|]; [|discriminate].
    injection H as <-. destruct (IH j eq_refl) as (l1 & a & l2 & -> & Ha & Hl1 & Hn & Hs).
    exists (x :: l1), a, l2. split; [reflexivity|]. split; [exact Ha|].
    split; [now constructor|]. split; [exact Hn|].
    unfold JsArray.spliceOut in *. cbn [firstn skipn app]. cbn [skipn] in Hs.
    now rewrite Hs.
Qed.

Lemma findIndex_none {A : Type} (p : A -> bool) (l : list A) :
  JsArray.findIndex p l = None -> Forall (fun x => p x = false) l.
Proof.
  induction l as [|x l IH]; intro H; [constructor|].
  cbn [JsArray.findIndex] in H. destruct (p x) eqn:E; [discriminate|].
  destruct (JsArray.findIndex p l); [discriminate|]. constructor; [exact E | now apply IH].
Qed.

Lemma key_absent (k : string) (l : list ChatApp.Chat) :
  Forall (fun c => String.eqb (ChatApp.chatKey c) k = false) l ->
  ~ In k (map ChatApp.chatKey l).
Proof.
  intros H Hin. apply in_map_iff in Hin. destruct Hin as (c & <- & Hc).
  rewrite Forall_forall in H. specialize (H c Hc). now rewrite String.eqb_refl in H.
Qed.

Lemma keys_filter_absent (k : string) (l : list string) :
  ~ In k l -> filter (fun x => negb (String.eqb x k)) l = l.
Proof.
  induction l as [|x l IH]; intro H; [reflexivity|].
  cbn [filter]. destruct (String.eqb x k) eqn:E.
  - apply String.eqb_eq in E. subst. exfalso. apply H. now left.
  - cbn [negb]. rewrite IH; [reflexivity|]. intro Hin. apply H. now right.
Qed.

(** Taking the first chat of key [k] out of the list and putting a chat of
    the same key in front. *)
Lemma keys_moved_to_top (k : string) (new a : ChatApp.Chat) (l1 l2 : list ChatApp.Chat) :
  ChatApp.chatKey new = k -> ChatApp.chatKey a = k ->
  NoDup (map ChatApp.chatKey (l1 ++ a :: l2)) ->
  NoDup (map ChatApp.chatKey (new :: l1 ++ l2)) /\
  map ChatApp.chatKey (new :: l1 ++ l2) =
    k :: filter (fun x => negb (String.eqb x k)) (map ChatApp.chatKey (l1 ++ a :: l2)).
Proof.
  intros Hn Ha H. rewrite map_app in H. cbn [map] in H. rewrite Ha in H.
  pose proof (NoDup_remove_1 _ _ _ H) as H1. pose proof (NoDup_remove_2 _ _ _ H) as H2.
  cbn [map]. rewrite Hn, !map_app. cbn [map]. rewrite Ha. split.
  - constructor; assumption.
  - f_equal. rewrite filter_app. cbn [filter]. rewrite String.eqb_refl. cbn [negb].
    rewrite <- filter_app. symmetry. now apply keys_filter_absent.
Qed.

Lemma chatKey_presence (online : bool) (seen : option string) (uid : string)
    (c : ChatApp.Chat) :
  ChatApp.chatKey (ChatApp.presence online seen uid c) = ChatApp.chatKey c.
Proof.
  unfold ChatApp.presence. destruct (ChatApp.otherParticipant c) as [p|]; [|reflexivity].
  destruct (String.eqb (ChatApp.participant_id p) uid); reflexivity.
Qed.

Lemma keys_presence (online : bool) (seen : option string) (uid : string)
    (l : list ChatApp.Chat) :
  map ChatApp.chatKey (map (ChatApp.presence online seen uid) l) = map ChatApp.chatKey l.
Proof. rewrite map_map. apply map_ext. intro c. apply chatKey_presence. Qed.

Lemma keys_onChatUpdated (chat : ChatApp.Chat) (prev : list ChatApp.Chat) :
  NoDup (map ChatApp.chatKey prev) ->
  NoDup (map ChatApp.chatKey (ChatApp.onChatUpdated chat prev)) /\
  map ChatApp.chatKey (ChatApp.onChatUpdated chat prev) =
    ChatApp.chatKey chat ::
    filter (fun x => negb (String.eqb x (ChatApp.chatKey chat))) (map ChatApp.chatKey prev).
Proof.
  intro H. unfold ChatApp.onChatUpdated.
  destruct (JsArray.findIndex _ prev) as [i|] eqn:E.
  - destruct (findIndex_split _ _ _ E) as (l1 & a & l2 & -> & Ha & Hl1 & Hn & Hs).
    rewrite Hn, Hs. apply String.eqb_eq in Ha.
    now apply (keys_moved_to_top (ChatApp.chatKey chat) _ a).
  - apply findIndex_none, key_absent in E. cbn [map]. split.
    + now constructor.
    + f_equal. symmetry. now apply keys_filter_absent.
Qed.

Lemma keys_onMessageNew_chats (m : Messages.Message) (prev : list ChatApp.Chat) :
  NoDup (map ChatApp.chatKey prev) ->
  NoDup (map ChatApp.chatKey (ChatApp.onMessageNew_chats m prev)) /\
  (In (Messages.chatId m) (map ChatApp.chatKey prev) ->
   map ChatApp.chatKey (ChatApp.onMessageNew_chats m prev) =
     Messages.chatId m ::
     filter (fun x => negb (String.eqb x (Messages.chatId m))) (map ChatApp.chatKey prev)) /\
  (~ In (Messages.chatId m) (map ChatApp.chatKey prev) ->
   ChatApp.onMessageNew_chats m prev = prev).
Proof.
  intro H. unfold ChatApp.onMessageNew_chats.
  destruct (JsArray.findIndex _ prev) as [i|] eqn:E.
  - destruct (findIndex_split _ _ _ E) as (l1 & a & l2 & -> & Ha & Hl1 & Hn & Hs).
    rewrite Hn, Hs. apply String.eqb_eq in Ha.
    destruct (keys_moved_to_top (Messages.chatId m) (ChatApp.withLastMessage m a) a l1 l2
                Ha Ha H) as [H1 H2].
    split; [exact H1|]. split; [intros _; exact H2|].
    intro Hno. exfalso. apply Hno. rewrite map_app. apply in_or_app. right. left. exact Ha.
  - apply findIndex_none, key_absent in E. split; [exact H|]. split; [tauto | reflexivity].
Qed.

Lemma keys_setChats (prev : list ChatApp.Chat) (a : ChatApp.ChatsAction) :
  NoDup (map ChatApp.chatKey prev) ->
  NoDup (map ChatApp.chatKey (ChatApp.setChats prev a)).
Proof.
  intro H. destruct a; cbn [ChatApp.setChats].
  - now apply keys_onMessageNew_chats.
  - unfold ChatApp.onChatNew. destruct (existsb _ prev) eqn:E; [exact H|].
    cbn [map]. constructor; [|exact H].
    intro Hin. apply in_map_iff in Hin. destruct Hin as (c & Hc & Hin).
    assert (existsb (fun c => String.eqb (ChatApp.chatKey c) (ChatApp.chatKey chat)) prev = true);
      [|congruence].
    apply existsb_exists. exists c. split; [exact Hin | now apply String.eqb_eq].
  - now apply keys_onChatUpdated.
  - unfold ChatApp.onUserOnline. now rewrite keys_presence.
  - unfold ChatApp.onUserOffline. now rewrite keys_presence.
Qed.

(** X17: the chat list never holds two chats of the same key
    ([chatId || id]), whatever socket events arrive, provided the list the
    component started from held none. *)
Theorem chat_keys_stay_unique (chats : list ChatApp.Chat) (acts : list ChatApp.ChatsAction) :
  NoDup (map ChatApp.chatKey chats) ->
  NoDup (map ChatApp.chatKey (fold_left ChatApp.setChats acts chats)).
Proof.
  revert chats. induction acts as [|a acts IH]; intros chats H; [exact H|].
  cbn [fold_left]. apply IH. now apply keys_setChats.
Qed.

Lemma chat_keys_stay_unique_witness :
  NoDup (map ChatApp.chatKey
           (fold_left ChatApp.setChats
              [ChatApp.ChatNew ChatApp.chat_with_carol;
               ChatApp.ChatUpdated ChatApp.chat_with_alice;
               ChatApp.ChatMessage ChatApp.hello;
               ChatApp.UserOffline "2024-05-01T10:01:00Z" "carol"]
              [ChatApp.chat_with_alice])).
Proof.
  apply (chat_keys_stay_unique [ChatApp.chat_with_alice]).
  repeat constructor. cbn. tauto.
Defined.



(** * Properties of the chat window and of the call history *)

(** X19: the window shows every message and every call once, whatever the
    timestamps.  When every timestamp is a date, they are in the order of
    their timestamps, and messages that are in [createdAt] order, as
    [ChatApp] keeps them, appear in that same order.  (With a timestamp
    that is not a date the order is what the engine's sort leaves.) *)
Theorem mergedItems_sorted_and_complete (getTime : string -> option Z)
    (engineOrder : list ChatWindow.Item -> nat -> Z)
    (messages : list Messages.Message) (callHistory : list Calls.Call) :
  Permutation (ChatWindow.mergedItems getTime engineOrder messages callHistory)
    (map (ChatWindow.messageItem getTime) messages
     ++ map (ChatWindow.callItem getTime) callHistory) /\
  (JsArray.comparable ChatWindow.timestamp
     (map (ChatWindow.messageItem getTime) messages
      ++ map (ChatWindow.callItem getTime) callHistory) = true ->
   JsArray.ascending ChatWindow.timestamp
     (ChatWindow.mergedItems getTime engineOrder messages callHistory) /\
   (ChatApp.chronological getTime messages ->
    filter ChatWindow.isMessageItem
      (ChatWindow.mergedItems getTime engineOrder messages callHistory) =
    map (ChatWindow.messageItem getTime) messages)).
Proof.
  unfold ChatWindow.mergedItems.
  split; [apply sort_perm|]. intro Hcmp.
  split; [now apply sort_ascending|].
  intros [Hc Hs]. rewrite filter_sort by exact Hcmp. rewrite filter_app.
  assert (H1 : filter ChatWindow.isMessageItem (map (ChatWindow.messageItem getTime) messages)
               = map (ChatWindow.messageItem getTime) messages).
  { clear. induction messages as [|m l IH]; [reflexivity|]. cbn. now rewrite IH. }
  assert (H2 : filter ChatWindow.isMessageItem (map (ChatWindow.callItem getTime) callHistory)
               = []).
  { clear. induction callHistory as [|c l IH]; [reflexivity|]. cbn. exact IH. }
  rewrite H1, H2, app_nil_r. apply sort_of_ascending. split.
  - apply comparable_Forall, Forall_map. apply comparable_Forall in Hc.
    eapply Forall_impl; [|exact Hc]. intros m Hm. exact Hm.
  - clear - Hs. induction Hs as [|m l Hl IH Hm]; cbn [map]; constructor; [exact IH|].
    apply Forall_map. exact Hm.
Qed.

Lemma mergedItems_sorted_and_complete_witness :
  filter ChatWindow.isMessageItem
    (ChatWindow.mergedItems ChatApp.dateOf (fun _ i => Z.of_nat i)
       [ChatApp.hello; ChatApp.how_are_you] [SampleCalls.bob_called_alice]) =
  map (ChatWindow.messageItem ChatApp.dateOf) [ChatApp.hello; ChatApp.how_are_you].
Proof.
  apply (mergedItems_sorted_and_complete ChatApp.dateOf (fun _ i => Z.of_nat i)
           [ChatApp.hello; ChatApp.how_are_you] [SampleCalls.bob_called_alice]).
  - reflexivity.
  - split; [reflexivity | repeat constructor; vm_compute; discriminate].
Defined.

Lemma truthy_Some_nonempty (s : string) : truthy (Some s) = true -> s <> "".
Proof. cbn. intros H ->. discriminate. Qed.

(** X20: every call [loadCallHistory] lists for a chat is one of the calls
    the server returned and is between the signed-in user and the other
    participant, whose id is the one passed in or, when none is passed, the
    one found in the chat list; and [CallHistoryEntry] shows such a call as
    outgoing exactly when the other participant is its receiver. *)
Theorem call_history_is_between_the_two_users (userId : string)
    (otherUserId found : option string) (calls : list Calls.Call) (call : Calls.Call) :
  In call (Calls.loadCallHistory userId otherUserId found calls) ->
  In call calls /\
  exists target,
    (if truthy otherUserId then otherUserId else found) = Some target /\ target <> "" /\
    ((Calls.callerIdOf call = Some userId /\ Calls.receiverIdOf call = Some target) \/
     (Calls.callerIdOf call = Some target /\ Calls.receiverIdOf call = Some userId)) /\
    (target <> userId ->
     (CallHistoryEntry.isOutgoing call userId = true <->
      Calls.receiverIdOf call = Some target)).
Proof.
  unfold Calls.loadCallHistory. cbv zeta.
  destruct (if truthy otherUserId then otherUserId else found) as [target|] eqn:Et;
    [|intros []].
  destruct (truthy (Some target)) eqn:Etr; [|intros []].
  intro Hin. apply filter_In in Hin. destruct Hin as [Hin Hrel].
  split; [exact Hin|]. exists target. split; [reflexivity|].
  split; [now apply truthy_Some_nonempty|].
  unfold Calls.isRelevant in Hrel. apply orb_prop in Hrel.
  assert (Hcases : (Calls.callerIdOf call = Some userId /\
                    Calls.receiverIdOf call = Some target) \/
                   (Calls.callerIdOf call = Some target /\
                    Calls.receiverIdOf call = Some userId)).
  { destruct Hrel as [H|H]; apply andb_prop in H; destruct H as [H1 H2];
      apply opt_string_eqb_eq in H1; apply opt_string_eqb_eq in H2; tauto. }
  split; [exact Hcases|].
  intro Hne. unfold CallHistoryEntry.isOutgoing. rewrite opt_string_eqb_eq.
  destruct Hcases as [[H1 H2]|[H1 H2]]; rewrite H1, H2; split; intro H;
    try reflexivity; injection H as H; congruence.
Qed.

Lemma call_history_is_between_the_two_users_witness :
  In SampleCalls.bob_called_alice
    [SampleCalls.bob_called_alice; SampleCalls.alice_called_bob;
     SampleCalls.carol_called_bob] /\
  CallHistoryEntry.isOutgoing SampleCalls.bob_called_alice "bob" = true.
Proof.
  destruct (call_history_is_between_the_two_users "bob" None (Some "alice")
              [SampleCalls.bob_called_alice; SampleCalls.alice_called_bob;
               SampleCalls.carol_called_bob] SampleCalls.bob_called_alice)
    as (Hin & target & Ht & _ & _ & Hout).
  - vm_compute. left. reflexivity.
  - split; [exact Hin|]. cbn in Ht. injection Ht as <-.
    apply Hout; [discriminate | reflexivity].
Defined.

(** X21: the label of a call-history entry.  It reads 'Missed call' exactly
    when the call was rejected, whoever placed it, or is still ringing and
    was placed by the other side; such a call never counts as answered.
    Every other call reads 'Outgoing call' when the user placed it and
    'Incoming call' when not. *)
Theorem call_label (call : Calls.Call) (currentUserId : string) :
  (CallHistoryEntry.getCallText call currentUserId = "Missed call" <->
   Calls.call_status call = "rejected" \/
   (Calls.call_status call = "ringing" /\
    Calls.callerIdOf call <> Some currentUserId)) /\
  (CallHistoryEntry.isMissed call currentUserId = true ->
   CallHistoryEntry.isAnswered call = false) /\
  (CallHistoryEntry.isMissed call currentUserId = false ->
   CallHistoryEntry.getCallText call currentUserId =
   if CallHistoryEntry.isOutgoing call currentUserId then "Outgoing call" else "Incoming call").
Proof.
  assert (Hm : CallHistoryEntry.isMissed call currentUserId = true <->
               Calls.call_status call = "rejected" \/
               (Calls.call_status call = "ringing" /\
                Calls.callerIdOf call <> Some currentUserId)).
  { unfold CallHistoryEntry.isMissed, CallHistoryEntry.isOutgoing.
    rewrite orb_true_iff, andb_true_iff, negb_true_iff, !String.eqb_eq.
    rewrite <- not_true_iff_false, opt_string_eqb_eq. reflexivity. }
  assert (Hrest : CallHistoryEntry.isMissed call currentUserId = false ->
    CallHistoryEntry.getCallText call currentUserId =
    if CallHistoryEntry.isOutgoing call currentUserId
    then "Outgoing call" else "Incoming call").
  { intro H. unfold CallHistoryEntry.getCallText. rewrite H.
    destruct (CallHistoryEntry.isAnswered call); reflexivity. }
  split; [|split; [|exact Hrest]].
  - rewrite <- Hm. destruct (CallHistoryEntry.isMissed call currentUserId) eqn:E.
    + unfold CallHistoryEntry.getCallText. rewrite E.
      destruct (CallHistoryEntry.isOutgoing call currentUserId); tauto.
    + rewrite (Hrest eq_refl).
      destruct (CallHistoryEntry.isOutgoing call currentUserId);
        split; intro H; discriminate H.
  - intro H. apply Hm in H. unfold CallHistoryEntry.isAnswered.
    destruct H as [H|[H _]]; rewrite H; reflexivity.
Qed.

Lemma string_append_assoc (a b c : string) :
  ((a ++ b) ++ c)%string = (a ++ (b ++ c))%string.
Proof. induction a as [|x a IH]; cbn; [reflexivity | now rewrite IH]. Qed.

(** X22: the duration field of a call-history entry.  A call without a
    duration shows none; a call whose duration is zero shows the bare number
    0 after the label, whatever its status; a call with a positive duration
    shows it as '(m:ss)' when it was answered or has ended and shows nothing
    otherwise.  So an entry that reads 'Missed call' never shows a duration
    in parentheses, but shows 0 when the server sent a zero duration. *)
Theorem call_duration_field (call : Calls.Call) (currentUserId : string) :
  (Calls.duration call = None -> CallHistoryEntry.durationSlot call = CallHistoryEntry.Nothing) /\
  (Calls.duration call = Some 0 ->
   CallHistoryEntry.durationSlot call = CallHistoryEntry.Text "0") /\
  (forall s, Calls.duration call = Some (S s) ->
   CallHistoryEntry.durationSlot call =
   if CallHistoryEntry.isAnswered call
   then CallHistoryEntry.Text
          ("(" ++ JsString.ofNat (S s / 60) ++ ":"
               ++ JsString.padStart2 (JsString.ofNat (S s mod 60)) ++ ")")
   else CallHistoryEntry.Nothing) /\
  (CallHistoryEntry.getCallText call currentUserId = "Missed call" ->
   CallHistoryEntry.durationSlot call = CallHistoryEntry.Nothing \/
   CallHistoryEntry.durationSlot call = CallHistoryEntry.Text "0").
Proof.
  assert (Hpos : forall s, Calls.duration call = Some (S s) ->
   CallHistoryEntry.durationSlot call =
   if CallHistoryEntry.isAnswered call
   then CallHistoryEntry.Text
          ("(" ++ JsString.ofNat (S s / 60) ++ ":"
               ++ JsString.padStart2 (JsString.ofNat (S s mod 60)) ++ ")")
   else CallHistoryEntry.Nothing).
  { unfold CallHistoryEntry.durationSlot. intros s ->.
    destruct (CallHistoryEntry.isAnswered call); [|reflexivity].
    unfold CallHistoryEntry.formatDuration. f_equal.
    now rewrite !string_append_assoc. }
  split; [unfold CallHistoryEntry.durationSlot; intros ->; reflexivity|].
  split; [unfold CallHistoryEntry.durationSlot; intros ->; reflexivity|].
  split; [exact Hpos|].
  intro Hlabel.
  assert (Hmissed : CallHistoryEntry.isMissed call currentUserId = true).
  { unfold CallHistoryEntry.getCallText in Hlabel.
    destruct (CallHistoryEntry.isMissed call currentUserId); [reflexivity|].
    destruct (CallHistoryEntry.isAnswered call),
             (CallHistoryEntry.isOutgoing call currentUserId); discriminate Hlabel. }
  assert (Hna : CallHistoryEntry.isAnswered call = false).
  { unfold CallHistoryEntry.isMissed in Hmissed. unfold CallHistoryEntry.isAnswered.
    apply orb_prop in Hmissed. destruct Hmissed as [H|H].
    - apply String.eqb_eq in H. now rewrite H.
    - apply andb_prop in H. destruct H as [H _]. apply String.eqb_eq in H. now rewrite H. }
  destruct (Calls.duration call) as [[|s]|] eqn:Ed.
  - right. unfold CallHistoryEntry.durationSlot. now rewrite Ed.
  - left. rewrite (Hpos s eq_refl), Hna. reflexivity.
  - left. unfold CallHistoryEntry.durationSlot. now rewrite Ed.
Qed.

Lemma ltb_div_true (d c q : Z) : (0 < c)%Z -> (d < c * q)%Z -> (d / c <? q)%Z = true.
Proof. intros Hc H. apply Z.ltb_lt. now apply Z.div_lt_upper_bound. Qed.

Lemma ltb_div_false (d c q : Z) : (0 < c)%Z -> (c * q <= d)%Z -> (d / c <? q)%Z = false.
Proof. intros Hc H. apply Z.ltb_ge. now apply Z.div_le_lower_bound. Qed.

(** X23: the age shown on a call-history entry, by the time elapsed since
    the timestamp: 'Just now' below one minute, also for a timestamp in the
    future; whole minutes from 1 to 59 below one hour; whole hours from 1 to
    23 below one day; whole days from 1 to 6 below seven days; the calendar
    date from seven days on. *)
Theorem formatTime_buckets (now : Z) (getTime : string -> Z)
    (toLocaleDateString : string -> string) (s : string) :
  s <> "" ->
  ((now - getTime s < 60000)%Z ->
   CallHistoryEntry.formatTime now getTime toLocaleDateString (Some s) = "Just now") /\
  ((60000 <= now - getTime s < 3600000)%Z ->
   CallHistoryEntry.formatTime now getTime toLocaleDateString (Some s) =
     (JsString.ofZ ((now - getTime s) / 60000) ++ "m ago")%string /\
   (1 <= (now - getTime s) / 60000 <= 59)%Z) /\
  ((3600000 <= now - getTime s < 86400000)%Z ->
   CallHistoryEntry.formatTime now getTime toLocaleDateString (Some s) =
     (JsString.ofZ ((now - getTime s) / 3600000) ++ "h ago")%string /\
   (1 <= (now - getTime s) / 3600000 <= 23)%Z) /\
  ((86400000 <= now - getTime s < 604800000)%Z ->
   CallHistoryEntry.formatTime now getTime toLocaleDateString (Some s) =
     (JsString.ofZ ((now - getTime s) / 86400000) ++ "d ago")%string /\
   (1 <= (now - getTime s) / 86400000 <= 6)%Z) /\
  ((604800000 <= now - getTime s)%Z ->
   CallHistoryEntry.formatTime now getTime toLocaleDateString (Some s) =
     toLocaleDateString s).
Proof.
  intro Hs.
  assert (Ht : truthy (Some s) = true).
  { cbn. apply negb_true_iff. now apply String.eqb_neq. }
  unfold CallHistoryEntry.formatTime. rewrite Ht. cbv zeta. cbn [negb].
  set (d := (now - getTime s)%Z).
  split; [|split; [|split; [|split]]]; intro H.
  - rewrite ltb_div_true by lia. reflexivity.
  - rewrite ltb_div_false, ltb_div_true by lia. split; [reflexivity|].
    split; [apply Z.div_le_lower_bound; lia|].
    assert (d / 60000 < 60)%Z by (apply Z.div_lt_upper_bound; lia). lia.
  - rewrite ltb_div_false, ltb_div_false, ltb_div_true by lia. split; [reflexivity|].
    split; [apply Z.div_le_lower_bound; lia|].
    assert (d / 3600000 < 24)%Z by (apply Z.div_lt_upper_bound; lia). lia.
  - rewrite ltb_div_false, ltb_div_false, ltb_div_false, ltb_div_true by lia.
    split; [reflexivity|].
    split; [apply Z.div_le_lower_bound; lia|].
    assert (d / 86400000 < 7)%Z by (apply Z.div_lt_upper_bound; lia). lia.
  - rewrite ltb_div_false, ltb_div_false, ltb_div_false, ltb_div_false by lia.
    reflexivity.
Qed.

Lemma formatTime_buckets_witness :
  CallHistoryEntry.formatTime 1714557660000 ChatApp.clock (fun s => s)
    (Some "2024-05-01T10:00:05Z") = "Just now".
Proof.
  apply (formatTime_buckets 1714557660000 ChatApp.clock (fun s => s) "2024-05-01T10:00:05Z").
  - discriminate.
  - vm_compute. reflexivity.
Defined.

(** * Properties of the call panel *)

(** X24: in every state the hook reaches, [VoiceCallComponent] is hidden
    exactly when the status is 'idle' and otherwise shows exactly one of its
    three blocks: never an empty panel, never two blocks at once. *)
Theorem panel_shows_one_block (env : Env) (evs : list Event)
    (callerName receiverName : option string) (callDuration : nat) :
  (VoiceCallComponent.render (callState (world (run env initialSys evs)))
     callerName receiverName callDuration = None <->
   status (callState (world (run env initialSys evs))) = idle) /\
  (forall blocks,
     VoiceCallComponent.render (callState (world (run env initialSys evs)))
       callerName receiverName callDuration = Some blocks ->
     length blocks = 1).
Proof.
  destruct (hc_run env evs initialSys hc_initial) as [Hne _].
  unfold VoiceCallComponent.render.
  destruct (status (callState (world (run env initialSys evs)))) eqn:Es.
  - split; [tauto | discriminate].
  - split; [split; discriminate|]. intros blocks H. injection H as <-.
    cbn [VoiceCallComponent.isRinging VoiceCallComponent.inProgress andb].
    destruct (truthy (callerId (callState (world (run env initialSys evs))))); reflexivity.
  - split; [split; discriminate|]. intros blocks H. injection H as <-. reflexivity.
  - split; [split; discriminate|]. intros blocks H. injection H as <-. reflexivity.
  - contradiction.
Qed.

(** X25: an outgoing call is shown as an incoming one when a caller id is
    left in the call state.  [initiateCall] writes the call id, the receiver
    and the status but not [callerId]; if the state still holds the caller of
    an earlier call (rejecting a call and [call:error] leave it), the panel
    of the new outgoing call is the 'Incoming Call' block with Answer and
    Reject. *)
Theorem outgoing_call_shown_as_incoming (env : Env) (s : Sys) (receiver id : string)
    (callerName receiverName : option string) (callDuration : nat) :
  truthy (token env) = true ->
  socket env <> None ->
  pending s = [] ->
  truthy (callerId (callState (world s))) = true ->
  VoiceCallComponent.render
    (callState (world (run env s [InitiateCall receiver; Settle 0 (Resolved (VCall id))])))
    callerName receiverName callDuration =
  Some [VoiceCallComponent.IncomingCall (VoiceCallComponent.orUnknown callerName)].
Proof.
  intros Ht Hs Hp Hc.
  assert (E : callState (world (run env s [InitiateCall receiver;
                                           Settle 0 (Resolved (VCall id))])) =
              with_status ringing
                (with_receiverId (Some receiver)
                   (with_callId (Some id) (callState (world s))))).
  { destruct s as [w p]. cbn [pending world] in *. subst p.
    destruct (socket env) as [sk|] eqn:Esk; [|contradiction].
    unfold run. cbn [fold_left]. unfold step at 2. cbv zeta. cbn [world].
    unfold initiateCallHandler. rewrite Esk, Ht.
    unfold commit, await. cbn [fst snd pending world app].
    unfold step. cbn [pending world nth_error]. unfold resume, await.
    unfold commit. cbn [fst snd world].
    destruct w; reflexivity. }
  rewrite E. unfold VoiceCallComponent.render.
  destruct (callState (world s)) as [ci cr rc st rs ls]. cbn in Hc |- *.
  now rewrite Hc.
Qed.

Lemma outgoing_call_shown_as_incoming_witness :
  VoiceCallComponent.render
    (callState
       (world
          (run alice_env
             (run alice_env initialSys
                [CallIncoming "c1" "alice" None; Render; RejectCall "c1";
                 Settle 0 (Resolved VUnit); Render])
             [InitiateCall "carol"; Settle 0 (Resolved (VCall "c2"))])))
    (Some "Alice") (Some "Carol") 0 =
  Some [VoiceCallComponent.IncomingCall "Alice"].
Proof.
  apply (outgoing_call_shown_as_incoming alice_env
           (run alice_env initialSys
              [CallIncoming "c1" "alice" None; Render; RejectCall "c1";
               Settle 0 (Resolved VUnit); Render])
           "carol" "c2" (Some "Alice") (Some "Carol") 0).
  - reflexivity.
  - discriminate.
  - vm_compute. reflexivity.
  - vm_compute. reflexivity.
Defined.

(** X29: a read or delivered receipt changes the status mark of no bubble.
    The receipts mark only messages of other senders, and the window shows a
    mark only under messages the user sent, so what [ChatWindow] shows under
    each message is the same before and after any receipt. *)
Theorem receipts_change_no_status_mark (userId : string) (cur : option string)
    (c : string) (prev : list Messages.Message) :
  map (ChatWindow.bubbleMark userId) (ChatApp.onMessageRead userId cur c prev) =
    map (ChatWindow.bubbleMark userId) prev /\
  map (ChatWindow.bubbleMark userId) (ChatApp.onMessageDelivered userId cur c prev) =
    map (ChatWindow.bubbleMark userId) prev.
Proof.
  assert (H : forall read,
    map (ChatWindow.bubbleMark userId)
      (map (fun msg => if ChatApp.receiptApplies userId c msg
                       then ChatApp.withReceipt read msg else msg) prev) =
    map (ChatWindow.bubbleMark userId) prev).
  { intro read. rewrite map_map. apply map_ext. intro m.
    destruct (ChatApp.receiptApplies userId c m) eqn:R; [|reflexivity].
    apply andb_prop in R. destruct R as [_ R]. apply negb_true_iff in R.
    unfold ChatWindow.bubbleMark.
    cbn [ChatApp.withReceipt Messages.senderId]. rewrite R. reflexivity. }
  unfold ChatApp.onMessageRead, ChatApp.onMessageDelivered.
  destruct (opt_string_eqb (Some c) cur); split; try reflexivity; apply H.
Qed.
